(** * Hybrid retrieval core of ai_chatbot_RAG: chunker, hybrid scorer,
      query expander and fan-out merge.

    The Python sources embedded here are
      - [ai_chatbot_RAG-main/document_processor.py]  (DocumentProcessor),
      - [hybrid_retriever.py]                        (HybridRetriever),
      - [ai_chatbot_RAG-main/semantic_query_expander.py]
                                                     (SemanticQueryExpander).

    Conventions of the embedding.
      - A Python [str] is the list of its code points ([pystr]); [len] is
        the length of that list.
      - A Python [int] is a [Z]; slices follow Python's rules for negative
        and out-of-range bounds ([py_slice]).
      - In [retrieve] and in the merge the arithmetic on scores is read
        over the rationals [Q]; what is proved of them uses only how scores
        compare (threshold test, sort order, best-of merge).  The
        arithmetic of [_normalize_scores] is modelled in IEEE 754 binary64
        as well ([Binary64]), with its rounding, overflow, infinities and
        NaN.
      - The [while] loop of [create_chunks] is run with fuel; the loop state
        reached when the fuel runs out is kept, so that statements about the
        emitted chunks also cover runs that never leave the loop.
      - The embedding model, the BM25 scorer and the paraphrase service are
        inputs of the model: what they answer (or that they raise) is a
        parameter of the functions that call them. *)

From Stdlib Require Import List ZArith NArith QArith Qminmax Lia Bool.
From Stdlib Require Import Lqa Sorted Permutation String Ascii.
From Stdlib Require Import Qround Qpower.
From Stdlib Require PrimFloat SpecFloat FloatOps.
Import ListNotations.

Open Scope Z_scope.

(* ================================================================== *)
(** * Python strings and slices *)
(* ================================================================== *)

Module Py.

(** A string is the sequence of its Unicode code points. *)
Definition pystr : Type := list N.

Definition of_string (s : string) : pystr :=
  map N_of_ascii (list_ascii_of_string s).

Definition len {A : Type} (l : list A) : Z := Z.of_nat (List.length l).

Fixpoint pystr_eqb (s t : pystr) : bool :=
  match s, t with
  | [], [] => true
  | c :: s', d :: t' => N.eqb c d && pystr_eqb s' t'
  | _, _ => false
  end.

(** [str.isspace] on one code point: the characters removed by a bare
    [str.strip()]. *)
Definition isspace (c : N) : bool :=
  (((9 <=? c) && (c <=? 13)) || ((28 <=? c) && (c <=? 32))
   || (c =? 133) || (c =? 160) || (c =? 5760)
   || ((8192 <=? c) && (c <=? 8202))
   || (c =? 8232) || (c =? 8233) || (c =? 8239) || (c =? 8287)
   || (c =? 12288))%N.

Fixpoint dropwhile {A : Type} (p : A -> bool) (l : list A) : list A :=
  match l with
  | [] => []
  | x :: l' => if p x then dropwhile p l' else l
  end.

(** [s.lstrip(chars)] / [s.rstrip(chars)] with the character set given as a
    predicate. *)
Definition lstrip_by (p : N -> bool) (s : pystr) : pystr := dropwhile p s.
Definition rstrip_by (p : N -> bool) (s : pystr) : pystr :=
  rev (dropwhile p (rev s)).

(** [s.strip()] *)
Definition strip (s : pystr) : pystr := rstrip_by isspace (lstrip_by isspace s).

(** Truth value of a string: [if s:] *)
Definition truthy (s : pystr) : bool :=
  match s with [] => false | _ :: _ => true end.

(** [s.split(sep)] for a one-character separator: never the empty list. *)
Fixpoint split_on (sep : N) (s : pystr) : list pystr :=
  match s with
  | [] => [[]]
  | c :: s' =>
      if N.eqb c sep then [] :: split_on sep s'
      else match split_on sep s' with
           | [] => [[c]]
           | w :: ws => (c :: w) :: ws
           end
  end.

Fixpoint starts_with (sub s : pystr) : bool :=
  match sub, s with
  | [], _ => true
  | _ :: _, [] => false
  | a :: sub', c :: s' => N.eqb a c && starts_with sub' s'
  end.

(** Highest index [>= i] at which [sub] occurs in the suffix [s] that starts
    at index [i]; [-1] when there is none. *)
Fixpoint rfind_from (sub s : pystr) (i : Z) : Z :=
  match s with
  | [] => if starts_with sub [] then i else -1
  | _ :: s' =>
      let r := rfind_from sub s' (i + 1) in
      if r =? -1 then (if starts_with sub s then i else -1) else r
  end.

(** [s.rfind(sub)] *)
Definition rfind (s sub : pystr) : Z := rfind_from sub s 0.

(** Python's handling of one slice bound on a sequence of length [n]. *)
Definition norm_index (n i : Z) : Z :=
  if i <? 0 then Z.max 0 (n + i) else Z.min i n.

(** [l[a:b]] *)
Definition py_slice {A : Type} (l : list A) (a b : Z) : list A :=
  let a' := norm_index (len l) a in
  let b' := norm_index (len l) b in
  firstn (Z.to_nat (b' - a')) (skipn (Z.to_nat a') l).

(** [l[:k]] *)
Definition py_prefix {A : Type} (l : list A) (k : Z) : list A := py_slice l 0 k.

(** [list(dict.fromkeys(l))]: drop repetitions, keep first-seen order. *)
Fixpoint fromkeys_acc (seen : list pystr) (l : list pystr) : list pystr :=
  match l with
  | [] => []
  | x :: l' =>
      if existsb (pystr_eqb x) seen then fromkeys_acc seen l'
      else x :: fromkeys_acc (x :: seen) l'
  end.

Definition fromkeys (l : list pystr) : list pystr := fromkeys_acc [] l.

End Py.

Import Py.

(* ================================================================== *)
(** * document_processor.py *)
(* ================================================================== *)

(** The chunk dictionary [{'id', 'text', 'start_pos', 'end_pos', 'length'}]. *)
Record Chunk : Type := mkChunk {
  c_id : Z;
  c_text : pystr;
  start_pos : Z;
  end_pos : Z;
  c_length : Z
}.

Record DocumentProcessor : Type := mkDocumentProcessor {
  chunk_size : Z;
  chunk_overlap : Z
}.

(** The sentence delimiters, in the order the source tries them:
    [". "], ["! "], ["? "], [".\n"], ["!\n"], ["?\n"]. *)
Definition delimiters : list pystr :=
  [[46; 32]; [33; 32]; [63; 32]; [46; 10]; [33; 10]; [63; 10]]%N.

Fixpoint find_boundary_in (ds : list pystr) (text : pystr) : Z :=
  match ds with
  | [] => -1
  | d :: ds' =>
      let pos := rfind text d in
      if pos =? -1 then find_boundary_in ds' text
      else pos + len d - 1
  end.

(** [DocumentProcessor._find_sentence_boundary] *)
Definition _find_sentence_boundary (text : pystr) : Z :=
  find_boundary_in delimiters text.

(** The value of [end] after the optional snap to a sentence boundary. *)
Definition window_end (self : DocumentProcessor) (text : pystr) (start : Z) : Z :=
  let end_ := start + chunk_size self in
  if end_ <? len text then
    let window_start := Z.max start (end_ - 100) in
    let window_end := Z.min (len text) (end_ + 100) in
    let sentence_end :=
      _find_sentence_boundary (py_slice text window_start window_end) in
    if negb (sentence_end =? -1) then window_start + sentence_end + 1
    else end_
  else end_.

(** [chunks.append({...}); chunk_id += 1] under [if chunk_text:]. *)
Definition emit (chunks : list Chunk) (chunk_id : Z) (text : pystr)
    (start end_ : Z) : list Chunk * Z :=
  let chunk_text := strip (py_slice text start end_) in
  if truthy chunk_text then
    (chunks ++ [mkChunk chunk_id chunk_text start end_ (len chunk_text)],
     chunk_id + 1)
  else (chunks, chunk_id).

(** Where a bounded run of the loop stands: it has returned its chunks, or
    it is still inside the [while] with the chunks emitted so far. *)
Inductive LoopState : Type :=
  | Returned (chunks : list Chunk)
  | Running (chunks : list Chunk) (start chunk_id : Z).

Definition emitted (s : LoopState) : list Chunk :=
  match s with
  | Returned chunks => chunks
  | Running chunks _ _ => chunks
  end.

(** The [while start < len(text)] loop of [create_chunks], at most [fuel]
    iterations. *)
Fixpoint create_chunks_loop (fuel : nat) (self : DocumentProcessor)
    (text : pystr) (chunks : list Chunk) (start chunk_id : Z) : LoopState :=
  match fuel with
  | O => Running chunks start chunk_id
  | S fuel' =>
      if start <? len text then
        let end_ := window_end self text start in
        let '(chunks', chunk_id') := emit chunks chunk_id text start end_ in
        let start' := end_ - chunk_overlap self in
        if start' >=? len text - chunk_overlap self then Returned chunks'
        else create_chunks_loop fuel' self text chunks' start' chunk_id'
      else Returned chunks
  end.

Definition create_chunks_run (fuel : nat) (self : DocumentProcessor)
    (text : pystr) : LoopState :=
  create_chunks_loop fuel self text [] 0 0.

(** [DocumentProcessor.create_chunks]: [Some chunks] when the loop returns
    within [fuel] iterations. *)
Definition create_chunks (fuel : nat) (self : DocumentProcessor)
    (text : pystr) : option (list Chunk) :=
  match create_chunks_run fuel self text with
  | Returned chunks => Some chunks
  | Running _ _ _ => None
  end.

(* ================================================================== *)
(** * Scores, results and Python's stable descending sort *)
(* ================================================================== *)

Definition Qltb (x y : Q) : bool :=
  match (x ?= y)%Q with Lt => true | _ => false end.

Definition Qleb (x y : Q) : bool :=
  match (x ?= y)%Q with Gt => false | _ => true end.

(** What a call can raise. *)
Inductive Error : Type :=
  | ValueError_NoChunksIndexed   (* "No chunks indexed. Call index_chunks() first." *)
  | ShapeError                   (* NumPy: arrays of different lengths *)
  | ExternalServiceFailure.      (* the embedding model raised *)

Inductive Result (A : Type) : Type :=
  | Ok (a : A)
  | Raise (e : Error).
Arguments Ok {A} a.
Arguments Raise {A} e.

(** The result dictionary built by [retrieve]; [source_query] is the key
    that [retrieve_with_expansion] adds ([None]: key absent). *)
Record RetrievalResult : Type := mkResult {
  chunk : Chunk;
  hybrid_score : Q;
  cosine_score : Q;
  bm25_score : Q;
  text : pystr;
  source_query : option pystr
}.

(** [x] goes in front of the first element whose key is not strictly
    greater than its own. *)
Fixpoint insert_desc {A : Type} (key : A -> Q) (x : A) (l : list A) : list A :=
  match l with
  | [] => [x]
  | y :: l' =>
      if Qltb (key x) (key y) then y :: insert_desc key x l' else x :: l
  end.

(** [l.sort(key=key, reverse=True)].  Python's sort is stable, also with
    [reverse=True]: elements with equal keys keep their order.  The stable
    descending arrangement of a list is unique; inserting the elements from
    the right, each in front of its equals, computes it. *)
Definition sort_desc {A : Type} (key : A -> Q) (l : list A) : list A :=
  fold_right (insert_desc key) [] l.

(* ================================================================== *)
(** * hybrid_retriever.py *)
(* ================================================================== *)

(** The retriever object.  [chunk_embeddings] and [bm25] are [None] until
    [index_chunks] has run.  Once built, the dense side answers a query with
    the cosine similarity of its embedding to every chunk embedding
    ([model.encode] followed by [cosine_similarity]), or raises; the sparse
    side answers with the raw BM25 score of every chunk ([_tokenize]
    followed by [bm25.get_scores]). *)
Record HybridRetriever : Type := mkHybridRetriever {
  cosine_weight : Q;
  bm25_weight : Q;
  threshold : Q;
  chunks : list Chunk;
  chunk_embeddings : option (pystr -> Result (list Q));
  bm25 : option (pystr -> list Q)
}.

Definition list_min (x : Q) (l : list Q) : Q := fold_left Qmin l x.
Definition list_max (x : Q) (l : list Q) : Q := fold_left Qmax l x.

(** The guard constant [1e-10], read as a rational. *)
Definition epsilon : Q := 1 # 10000000000.

(** [HybridRetriever._normalize_scores] with its arithmetic read over the
    rationals.  [retrieve] is modelled with this reading, of which only
    the comparisons between the resulting scores are used; the computation
    in binary64 is [Binary64._normalize_scores]. *)
Definition _normalize_scores (scores : list Q) : list Q :=
  match scores with
  | [] => scores
  | s0 :: rest =>
      let min_score := list_min s0 rest in
      let max_score := list_max s0 rest in
      if Qltb (max_score - min_score) epsilon then map (fun _ => 1%Q) scores
      else map (fun s => (s - min_score) / (max_score - min_score))%Q scores
  end.

(** [cosine_weight * cosine_scores + bm25_weight * bm25_scores_normalized],
    element by element. *)
Fixpoint hybrid_scores (cw bw : Q) (cosine_scores bm25n : list Q) : list Q :=
  match cosine_scores, bm25n with
  | c :: cs, b :: bs => (cw * c + bw * b)%Q :: hybrid_scores cw bw cs bs
  | _, _ => []
  end.

(** The dictionary the loop builds for the chunk at each index, in chunk
    order, before the threshold test. *)
Fixpoint candidates (chunks : list Chunk) (hybrid cosine bm25n : list Q)
    : list RetrievalResult :=
  match chunks, hybrid, cosine, bm25n with
  | c :: cs, h :: hs, co :: cos, b :: bs =>
      mkResult c h co b (c_text c) None :: candidates cs hs cos bs
  | _, _, _, _ => []
  end.

(** [if hybrid_scores[idx] >= self.threshold] *)
Definition clears (th : Q) (r : RetrievalResult) : bool :=
  Qleb th (hybrid_score r).

Definition same_length {A B : Type} (l : list A) (m : list B) : bool :=
  Nat.eqb (List.length l) (List.length m).

(** The candidates of a query whose cosine scores are [cosine_scores]. *)
Definition candidates_of (self : HybridRetriever) (bm25_of : pystr -> list Q)
    (query : pystr) (cosine_scores : list Q) : list RetrievalResult :=
  let bm25_scores_normalized := _normalize_scores (bm25_of query) in
  candidates (chunks self)
    (hybrid_scores (cosine_weight self) (bm25_weight self)
       cosine_scores bm25_scores_normalized)
    cosine_scores bm25_scores_normalized.

(** [HybridRetriever.retrieve] *)
Definition retrieve (self : HybridRetriever) (query : pystr) (top_k : Z)
    : Result (list RetrievalResult) :=
  match chunks self, chunk_embeddings self, bm25 self with
  | _ :: _, Some cosine_of, Some bm25_of =>
      match cosine_of query with
      | Raise e => Raise e
      | Ok cosine_scores =>
          if same_length cosine_scores (chunks self)
             && same_length (bm25_of query) (chunks self)
          then
            let results :=
              filter (clears (threshold self))
                (candidates_of self bm25_of query cosine_scores) in
            Ok (py_prefix (sort_desc hybrid_score results) top_k)
          else Raise ShapeError
      end
  | _, _, _ => Raise ValueError_NoChunksIndexed
  end.

(** The hybrid score of the chunk at index [i]. *)
Definition dummy_chunk : Chunk := mkChunk 0 [] 0 0 0.
Definition dummy_result : RetrievalResult := mkResult dummy_chunk 0 0 0 [] None.

Definition result_at (cands : list RetrievalResult) (i : nat) : RetrievalResult :=
  nth i cands dummy_result.

(** Index [i] is ranked in front of index [j]: a strictly higher hybrid
    score, or the same score and an earlier position in the chunk list. *)
Definition ranks_before (cands : list RetrievalResult) (i j : nat) : Prop :=
  (hybrid_score (result_at cands j) < hybrid_score (result_at cands i))%Q
  \/ ((hybrid_score (result_at cands i) == hybrid_score (result_at cands j))%Q
      /\ (i < j)%nat).

(* ================================================================== *)
(** * hybrid_retriever.py: [_normalize_scores] in binary64 *)
(* ================================================================== *)

(** The arithmetic of [_normalize_scores] as NumPy performs it: IEEE 754
    binary64 with rounding to nearest, ties to even.  A value is a finite
    number (sign and magnitude, so that zero keeps its sign), an infinity
    or NaN; an operation returns the binary64 value nearest to its exact
    result, an infinity on overflow, NaN where the result is undefined.
    The type does not restrict a magnitude to the representable numbers:
    every operation returns a representable one, and what is proved below
    holds of all finite operands. *)
Module Binary64.

Inductive binary64 : Type :=
  | Finite (negative : bool) (magnitude : Q)
  | Infinity (negative : bool)
  | NaN.

Definition pow2 (e : Z) : Q := (2 ^ e)%Q.

(** The integer nearest to [x], the even one of two that are equally
    near. *)
Definition round_half_even (x : Q) : Z :=
  let f := Qfloor x in
  match (x - inject_Z f ?= 1 # 2)%Q with
  | Lt => f
  | Gt => f + 1
  | Eq => if Z.even f then f else f + 1
  end.

(** The exponent of the last place of a magnitude [x]:
    [floor(log2 x) - 52] for a normal number (53 significant bits), [-1074]
    for a subnormal one. *)
Definition ulp_exponent (x : Q) : Z :=
  Z.max (-1074) (Z.log2 (Qfloor (x * pow2 1074)) - 1126).

(** The multiple of the last place nearest to the magnitude [x]. *)
Definition nearest (x : Q) : Q :=
  let e := ulp_exponent x in
  (inject_Z (round_half_even (x * pow2 (- e))) * pow2 e)%Q.

(** Rounding of a magnitude: overflow when the nearest multiple reaches
    [2^1024]. *)
Definition round64 (negative : bool) (x : Q) : binary64 :=
  let r := nearest x in
  if Qle_bool (pow2 1024) r then Infinity negative
  else Finite negative (Qred r).

(** The binary64 value of an exact result [x]; [zero_negative] is the sign
    of the zero returned when [x] is exactly zero. *)
Definition of_exact (x : Q) (zero_negative : bool) : binary64 :=
  match (x ?= 0)%Q with
  | Eq => Finite zero_negative 0
  | Gt => round64 false x
  | Lt => round64 true (- x)
  end.

(** A float literal, as [1e-10]: the binary64 value nearest to the decimal
    number. *)
Definition literal (x : Q) : binary64 := of_exact x false.

(** The number a finite value denotes. *)
Definition value (x : binary64) : Q :=
  match x with
  | Finite negative magnitude => if negative then (- magnitude)%Q else magnitude
  | _ => 0%Q
  end.

(** [x - y].  An exact zero is [-0.0] only for [(-0.0) - (+0.0)]. *)
Definition fsub (x y : binary64) : binary64 :=
  match x, y with
  | NaN, _ | _, NaN => NaN
  | Infinity a, Infinity b => if Bool.eqb a b then NaN else Infinity a
  | Infinity a, Finite _ _ => Infinity a
  | Finite _ _, Infinity b => Infinity (negb b)
  | Finite a _, Finite b _ => of_exact (value x - value y) (a && negb b)
  end.

(** [x / y] on arrays: NumPy warns and returns an infinity or NaN where
    Python's [float] would raise. *)
Definition fdiv (x y : binary64) : binary64 :=
  match x, y with
  | NaN, _ | _, NaN => NaN
  | Infinity _, Infinity _ => NaN
  | Infinity a, Finite b _ => Infinity (xorb a b)
  | Finite a _, Infinity b => Finite (xorb a b) 0
  | Finite a m, Finite b n =>
      if Qeq_bool n 0 then
        if Qeq_bool m 0 then NaN else Infinity (xorb a b)
      else round64 (xorb a b) (m / n)
  end.

(** [x < y]; false when either side is NaN. *)
Definition flt (x y : binary64) : bool :=
  match x, y with
  | NaN, _ | _, NaN => false
  | Infinity a, Infinity b => a && negb b
  | Infinity a, Finite _ _ => a
  | Finite _ _, Infinity b => negb b
  | Finite _ _, Finite _ _ => Qltb (value x) (value y)
  end.

Definition isnan (x : binary64) : bool :=
  match x with NaN => true | _ => false end.

(** One step of the reductions [np.min] and [np.max]: NaN propagates. *)
Definition minimum (a b : binary64) : binary64 :=
  if isnan a then a else if isnan b then b else if flt b a then b else a.

Definition maximum (a b : binary64) : binary64 :=
  if isnan a then a else if isnan b then b else if flt a b then b else a.

(** [np.min(scores)] and [np.max(scores)] of the non-empty array
    [first :: rest]. *)
Definition np_min (first : binary64) (rest : list binary64) : binary64 :=
  fold_left minimum rest first.

Definition np_max (first : binary64) (rest : list binary64) : binary64 :=
  fold_left maximum rest first.

(** The entries of [np.ones_like(scores)]. *)
Definition one : binary64 := Finite false 1.

(** The guard constant [1e-10]. *)
Definition epsilon : binary64 := literal (1 # 10000000000).

(** [HybridRetriever._normalize_scores] *)
Definition _normalize_scores (scores : list binary64) : list binary64 :=
  match scores with
  | [] => scores
  | first :: rest =>
      let min_score := np_min first rest in
      let max_score := np_max first rest in
      if flt (fsub max_score min_score) epsilon
      then map (fun _ => one) scores
      else map (fun s => fdiv (fsub s min_score) (fsub max_score min_score))
             scores
  end.

(** Neither an infinity nor NaN. *)
Definition finite (x : binary64) : Prop :=
  match x with Finite _ _ => True | _ => False end.

(** The value of a normalised score in terms of the exact differences
    [x = s - min] and [d = max - min]: both are rounded, and so is their
    quotient. *)
Definition quotient (x d : Q) : Q := nearest (nearest x / nearest d).

(** The same value as sign, mantissa and exponent, and as one of Rocq's
    primitive floats, which are the binary64 numbers of the machine. *)
Definition to_spec (x : binary64) : SpecFloat.spec_float :=
  match x with
  | NaN => SpecFloat.S754_nan
  | Infinity negative => SpecFloat.S754_infinity negative
  | Finite negative magnitude =>
      let e := ulp_exponent magnitude in
      match Qfloor (magnitude * pow2 (- e)) with
      | Zpos m => SpecFloat.S754_finite negative m e
      | _ => SpecFloat.S754_zero negative
      end
  end.

Definition to_primitive (x : binary64) : PrimFloat.float :=
  FloatOps.SF2Prim (to_spec x).

Definition same_float (x y : SpecFloat.spec_float) : bool :=
  match x, y with
  | SpecFloat.S754_nan, SpecFloat.S754_nan => true
  | SpecFloat.S754_zero a, SpecFloat.S754_zero b => Bool.eqb a b
  | SpecFloat.S754_infinity a, SpecFloat.S754_infinity b => Bool.eqb a b
  | SpecFloat.S754_finite a m e, SpecFloat.S754_finite b n f =>
      Bool.eqb a b && Pos.eqb m n && Z.eqb e f
  | _, _ => false
  end.

(** On the operands [a] and [b] the three operations give what the
    primitive ones give, bit for bit. *)
Definition agrees_with_primitive (a b : binary64) : bool :=
  same_float
    (FloatOps.Prim2SF (PrimFloat.sub (to_primitive a) (to_primitive b)))
    (to_spec (fsub a b))
  && same_float
       (FloatOps.Prim2SF (PrimFloat.div (to_primitive a) (to_primitive b)))
       (to_spec (fdiv a b))
  && Bool.eqb (PrimFloat.ltb (to_primitive a) (to_primitive b)) (flt a b).

(** [0.1], [0.3], [1e-10], [5e-27], [1e308], [-1e308], [-0.0] and the
    smallest subnormal number. *)
Definition sample_values : list binary64 :=
  [literal (1 # 10); literal (3 # 10); literal (1 # 10 ^ 10);
   literal (5 # 10 ^ 27); literal (inject_Z (10 ^ 308));
   literal (- inject_Z (10 ^ 308)); Finite true 0; literal (pow2 (-1074))].

End Binary64.

(* ================================================================== *)
(** * semantic_query_expander.py *)
(* ================================================================== *)

(** What the chat-completion call did: it raised; it answered with
    something the parsing line cannot use (no choice, or a [None] content,
    on which [.strip()] raises); or it answered with a text. *)
Inductive ServiceOutcome : Type :=
  | ServiceRaised
  | ServiceUnusable
  | ServiceContent (content : pystr).

(** The expander object; [client] stands for the Groq client, asked once
    per call with the prompt built from the query and [num_expansions]. *)
Record SemanticQueryExpander : Type := mkSemanticQueryExpander {
  client : pystr -> Z -> ServiceOutcome
}.

(** The character set of the [lstrip] call that removes enumeration
    markers: the ten digits, full stop, hyphen, bullet (U+2022), asterisk,
    closing parenthesis and space. *)
Definition is_marker (c : N) : bool :=
  (((48 <=? c) && (c <=? 57)) || (c =? 46) || (c =? 45) || (c =? 8226)
   || (c =? 42) || (c =? 41) || (c =? 32))%N.

(** The body of the [try] block once the service has answered [content]. *)
Definition clean_expansions (content : pystr) : list pystr :=
  let expanded_queries := split_on 10%N (strip content) in
  let expanded_queries :=
    map strip (filter (fun q => truthy (strip q)) expanded_queries) in
  let expanded_queries :=
    map (fun q => strip (lstrip_by is_marker q)) expanded_queries in
  fromkeys (filter truthy expanded_queries).

(** [SemanticQueryExpander.expand_query] *)
Definition expand_query (self : SemanticQueryExpander) (query : pystr)
    (num_expansions : Z) : list pystr :=
  match client self query num_expansions with
  | ServiceContent content =>
      query :: py_prefix (clean_expansions content) num_expansions
  | ServiceRaised | ServiceUnusable => [query]
  end.

(** [all_results]: a Python dict keyed by chunk id.  An association list in
    insertion order, since [list(all_results.values())] depends on it. *)
Definition ResultDict : Type := list (Z * RetrievalResult).

Fixpoint dict_get (d : ResultDict) (k : Z) : option RetrievalResult :=
  match d with
  | [] => None
  | (k', v) :: d' => if k' =? k then Some v else dict_get d' k
  end.

(** [d[k] = v]: an existing key keeps its place, a new key goes last. *)
Fixpoint dict_set (d : ResultDict) (k : Z) (v : RetrievalResult) : ResultDict :=
  match d with
  | [] => [(k, v)]
  | (k', v') :: d' =>
      if k' =? k then (k, v) :: d' else (k', v') :: dict_set d' k v
  end.

Definition dict_values (d : ResultDict) : list RetrievalResult := map snd d.

(** [result['source_query'] = expanded_query].  The assignment mutates the
    result dictionary; [HybridRetriever.retrieve] builds fresh dictionaries
    on every call and each one is visited once, so nothing else sees the
    mutation and a tagged copy stands for it. *)
Definition tag (expanded_query : pystr) (result : RetrievalResult)
    : RetrievalResult :=
  mkResult (chunk result) (hybrid_score result) (cosine_score result)
    (bm25_score result) (text result) (Some expanded_query).

(** The body of [for result in results]. *)
Definition merge_result (expanded_query : pystr) (all_results : ResultDict)
    (result : RetrievalResult) : ResultDict :=
  let chunk_id := c_id (chunk result) in
  match dict_get all_results chunk_id with
  | None => dict_set all_results chunk_id (tag expanded_query result)
  | Some kept =>
      if Qltb (hybrid_score kept) (hybrid_score result)
      then dict_set all_results chunk_id (tag expanded_query result)
      else all_results
  end.

Definition merge_results (expanded_query : pystr) (all_results : ResultDict)
    (results : list RetrievalResult) : ResultDict :=
  fold_left (merge_result expanded_query) results all_results.

(** A retriever as [retrieve_with_expansion] uses it: its [retrieve]
    method. *)
Definition Retriever : Type := pystr -> Z -> Result (list RetrievalResult).

(** The [for expanded_query in expanded_queries] loop; an exception raised
    by [retriever.retrieve] is not caught and leaves the function. *)
Fixpoint fan_out (retriever : Retriever) (top_k_per_query : Z)
    (expanded_queries : list pystr) (all_results : ResultDict)
    : Result ResultDict :=
  match expanded_queries with
  | [] => Ok all_results
  | expanded_query :: rest =>
      match retriever expanded_query top_k_per_query with
      | Raise e => Raise e
      | Ok results =>
          fan_out retriever top_k_per_query rest
            (merge_results expanded_query all_results results)
      end
  end.

(** The merge and final sort, on a given list of expanded queries. *)
Definition merge_expanded (retriever : Retriever) (top_k_per_query : Z)
    (expanded_queries : list pystr) : Result (list RetrievalResult) :=
  match fan_out retriever top_k_per_query expanded_queries [] with
  | Raise e => Raise e
  | Ok all_results => Ok (sort_desc hybrid_score (dict_values all_results))
  end.

(** [SemanticQueryExpander.retrieve_with_expansion] *)
Definition retrieve_with_expansion (self : SemanticQueryExpander)
    (query : pystr) (retriever : Retriever)
    (num_expansions top_k_per_query : Z) : Result (list RetrievalResult) :=
  merge_expanded retriever top_k_per_query
    (expand_query self query num_expansions).

(* ================================================================== *)
(** * Vocabulary of the statements *)
(* ================================================================== *)

(** The chunk appended for the window that starts at [start], if any. *)
Definition chunk_at (self : DocumentProcessor) (text : pystr)
    (chunk_id start : Z) : Chunk :=
  let end_ := window_end self text start in
  let chunk_text := strip (py_slice text start end_) in
  mkChunk chunk_id chunk_text start end_ (len chunk_text).

(** What the loop guarantees of a chunk whatever the parameters: a
    non-empty text, a start before its end, and an end that is inside the
    text or is the raw window end. *)
Definition chunk_shape (self : DocumentProcessor) (text : pystr) (c : Chunk)
    : Prop :=
  c_text c <> []
  /\ start_pos c < end_pos c
  /\ (end_pos c <= len text \/ end_pos c = start_pos c + chunk_size self).

(** The invariant as the data model words it: a non-empty text and
    offsets into the source text, end exclusive. *)
Definition offsets_in_text (text : pystr) (c : Chunk) : Prop :=
  c_text c <> []
  /\ 0 <= start_pos c < end_pos c
  /\ end_pos c <= len text.

(** Parameters with which every iteration moves the window start forward:
    the overlap is shorter than the shortest snapped window. *)
Definition advancing (self : DocumentProcessor) : Prop :=
  chunk_overlap self + 99 <= chunk_size self \/ chunk_overlap self <= 1.

(** The start offsets grow strictly along the sequence. *)
Definition starts_increasing (chunks : list Chunk) : Prop :=
  StronglySorted (fun a b => start_pos a < start_pos b) chunks.

(** Ranking with a tie-break: [a] goes before [b] when its key is strictly
    higher, or equal with an earlier position. *)
Definition key_then_pos {A : Type} (key : A -> Q) (pos : A -> nat) (a b : A)
    : Prop :=
  (key b < key a)%Q \/ ((key a == key b)%Q /\ (pos a < pos b)%nat).

(** [enumerate(l, n)] *)
Fixpoint enumerate_from {A : Type} (n : nat) (l : list A) : list (nat * A) :=
  match l with
  | [] => []
  | x :: l' => (n, x) :: enumerate_from (S n) l'
  end.

(** The parameters that the error taxonomy calls invalid. *)
Definition invalid_parameters (self : HybridRetriever) (top_k : Z) : Prop :=
  top_k < 1
  \/ (cosine_weight self < 0)%Q \/ (bm25_weight self < 0)%Q
  \/ (threshold self < 0)%Q \/ (1 < threshold self)%Q.

(** The claim as stated: first element [q], at most [n + 1] entries, no
    entry twice. *)
Definition expansion_ok (query : pystr) (n : Z) (out : list pystr) : Prop :=
  hd_error out = Some query /\ len out <= n + 1 /\ NoDup out.

(** [result['chunk']['id']] *)
Definition result_id (r : RetrievalResult) : Z := c_id (chunk r).

(** [merge_result] on a result that already carries its tag. *)
Definition merge_tagged (all_results : ResultDict) (t : RetrievalResult)
    : ResultDict :=
  match dict_get all_results (result_id t) with
  | None => dict_set all_results (result_id t) t
  | Some kept =>
      if Qltb (hybrid_score kept) (hybrid_score t)
      then dict_set all_results (result_id t) t
      else all_results
  end.

(** Every result of every expanded query, tagged with its query, in the
    order the two nested loops visit them. *)
Definition tagged_occurrences (retriever : Retriever) (top_k_per_query : Z)
    (expanded_queries : list pystr) : list RetrievalResult :=
  flat_map
    (fun q => match retriever q top_k_per_query with
              | Ok results => map (tag q) results
              | Raise _ => []
              end)
    expanded_queries.

(** The merge seen from one chunk id: keep the first occurrence, replace it
    only by a strictly higher score. *)
Definition keep_best (kept : option RetrievalResult) (t : RetrievalResult)
    : option RetrievalResult :=
  match kept with
  | None => Some t
  | Some v => if Qltb (hybrid_score v) (hybrid_score t) then Some t else Some v
  end.

(** What the merge keeps for chunk id [k] after the occurrences [occs],
    starting from [kept]. *)
Definition best_for (k : Z) (occs : list RetrievalResult)
    (kept : option RetrievalResult) : option RetrievalResult :=
  fold_left (fun acc t => if result_id t =? k then keep_best acc t else acc)
    occs kept.

(** [v] is, among the occurrences of its chunk id, the first one with the
    highest hybrid score. *)
Definition first_best (occs : list RetrievalResult) (v : RetrievalResult)
    : Prop :=
  exists l1 l2,
    occs = l1 ++ v :: l2
    /\ (forall t, In t l1 -> result_id t = result_id v ->
                  (hybrid_score t < hybrid_score v)%Q)
    /\ (forall t, In t l2 -> result_id t = result_id v ->
                  (hybrid_score t <= hybrid_score v)%Q).

(** Sorted descending by hybrid score. *)
Definition descending (l : list RetrievalResult) : Prop :=
  StronglySorted (fun a b => hybrid_score b <= hybrid_score a)%Q l.

(** [retriever.retrieve] returns for every expanded query. *)
Definition all_retrieved (retriever : Retriever) (top_k_per_query : Z)
    (expanded_queries : list pystr) : Prop :=
  forall q, In q expanded_queries ->
            exists results, retriever q top_k_per_query = Ok results.

(** No two different tagged occurrences have the same hybrid score. *)
Definition no_ties (occs : list RetrievalResult) : Prop :=
  forall t1 t2, In t1 occs -> In t2 occs ->
                (hybrid_score t1 == hybrid_score t2)%Q -> t1 = t2.

(* ================================================================== *)
(** * Concrete inputs *)
(* ================================================================== *)

Module Inputs.

(** The processor of [main.py]: [DocumentProcessor(chunk_size=500,
    chunk_overlap=100)]. *)
Definition default_processor : DocumentProcessor := mkDocumentProcessor 500 100.

Definition hello : pystr := of_string "hello".

(** [DocumentProcessor(chunk_size=50, chunk_overlap=10)] and the text
    ["b"*20 + ". " + "b"*300]. *)
Definition small_processor : DocumentProcessor := mkDocumentProcessor 50 10.

Definition one_sentence_text : pystr :=
  repeat 98%N 20 ++ [46; 32]%N ++ repeat 98%N 300.

(** Three indexed chunks; a dense side that scores them 0.5, 0.9, 0.5 for
    every query and a sparse side that scores them all alike.  With the
    default weights 0.7/0.3 the hybrid scores are 0.65, 0.93, 0.65. *)
Definition sample_chunks : list Chunk :=
  [mkChunk 0 (of_string "linear regression") 0 100 100;
   mkChunk 1 (of_string "multiple linear regression") 100 200 100;
   mkChunk 2 (of_string "polynomial regression") 200 300 100].

Definition sample_cosine (_ : pystr) : Result (list Q) :=
  Ok [1 # 2; 9 # 10; 1 # 2]%Q.

Definition sample_bm25 (_ : pystr) : list Q := [1; 1; 1]%Q.

Definition sample_retriever : HybridRetriever :=
  mkHybridRetriever (7 # 10) (3 # 10) (45 # 100) sample_chunks
    (Some sample_cosine) (Some sample_bm25).

Definition sample_query : pystr := of_string "linear regression".

(** Two paraphrases, an expander whose service suggests ["b"], and
    retrievers for the merge: one that finds chunk 0 with score 0.5 under
    every query, one that raises for every query but ["a"]. *)
Definition qa : pystr := of_string "a".
Definition qb : pystr := of_string "b".

Definition ab_expander : SemanticQueryExpander :=
  mkSemanticQueryExpander (fun _ _ => ServiceContent qb).

Definition hit (i : Z) (score : Q) : RetrievalResult :=
  mkResult (mkChunk i (of_string "t") 0 1 1) score score 1 (of_string "t") None.

Definition tie_retriever : Retriever := fun _ _ => Ok [hit 0 (1 # 2)].

Definition flaky_retriever : Retriever :=
  fun q _ => if pystr_eqb q qa then Ok [hit 0 (1 # 2)]
             else Raise ExternalServiceFailure.

(** A service that echoes the query ["q"] as its only suggestion. *)
Definition echo_expander : SemanticQueryExpander :=
  mkSemanticQueryExpander (fun query _ => ServiceContent query).

(** A retriever without ties: ["a"] finds chunks 0 and 1 with scores 1/2
    and 1/3, every other query finds chunk 0 with score 3/4. *)
Definition two_hits_retriever : Retriever :=
  fun q _ => if pystr_eqb q qa then Ok [hit 0 (1 # 2); hit 1 (1 # 3)]
             else Ok [hit 0 (3 # 4)].

End Inputs.

Import Inputs.

(* ================================================================== *)
(** * hybrid_retriever.py: retrieval statistics *)
(* ================================================================== *)

(** The dictionary returned by [get_retrieval_stats].  The key [top_score]
    is absent from the dictionary built for an empty result list. *)
Record RetrievalStats : Type := mkRetrievalStats {
  stats_query : pystr;
  total_retrieved : Z;
  avg_hybrid_score : Q;
  avg_cosine_score : Q;
  avg_bm25_score : Q;
  top_score : option Q
}.

Definition Qsum (l : list Q) : Q := fold_right Qplus 0%Q l.

(** [HybridRetriever.get_retrieval_stats].  [np_mean] stands for NumPy's
    [np.mean], whose summation order and rounding are NumPy's own: the
    averages are whatever it returns for the three score lists. *)
Definition get_retrieval_stats (np_mean : list Q -> Q) (query : pystr)
    (results : list RetrievalResult) : RetrievalStats :=
  match results with
  | [] => mkRetrievalStats query 0 0 0 0 None
  | first :: _ =>
      mkRetrievalStats query (len results)
        (np_mean (map hybrid_score results))
        (np_mean (map cosine_score results))
        (np_mean (map bm25_score results))
        (Some (hybrid_score first))
  end.

(** The retriever holds a built index that answers [query]: chunks are
    indexed, the dense side returns [cosine_scores] for the query, and both
    score arrays are as long as the chunk list. *)
Definition indexed_for (self : HybridRetriever) (query : pystr)
    (cosine_of : pystr -> Result (list Q)) (bm25_of : pystr -> list Q)
    (cosine_scores : list Q) : Prop :=
  chunks self <> []
  /\ chunk_embeddings self = Some cosine_of
  /\ bm25 self = Some bm25_of
  /\ cosine_of query = Ok cosine_scores
  /\ List.length cosine_scores = List.length (chunks self)
  /\ List.length (bm25_of query) = List.length (chunks self).

(** The same retriever with another value of the attribute [threshold]. *)
Definition with_threshold (self : HybridRetriever) (th : Q) : HybridRetriever :=
  mkHybridRetriever (cosine_weight self) (bm25_weight self) th (chunks self)
    (chunk_embeddings self) (bm25 self).

(* ================================================================== *)
(** * semantic_query_expander.py: expansion statistics *)
(* ================================================================== *)

(** A string without leading or trailing whitespace. *)
Definition trimmed (s : pystr) : Prop :=
  (forall c, hd_error s = Some c -> isspace c = false)
  /\ (forall c, hd_error (rev s) = Some c -> isspace c = false).

(** [query_counts]: a Python dict from source query to count, in insertion
    order. *)
Definition CountDict : Type := list (pystr * Z).

(** [d.get(k, 0)] *)
Fixpoint count_get (d : CountDict) (k : pystr) : Z :=
  match d with
  | [] => 0
  | (k', n) :: d' => if pystr_eqb k' k then n else count_get d' k
  end.

(** [d[k] = n] *)
Fixpoint count_set (d : CountDict) (k : pystr) (n : Z) : CountDict :=
  match d with
  | [] => [(k, n)]
  | (k', n') :: d' =>
      if pystr_eqb k' k then (k, n) :: d' else (k', n') :: count_set d' k n
  end.

(** [result.get('source_query', 'unknown')] *)
Definition source_of (result : RetrievalResult) : pystr :=
  match source_query result with
  | Some q => q
  | None => of_string "unknown"
  end.

(** The loop [query_counts[source] = query_counts.get(source, 0) + 1]. *)
Definition count_sources (results : list RetrievalResult) : CountDict :=
  fold_left
    (fun query_counts result =>
       let source := source_of result in
       count_set query_counts source (count_get query_counts source + 1))
    results [].

(** The dictionary returned by [get_expansion_stats]; the keys
    [chunks_per_query] and [avg_score] are absent from the dictionary built
    for an empty result list. *)
Record ExpansionStats : Type := mkExpansionStats {
  original_query : pystr;
  total_chunks : Z;
  queries_used : Z;
  chunks_per_query : option CountDict;
  avg_score : option Q
}.

(** [SemanticQueryExpander.get_expansion_stats] *)
Definition get_expansion_stats (query : pystr) (results : list RetrievalResult)
    : ExpansionStats :=
  match results with
  | [] => mkExpansionStats query 0 0 None None
  | _ :: _ =>
      let query_counts := count_sources results in
      mkExpansionStats query (len results) (len query_counts)
        (Some query_counts)
        (Some (Qsum (map hybrid_score results) / inject_Z (len results))%Q)
  end.

(** How many results carry the source [k]. *)
Definition sourced_by (k : pystr) (results : list RetrievalResult) : Z :=
  len (filter (fun r => pystr_eqb (source_of r) k) results).

Definition Zsum (l : list Z) : Z := fold_right Z.add 0 l.

(* ================================================================== *)
(** * document_processor.py: text cleaning and the PDF pipeline *)
(* ================================================================== *)

(** [re.sub(r'<class>+', rep, s)] for a character class [p]: every maximal
    run of characters of the class is replaced by the one character [rep].
    The replacement is emitted at the last character of each run. *)
Fixpoint collapse_runs (p : N -> bool) (rep : N) (s : pystr) : pystr :=
  match s with
  | [] => []
  | c :: s' =>
      if p c then
        match s' with
        | d :: _ =>
            if p d then collapse_runs p rep s'
            else rep :: collapse_runs p rep s'
        | [] => [rep]
        end
      else c :: collapse_runs p rep s'
  end.

(** [DocumentProcessor._clean_text]: [re.sub(r'\s+', ' ', text)], then
    [re.sub(r'\n+', '\n', text)], then [text.strip()].  In a [str] pattern
    [\s] is the class of [str.isspace]. *)
Definition _clean_text (text : pystr) : pystr :=
  let text := collapse_runs isspace 32%N text in
  let text := collapse_runs (N.eqb 10%N) 10%N text in
  strip text.

(** Whitespace occurs only as single spaces (U+0020): every whitespace
    character is a space and is not followed by another whitespace
    character. *)
Fixpoint single_spaced (s : pystr) : Prop :=
  match s with
  | [] => True
  | c :: s' =>
      (isspace c = true ->
       c = 32%N /\ match s' with
                   | [] => True
                   | d :: _ => isspace d = false
                   end)
      /\ single_spaced s'
  end.

(** A cleaned text: no leading or trailing whitespace, single spaces
    inside. *)
Definition normalized (s : pystr) : Prop := trimmed s /\ single_spaced s.

Definition nonspace (c : N) : bool := negb (isspace c).

(** The text handed to [_clean_text] by [extract_text_from_pdf]: the text of
    every page that has any, each followed by a line feed.  [pages] is what
    [page.extract_text()] returned for the pages of the document. *)
Definition joined_pages (pages : list pystr) : pystr :=
  fold_left (fun text page_text =>
               if truthy page_text then text ++ page_text ++ [10%N] else text)
    pages [].

(** [DocumentProcessor.extract_text_from_pdf], given the page texts. *)
Definition extract_text_from_pdf (pages : list pystr) : pystr :=
  _clean_text (joined_pages pages).

(** [DocumentProcessor.process_pdf], given the page texts. *)
Definition process_pdf (fuel : nat) (self : DocumentProcessor)
    (pages : list pystr) : option (list Chunk) :=
  create_chunks fuel self (extract_text_from_pdf pages).

(** [sub] occurs in [s] at index [j]: [s[j : j + len(sub)] == sub]. *)
Definition occurs_at (sub s : pystr) (j : nat) : Prop :=
  (j <= List.length s)%nat /\ starts_with sub (skipn j s) = true.

(** Each chunk starts [overlap] characters before the end of the one
    before it. *)
Fixpoint chained (overlap : Z) (chunks : list Chunk) : Prop :=
  match chunks with
  | c :: (c' :: _) as rest =>
      start_pos c' = end_pos c - overlap /\ chained overlap rest
  | _ => True
  end.

(* ================================================================== *)
(** * app.py: the retrieval step of the [/generate] handler *)
(* ================================================================== *)

(** [for query in expanded_queries: chunks = retriever.retrieve(query,
    top_k=10); all_chunks.extend(chunks)].  An exception raised by
    [retrieve] leaves the loop. *)
Fixpoint extend_all (retriever : Retriever) (expanded_queries : list pystr)
    (all_chunks : list RetrievalResult) : Result (list RetrievalResult) :=
  match expanded_queries with
  | [] => Ok all_chunks
  | query :: rest =>
      match retriever query 10 with
      | Raise e => Raise e
      | Ok chunks => extend_all retriever rest (all_chunks ++ chunks)
      end
  end.

(** [for chunk in all_chunks: text = chunk.get('text', ''); if text not in
    seen: seen.add(text); unique_chunks.append(chunk)].  Every result of
    [retrieve] has the key ['text']; [seen] is a set, used for membership
    only. *)
Fixpoint unique_by_text (all_chunks : list RetrievalResult)
    (seen : list pystr) (unique_chunks : list RetrievalResult)
    : list RetrievalResult :=
  match all_chunks with
  | [] => unique_chunks
  | chunk :: rest =>
      if existsb (pystr_eqb (text chunk)) seen
      then unique_by_text rest seen unique_chunks
      else unique_by_text rest (text chunk :: seen) (unique_chunks ++ [chunk])
  end.

(** The value of [chunks] that [generate_quiz] of app.py hands to question
    generation: with [use_expansion], the results of all expanded queries,
    without repeated texts, cut to 15; otherwise
    [retriever.retrieve(topic, top_k=10)]. *)
Definition generate_quiz_chunks (query_expander : SemanticQueryExpander)
    (retriever : Retriever) (topic : pystr) (use_expansion : bool)
    : Result (list RetrievalResult) :=
  if use_expansion then
    let expanded_queries := expand_query query_expander topic 5 in
    match extend_all retriever expanded_queries [] with
    | Raise e => Raise e
    | Ok all_chunks => Ok (py_prefix (unique_by_text all_chunks [] []) 15)
    end
  else retriever topic 10.

(** Every result of every expanded query, in the order the loop visits
    them. *)
Definition occurrences (retriever : Retriever) (top_k : Z)
    (expanded_queries : list pystr) : list RetrievalResult :=
  flat_map
    (fun q => match retriever q top_k with
              | Ok results => results
              | Raise _ => []
              end)
    expanded_queries.

(** [c] is the first of the occurrences that has its text. *)
Definition first_with_text (occs : list RetrievalResult) (c : RetrievalResult)
    : Prop :=
  exists l1 l2, occs = l1 ++ c :: l2 /\ ~ In (text c) (map text l1).

(* ================================================================== *)
(** * main.py: the retrieval step of [RAGQuizSystem.generate_quiz] *)
(* ================================================================== *)

(** The attributes of [RAGQuizSystem] that the retrieval step reads;
    [rag_chunks] is [self.chunks], [None] until [load_document] has run. *)
Record RAGQuizSystem : Type := mkRAGQuizSystem {
  rag_retriever : HybridRetriever;
  rag_query_expander : SemanticQueryExpander;
  rag_chunks : option (list Chunk)
}.

(** What the step can raise: its own [ValueError], or what the retrieval
    raised. *)
Inductive QuizError : Type :=
  | ValueError_NoDocumentLoaded  (* "No document loaded. Call load_document() first." *)
  | RetrievalRaised (e : Error).

(** The value of [retrieved_chunks] in [RAGQuizSystem.generate_quiz]:
    [retrieve_with_expansion] with [top_k_per_query=5] when [use_expansion]
    is set, [retrieve] with [top_k=10] otherwise. *)
Definition retrieved_chunks (self : RAGQuizSystem) (topic : pystr)
    (use_expansion : bool) (num_expansions : Z)
    : QuizError + list RetrievalResult :=
  match rag_chunks self with
  | None => inl ValueError_NoDocumentLoaded
  | Some _ =>
      let answer :=
        if use_expansion then
          retrieve_with_expansion (rag_query_expander self) topic
            (retrieve (rag_retriever self)) num_expansions 5
        else retrieve (rag_retriever self) topic 10 in
      match answer with
      | Ok results => inr results
      | Raise e => inl (RetrievalRaised e)
      end
  end.

(* ================================================================== *)
(** * hybrid_retriever.py: [_tokenize] *)
(* ================================================================== *)

(** [re.findall(r'\b\w+\b', s)]: the maximal runs of word characters of [s],
    from left to right.  [word] is the character class [\w]; [cur] is the
    run being read, last character first. *)
Fixpoint word_runs (word : N -> bool) (s : pystr) (cur : pystr)
    : list pystr :=
  match s with
  | [] => if truthy cur then [rev cur] else []
  | c :: s' =>
      if word c then word_runs word s' (c :: cur)
      else if truthy cur then rev cur :: word_runs word s' []
           else word_runs word s' []
  end.

(** [HybridRetriever._tokenize], given the class [\w] and [str.lower]. *)
Definition _tokenize (word : N -> bool) (lower : pystr -> pystr)
    (text : pystr) : list pystr :=
  word_runs word (lower text) [].

(** A token: a non-empty string of word characters. *)
Definition is_token (word : N -> bool) (t : pystr) : Prop :=
  t <> [] /\ forall c, In c t -> word c = true.

(** [sep.join(l)] for a one-character separator. *)
Fixpoint join (sep : N) (l : list pystr) : pystr :=
  match l with
  | [] => []
  | [t] => t
  | t :: l' => t ++ sep :: join sep l'
  end.

(* ================================================================== *)
(** * Facts about slices and [rfind] *)
(* ================================================================== *)

Section SliceFacts.

Context {A : Type}.

Lemma len_nonneg (l : list A) : 0 <= len l.
Proof. unfold len. lia. Qed.

Lemma len_app (l m : list A) : len (l ++ m) = len l + len m.
Proof. unfold len. rewrite length_app. lia. Qed.

Lemma norm_index_range (n i : Z) : 0 <= n -> 0 <= norm_index n i <= n.
Proof.
  intros Hn. unfold norm_index.
  destruct (i <? 0) eqn:E; [apply Z.ltb_lt in E | apply Z.ltb_ge in E]; lia.
Qed.

Lemma len_py_slice (l : list A) (a b : Z) :
  len (py_slice l a b)
  = Z.max 0 (norm_index (len l) b - norm_index (len l) a).
Proof.
  unfold py_slice.
  pose proof (norm_index_range (len l) a (len_nonneg l)) as Ha.
  pose proof (norm_index_range (len l) b (len_nonneg l)) as Hb.
  unfold len in *. rewrite length_firstn, length_skipn. lia.
Qed.

(** A non-empty slice lies inside the sequence, also when its lower bound is
    negative. *)
Lemma py_slice_fits (l : list A) (a b : Z) :
  0 < len (py_slice l a b) -> a + len (py_slice l a b) <= len l.
Proof.
  rewrite len_py_slice.
  pose proof (norm_index_range (len l) b (len_nonneg l)) as Hb.
  pose proof (len_nonneg l) as Hl.
  unfold norm_index in *.
  destruct (a <? 0) eqn:Ea; [apply Z.ltb_lt in Ea | apply Z.ltb_ge in Ea];
    destruct (b <? 0) eqn:Eb; lia.
Qed.

End SliceFacts.

Lemma starts_with_len (sub s : pystr) :
  starts_with sub s = true -> len sub <= len s.
Proof.
  revert s. induction sub as [| a sub IH]; intros s H.
  - unfold len; simpl; lia.
  - destruct s as [| c s]; [discriminate |].
    simpl in H. apply andb_true_iff in H as [_ H]. apply IH in H.
    unfold len in *. simpl. lia.
Qed.

Lemma rfind_from_range (sub s : pystr) (i : Z) :
  rfind_from sub s i <> -1 ->
  i <= rfind_from sub s i /\ rfind_from sub s i + len sub <= i + len s.
Proof.
  revert i. induction s as [| c s IH]; intros i H.
  - cbn [rfind_from] in *. destruct (starts_with sub []) eqn:E; [| congruence].
    apply starts_with_len in E. lia.
  - cbn [rfind_from] in *.
    destruct (rfind_from sub s (i + 1) =? -1) eqn:E.
    + destruct (starts_with sub (c :: s)) eqn:E'; [| congruence].
      apply starts_with_len in E'. lia.
    + apply Z.eqb_neq in E. specialize (IH (i + 1) E).
      change (c :: s) with ([c] ++ s). rewrite len_app.
      change (len [c]) with 1. lia.
Qed.

Lemma rfind_range (s sub : pystr) :
  rfind s sub <> -1 -> 0 <= rfind s sub /\ rfind s sub + len sub <= len s.
Proof. intros H. apply (rfind_from_range sub s 0) in H. unfold rfind. lia. Qed.

Lemma find_sentence_boundary_range (text : pystr) :
  _find_sentence_boundary text <> -1 ->
  1 <= _find_sentence_boundary text < len text.
Proof.
  unfold _find_sentence_boundary, delimiters. simpl.
  repeat match goal with
         | |- context [rfind text ?d =? -1] =>
             let E := fresh "E" in
             destruct (rfind text d =? -1) eqn:E;
             [| intros _; apply Z.eqb_neq in E; apply rfind_range in E;
                unfold len in *; simpl in *; lia]
         end.
  congruence.
Qed.

(* ================================================================== *)
(** * The chunker *)
(* ================================================================== *)

Section Chunker.

Variable self : DocumentProcessor.
Variable text : pystr.

(** The window end is the raw [start + chunk_size], or a sentence boundary
    inside the text, at least two characters after [start] and at most 98
    characters before the raw end. *)
Lemma window_end_cases (start : Z) :
  window_end self text start = start + chunk_size self
  \/ (start + 2 <= window_end self text start
      /\ start + chunk_size self - 98 <= window_end self text start
      /\ window_end self text start <= len text).
Proof.
  unfold window_end.
  destruct (start + chunk_size self <? len text); [| now left].
  set (ws := Z.max start (start + chunk_size self - 100)).
  set (we := Z.min (len text) (start + chunk_size self + 100)).
  destruct (_find_sentence_boundary (py_slice text ws we) =? -1) eqn:E;
    [now left | right].
  apply Z.eqb_neq, find_sentence_boundary_range in E. cbn [negb].
  assert (Hfit : ws + len (py_slice text ws we) <= len text)
    by (apply py_slice_fits; lia).
  subst ws. lia.
Qed.

Lemma emit_cases (chunks : list Chunk) (chunk_id start : Z) :
  let end_ := window_end self text start in
  (truthy (strip (py_slice text start end_)) = true
   /\ emit chunks chunk_id text start end_
      = (chunks ++ [chunk_at self text chunk_id start], chunk_id + 1))
  \/ emit chunks chunk_id text start end_ = (chunks, chunk_id).
Proof.
  cbv zeta. unfold emit, chunk_at.
  destruct (truthy (strip (py_slice text start (window_end self text start))));
    [left | right]; auto.
Qed.

(** An invariant of the loop that every iteration keeps holds of the state
    reached after any number of iterations. *)
Lemma create_chunks_loop_invariant (I : list Chunk -> Z -> Prop) :
  (forall chunks chunk_id start,
      I chunks start -> start < len text ->
      let end_ := window_end self text start in
      I (fst (emit chunks chunk_id text start end_))
        (end_ - chunk_overlap self)) ->
  forall fuel chunks start chunk_id,
    I chunks start ->
    exists start',
      I (emitted (create_chunks_loop fuel self text chunks start chunk_id))
        start'.
Proof.
  intros Hstep. induction fuel as [| fuel IH]; intros chunks start chunk_id HI.
  - exists start. exact HI.
  - cbn [create_chunks_loop].
    destruct (start <? len text) eqn:E; [| exists start; exact HI].
    apply Z.ltb_lt in E. specialize (Hstep chunks chunk_id start HI E).
    cbv zeta in Hstep.
    destruct (emit chunks chunk_id text start (window_end self text start))
      as [chunks' chunk_id'].
    cbn [fst] in Hstep.
    destruct (window_end self text start - chunk_overlap self
              >=? len text - chunk_overlap self).
    + eexists. exact Hstep.
    + apply IH. exact Hstep.
Qed.

End Chunker.

Lemma StronglySorted_snoc {A : Type} (R : A -> A -> Prop) (l : list A) (x : A) :
  StronglySorted R l -> Forall (fun a => R a x) l -> StronglySorted R (l ++ [x]).
Proof.
  induction 1 as [| a l Hs IH Ha]; intros Hx; simpl.
  - constructor; constructor.
  - inversion Hx; subst. constructor; [auto |].
    apply Forall_app. split; [assumption | constructor; [assumption | constructor]].
Qed.

Lemma window_end_advances (self : DocumentProcessor) (text : pystr) (start : Z) :
  0 <= chunk_overlap self < chunk_size self -> advancing self ->
  start + 1 <= window_end self text start - chunk_overlap self.
Proof.
  intros Hp Hadv. destruct (window_end_cases self text start) as [H | H];
    unfold advancing in Hadv; lia.
Qed.

(** With advancing parameters the loop returns within [len text + 1]
    iterations. *)
Lemma create_chunks_loop_returns (self : DocumentProcessor) (text : pystr) :
  0 <= chunk_overlap self < chunk_size self -> advancing self ->
  forall fuel chunks start chunk_id,
    len text - start <= Z.of_nat fuel ->
    exists chunks',
      create_chunks_loop (S fuel) self text chunks start chunk_id
      = Returned chunks'.
Proof.
  intros Hp Hadv. induction fuel as [| fuel IH]; intros chunks start chunk_id Hf.
  - cbn [create_chunks_loop]. destruct (start <? len text) eqn:E;
      [apply Z.ltb_lt in E; lia | eexists; reflexivity].
  - remember (S fuel) as n eqn:En. cbn [create_chunks_loop].
    destruct (start <? len text) eqn:E; [| eexists; reflexivity].
    destruct (emit chunks chunk_id text start (window_end self text start))
      as [chunks' chunk_id'].
    destruct (window_end self text start - chunk_overlap self
              >=? len text - chunk_overlap self); [eexists; reflexivity |].
    subst n. apply IH.
    pose proof (window_end_advances self text start Hp Hadv). lia.
Qed.

Lemma chunk_at_shape (self : DocumentProcessor) (text : pystr)
    (chunk_id start : Z) :
  1 <= chunk_size self ->
  truthy (strip (py_slice text start (window_end self text start))) = true ->
  chunk_shape self text (chunk_at self text chunk_id start).
Proof.
  intros Hcs Ht. unfold chunk_shape, chunk_at. cbn [c_text start_pos end_pos].
  split; [| split].
  - intros E. rewrite E in Ht. discriminate.
  - destruct (window_end_cases self text start); lia.
  - destruct (window_end_cases self text start); [right | left]; lia.
Qed.

(** C5 (as amended): every chunk that [create_chunks] emits, in a run of any
    length, has a non-empty text and a start offset strictly before its end
    offset; its end offset is inside the source text or is the raw window
    end [start + chunk_size], which can lie past the end of the text.  With
    advancing parameters (overlap at most [chunk_size - 99], as with the
    defaults 500/100, or at most 1) the start offsets are offsets into the
    text and strictly increasing along the emitted sequence. *)
Theorem create_chunks_emitted_shape (self : DocumentProcessor) (text : pystr)
    (fuel : nat) :
  0 <= chunk_overlap self < chunk_size self ->
  Forall (chunk_shape self text) (emitted (create_chunks_run fuel self text))
  /\ (advancing self ->
      starts_increasing (emitted (create_chunks_run fuel self text))
      /\ Forall (fun c => 0 <= start_pos c < len text)
           (emitted (create_chunks_run fuel self text))).
Proof.
  intros Hp. unfold create_chunks_run. split.
  - destruct (create_chunks_loop_invariant self text
                (fun chunks _ => Forall (chunk_shape self text) chunks))
      with (fuel := fuel) (chunks := @nil Chunk) (start := 0) (chunk_id := 0)
      as [_ H]; [| constructor | exact H].
    intros chunks chunk_id start HI _. cbv zeta.
    destruct (emit_cases self text chunks chunk_id start) as [[Ht E] | E];
      rewrite E; cbn [fst]; [| exact HI].
    apply Forall_app. split; [exact HI |].
    constructor; [| constructor]. apply chunk_at_shape; [lia | exact Ht].
  - intros Hadv.
    destruct (create_chunks_loop_invariant self text
                (fun chunks start =>
                   0 <= start /\ starts_increasing chunks
                   /\ Forall (fun c => 0 <= start_pos c < len text
                                       /\ start_pos c < start) chunks))
      with (fuel := fuel) (chunks := @nil Chunk) (start := 0) (chunk_id := 0)
      as [start' (_ & Hs & Hf)].
    + intros chunks chunk_id start (H0 & Hs & Hf) Hlt. cbv zeta.
      pose proof (window_end_advances self text start Hp Hadv) as Hadv'.
      destruct (emit_cases self text chunks chunk_id start) as [[Ht E] | E];
        rewrite E; cbn [fst].
      * split; [lia |]. split.
        -- apply StronglySorted_snoc; [exact Hs |].
           eapply Forall_impl; [| exact Hf]. cbn. intros c Hc. unfold chunk_at.
           cbn [start_pos]. lia.
        -- apply Forall_app. split.
           ++ eapply Forall_impl; [| exact Hf]. cbn. intros c Hc. lia.
           ++ constructor; [| constructor]. unfold chunk_at. cbn [start_pos]. lia.
      * split; [lia |]. split; [exact Hs |].
        eapply Forall_impl; [| exact Hf]. cbn. intros c Hc. lia.
    + split; [lia |]. split; constructor.
    + split; [exact Hs |]. eapply Forall_impl; [| exact Hf]. cbn. tauto.
Qed.

Lemma create_chunks_emitted_shape_witness :
  0 <= chunk_overlap default_processor < chunk_size default_processor
  /\ Forall (chunk_shape default_processor hello)
       (emitted (create_chunks_run 2 default_processor hello)).
Proof.
  assert (H : 0 <= chunk_overlap default_processor
              < chunk_size default_processor) by (cbn; lia).
  split; [exact H |].
  exact (proj1 (create_chunks_emitted_shape default_processor hello 2 H)).
Defined.

(** C5 (as stated) fails on the defaults and the text ["hello"]: the one
    chunk emitted records [end_pos = 500], past the five characters of the
    text. *)
Lemma create_chunks_end_pos_past_text :
  0 <= chunk_overlap default_processor < chunk_size default_processor
  /\ truthy (strip hello) = true
  /\ exists chunks,
       create_chunks 1 default_processor hello = Some chunks
       /\ ~ Forall (offsets_in_text hello) chunks.
Proof.
  split; [cbn; lia |]. split; [reflexivity |].
  eexists. split; [vm_compute; reflexivity |].
  intros H. inversion H as [| c l Hc _]; subst.
  destruct Hc as (_ & _ & Hend). vm_compute in Hend. apply Hend. reflexivity.
Qed.

(** With advancing parameters [create_chunks] returns: [len text + 1]
    iterations are enough. *)
Lemma create_chunks_returns_when_advancing (self : DocumentProcessor)
    (text : pystr) :
  0 <= chunk_overlap self < chunk_size self -> advancing self ->
  exists chunks, create_chunks (S (List.length text)) self text = Some chunks.
Proof.
  intros Hp Hadv. unfold create_chunks, create_chunks_run.
  destruct (create_chunks_loop_returns self text Hp Hadv (List.length text)
              [] 0 0) as [chunks E].
  - unfold len. lia.
  - rewrite E. eexists. reflexivity.
Qed.

(** One iteration of the loop on [one_sentence_text] from [start = 12]
    snaps the window to the only sentence boundary, at 22, emits a chunk and
    sets [start] to [22 - 10 = 12] again. *)
Lemma one_sentence_iteration (fuel : nat) (chunks : list Chunk) (chunk_id : Z) :
  create_chunks_loop (S fuel) small_processor one_sentence_text chunks 12
    chunk_id
  = create_chunks_loop fuel small_processor one_sentence_text
      (chunks ++ [chunk_at small_processor one_sentence_text chunk_id 12])
      12 (chunk_id + 1).
Proof.
  cbn [create_chunks_loop].
  replace (12 <? len one_sentence_text) with true by (vm_compute; reflexivity).
  destruct (emit_cases small_processor one_sentence_text chunks chunk_id 12)
    as [[_ E] | E].
  - rewrite E.
    replace (window_end small_processor one_sentence_text 12) with 22
      by (vm_compute; reflexivity).
    replace (22 - chunk_overlap small_processor
             >=? len one_sentence_text - chunk_overlap small_processor)
      with false by (vm_compute; reflexivity).
    replace (22 - chunk_overlap small_processor) with 12
      by (vm_compute; reflexivity).
    reflexivity.
  - exfalso. unfold emit in E.
    replace (strip (py_slice one_sentence_text 12
                      (window_end small_processor one_sentence_text 12)))
      with (repeat 98%N 8 ++ [46%N]) in E by (vm_compute; reflexivity).
    cbn [repeat app truthy] in E.
    apply (f_equal snd) in E. cbn [snd] in E. lia.
Qed.

Lemma one_sentence_loop_runs (fuel : nat) :
  forall chunks chunk_id,
  exists chunks',
    create_chunks_loop fuel small_processor one_sentence_text chunks 12 chunk_id
    = Running chunks' 12 (chunk_id + Z.of_nat fuel)
    /\ List.length chunks' = (List.length chunks + fuel)%nat.
Proof.
  induction fuel as [| fuel IH]; intros chunks chunk_id.
  - exists chunks. cbn [create_chunks_loop]. split; [f_equal; lia | lia].
  - rewrite one_sentence_iteration.
    destruct (IH (chunks ++ [chunk_at small_processor one_sentence_text
                               chunk_id 12]) (chunk_id + 1))
      as [chunks' [E L]].
    exists chunks'. rewrite E. split; [f_equal; lia |].
    rewrite L, length_app. cbn [List.length]. lia.
Qed.

(** C4 fails on the code: with [chunk_size = 50], [chunk_overlap = 10]
    (so [0 <= overlap < chunk_size]) and the non-empty text
    ["b"*20 + ". " + "b"*300], [create_chunks] never returns.  After the first
    iteration the window start is 12 and stays 12: a run of [fuel + 1]
    iterations is still inside the loop and has emitted [fuel + 1] chunks. *)
Theorem create_chunks_loops_forever :
  0 <= chunk_overlap small_processor < chunk_size small_processor
  /\ truthy (strip one_sentence_text) = true
  /\ (forall fuel,
        create_chunks fuel small_processor one_sentence_text = None)
  /\ (forall fuel,
        exists chunks,
          create_chunks_run (S fuel) small_processor one_sentence_text
          = Running chunks 12 (Z.of_nat (S fuel))
          /\ List.length chunks = S fuel).
Proof.
  assert (Hrun : forall fuel,
             exists chunks,
               create_chunks_run (S fuel) small_processor one_sentence_text
               = Running chunks 12 (Z.of_nat (S fuel))
               /\ List.length chunks = S fuel).
  { intros fuel. unfold create_chunks_run. cbn [create_chunks_loop].
    replace (0 <? len one_sentence_text) with true by (vm_compute; reflexivity).
    destruct (emit_cases small_processor one_sentence_text [] 0 0)
      as [[_ E] | E].
    - rewrite E.
      replace (window_end small_processor one_sentence_text 0) with 22
        by (vm_compute; reflexivity).
      replace (22 - chunk_overlap small_processor
               >=? len one_sentence_text - chunk_overlap small_processor)
        with false by (vm_compute; reflexivity).
      replace (22 - chunk_overlap small_processor) with 12
        by (vm_compute; reflexivity).
      destruct (one_sentence_loop_runs fuel
                  ([] ++ [chunk_at small_processor one_sentence_text 0 0])
                  (0 + 1)) as [chunks [E' L]].
      exists chunks. rewrite E'. split; [f_equal; lia |].
      rewrite L. cbn [List.length app]. lia.
    - exfalso. vm_compute in E. discriminate. }
  split; [cbn; lia |]. split; [vm_compute; reflexivity |]. split; [| exact Hrun].
  intros [| fuel]; [reflexivity |].
  unfold create_chunks. destruct (Hrun fuel) as [chunks [E _]].
  rewrite E. reflexivity.
Qed.

(* ================================================================== *)
(** * Comparisons on scores *)
(* ================================================================== *)

Lemma Qltb_lt (x y : Q) : Qltb x y = true <-> (x < y)%Q.
Proof.
  unfold Qltb. rewrite Qlt_alt. destruct (x ?= y)%Q; split; congruence.
Qed.

Lemma Qltb_ge (x y : Q) : Qltb x y = false <-> (y <= x)%Q.
Proof.
  rewrite <- not_true_iff_false, Qltb_lt. split.
  - apply Qnot_lt_le.
  - apply Qle_not_lt.
Qed.

Lemma Qleb_le (x y : Q) : Qleb x y = true <-> (x <= y)%Q.
Proof.
  unfold Qleb. rewrite Qle_alt. destruct (x ?= y)%Q; split; congruence.
Qed.

(* ================================================================== *)
(** * Min-max normalisation *)
(* ================================================================== *)


Section Binary64Facts.

Import Binary64.


Lemma pow2_pos (e : Z) : (0 < pow2 e)%Q.
Proof. apply Qpower_0_lt. reflexivity. Qed.

Lemma pow2_add (a b : Z) : (pow2 (a + b) == pow2 a * pow2 b)%Q.
Proof. apply Qpower_plus. discriminate. Qed.

Lemma pow2_mono (a b : Z) : a <= b -> (pow2 a <= pow2 b)%Q.
Proof. intros H. apply Qpower_le_compat_l; [exact H | discriminate]. Qed.

Lemma pow2_inject (n : Z) : 0 <= n -> (inject_Z (2 ^ n) == pow2 n)%Q.
Proof. intros H. unfold pow2. rewrite Zpower_Qpower by exact H. reflexivity. Qed.

Lemma pow2_cancel (x : Q) (e : Z) : (x * pow2 (- e) * pow2 e == x)%Q.
Proof.
  rewrite <- Qmult_assoc, <- pow2_add.
  replace (- e + e) with 0 by lia. change (pow2 0) with 1%Q. ring.
Qed.

Lemma round_half_even_bounds (x : Q) :
  Qfloor x <= round_half_even x <= Qfloor x + 1.
Proof.
  unfold round_half_even.
  destruct (x - inject_Z (Qfloor x) ?= 1 # 2)%Q; [| lia | lia].
  destruct (Z.even (Qfloor x)); lia.
Qed.

Lemma round_half_even_mono (x y : Q) :
  (x <= y)%Q -> round_half_even x <= round_half_even y.
Proof.
  intros H. pose proof (Qfloor_resp_le x y H) as Hf.
  pose proof (round_half_even_bounds x) as Hx.
  pose proof (round_half_even_bounds y) as Hy.
  destruct (Z.eq_dec (Qfloor x) (Qfloor y)) as [E | E]; [| lia].
  clear Hx Hy Hf. unfold round_half_even. rewrite <- E.
  destruct (Qcompare_spec (x - inject_Z (Qfloor x)) (1 # 2)) as [Hx | Hx | Hx];
    destruct (Qcompare_spec (y - inject_Z (Qfloor x)) (1 # 2)) as [Hy | Hy | Hy];
    try (destruct (Z.even (Qfloor x))); try lia; exfalso; lra.
Qed.

Lemma round_half_even_inject (k : Z) : round_half_even (inject_Z k) = k.
Proof.
  unfold round_half_even. rewrite Qfloor_Z.
  destruct (Qcompare_spec (inject_Z k - inject_Z k) (1 # 2)) as [H | H | H];
    [exfalso; lra | reflexivity | exfalso; lra].
Qed.

Lemma round_half_even_le (x : Q) (k : Z) :
  (x <= inject_Z k)%Q -> round_half_even x <= k.
Proof.
  intros H. rewrite <- (round_half_even_inject k).
  apply round_half_even_mono. exact H.
Qed.

Lemma round_half_even_ge (x : Q) (k : Z) :
  (inject_Z k <= x)%Q -> k <= round_half_even x.
Proof.
  intros H. rewrite <- (round_half_even_inject k) at 1.
  apply round_half_even_mono. exact H.
Qed.

Lemma ulp_exponent_min (x : Q) : -1074 <= ulp_exponent x.
Proof. unfold ulp_exponent. lia. Qed.

Lemma ulp_exponent_mono (x y : Q) :
  (x <= y)%Q -> ulp_exponent x <= ulp_exponent y.
Proof.
  intros H. unfold ulp_exponent.
  assert (Hs : (x * pow2 1074 <= y * pow2 1074)%Q).
  { apply Qmult_le_compat_r; [exact H |]. apply Qlt_le_weak, pow2_pos. }
  pose proof (Z.log2_le_mono _ _ (Qfloor_resp_le _ _ Hs)). lia.
Qed.

Lemma scaled_back (x : Q) (a b : Z) :
  (x * pow2 1074 < pow2 a)%Q -> a - 1074 <= b -> (x < pow2 b)%Q.
Proof.
  intros H Hab.
  apply Qlt_le_trans with (pow2 (a - 1074)); [| apply pow2_mono; exact Hab].
  replace (a - 1074) with (a + - 1074) by lia. rewrite pow2_add.
  rewrite <- (pow2_cancel x (- 1074)).
  replace (- - 1074) with 1074 by lia.
  apply Qmult_lt_compat_r; [apply pow2_pos | exact H].
Qed.

Lemma ulp_exponent_upper (x : Q) :
  (0 <= x)%Q -> (x < pow2 (ulp_exponent x + 53))%Q.
Proof.
  intros Hx. unfold ulp_exponent.
  set (n := Qfloor (x * pow2 1074)).
  assert (Hn : 0 <= n).
  { rewrite <- (Qfloor_Z 0). apply Qfloor_resp_le.
    apply Qmult_le_0_compat; [exact Hx |]. apply Qlt_le_weak, pow2_pos. }
  assert (Hl : n + 1 <= 2 ^ (Z.log2 n + 1)).
  { destruct (Z.eq_dec n 0) as [-> | Hne]; [cbn; lia |].
    pose proof (Z.log2_spec n ltac:(lia)) as [_ H].
    replace (Z.log2 n + 1) with (Z.succ (Z.log2 n)) by lia. lia. }
  pose proof (Z.log2_nonneg n) as Hl0.
  apply scaled_back with (a := Z.log2 n + 1); [| lia].
  apply Qlt_le_trans with (inject_Z (n + 1)); [apply Qlt_floor |].
  rewrite <- pow2_inject by lia. rewrite <- Zle_Qle. exact Hl.
Qed.

Lemma ulp_exponent_lower (x : Q) :
  -1074 < ulp_exponent x -> (pow2 (ulp_exponent x + 52) <= x)%Q.
Proof.
  unfold ulp_exponent. set (n := Qfloor (x * pow2 1074)). intros He.
  assert (El : Z.max (-1074) (Z.log2 n - 1126) = Z.log2 n - 1126) by lia.
  rewrite El in *.
  assert (Hn : 0 < n).
  { destruct (Z.le_gt_cases n 0) as [H | H]; [| exact H].
    rewrite (Z.log2_nonpos n H) in He. lia. }
  pose proof (Z.log2_spec n Hn) as [Hlo _].
  pose proof (Z.log2_nonneg n) as Hl0.
  assert (Hq : (pow2 (Z.log2 n) <= x * pow2 1074)%Q).
  { rewrite <- pow2_inject by lia.
    apply Qle_trans with (inject_Z n); [rewrite <- Zle_Qle; exact Hlo |].
    apply Qfloor_le. }
  replace (Z.log2 n - 1126 + 52) with (Z.log2 n + - 1074) by lia.
  rewrite pow2_add, <- (pow2_cancel x (- 1074)).
  replace (- - 1074) with 1074 by lia.
  apply Qmult_le_compat_r; [exact Hq |]. apply Qlt_le_weak, pow2_pos.
Qed.

Lemma nearest_nonneg (x : Q) : (0 <= x)%Q -> (0 <= nearest x)%Q.
Proof.
  intros Hx. unfold nearest.
  apply Qmult_le_0_compat; [| apply Qlt_le_weak, pow2_pos].
  change 0%Q with (inject_Z 0). rewrite <- Zle_Qle.
  apply round_half_even_ge. change (inject_Z 0) with 0%Q.
  apply Qmult_le_0_compat; [exact Hx |]. apply Qlt_le_weak, pow2_pos.
Qed.

Lemma nearest_mono (x y : Q) :
  (0 <= x)%Q -> (x <= y)%Q -> (nearest x <= nearest y)%Q.
Proof.
  intros Hx Hxy. unfold nearest.
  pose proof (ulp_exponent_mono x y Hxy) as He.
  set (ex := ulp_exponent x) in *. set (ey := ulp_exponent y) in *.
  destruct (Z.eq_dec ex ey) as [E | E].
  - rewrite <- E. apply Qmult_le_compat_r; [| apply Qlt_le_weak, pow2_pos].
    rewrite <- Zle_Qle. apply round_half_even_mono.
    apply Qmult_le_compat_r; [exact Hxy |]. apply Qlt_le_weak, pow2_pos.
  - assert (Hlt : ex < ey) by lia.
    apply Qle_trans with (pow2 (ex + 53)).
    + rewrite Z.add_comm, pow2_add.
      apply Qmult_le_compat_r; [| apply Qlt_le_weak, pow2_pos].
      rewrite <- (pow2_inject 53) by lia. rewrite <- Zle_Qle.
      apply round_half_even_le. rewrite (pow2_inject 53) by lia.
      pose proof (ulp_exponent_upper x Hx) as Hu. fold ex in Hu.
      apply Qlt_le_weak.
      apply Qmult_lt_r with (z := pow2 ex); [apply pow2_pos |].
      rewrite pow2_cancel, <- pow2_add. rewrite Z.add_comm. exact Hu.
    + apply Qle_trans with (pow2 (ey + 52)); [apply pow2_mono; lia |].
      rewrite Z.add_comm, pow2_add.
      apply Qmult_le_compat_r; [| apply Qlt_le_weak, pow2_pos].
      rewrite <- (pow2_inject 52) by lia. rewrite <- Zle_Qle.
      apply round_half_even_ge. rewrite (pow2_inject 52) by lia.
      pose proof (ulp_exponent_min x) as Hm. fold ex in Hm.
      pose proof (ulp_exponent_lower y ltac:(fold ey; lia)) as Hl. fold ey in Hl.
      apply Qmult_le_r with (z := pow2 ey); [apply pow2_pos |].
      rewrite pow2_cancel, <- pow2_add. rewrite Z.add_comm. exact Hl.
Qed.

Lemma nearest_0 : (nearest 0 == 0)%Q.
Proof. vm_compute. reflexivity. Qed.

Lemma nearest_1 : (nearest 1 == 1)%Q.
Proof. vm_compute. reflexivity. Qed.

Lemma nearest_comp (x y : Q) :
  (0 <= x)%Q -> (x == y)%Q -> (nearest x == nearest y)%Q.
Proof.
  intros Hx E. apply Qle_antisym; apply nearest_mono; lra.
Qed.

Lemma of_exact_nonneg (x : Q) (zero_negative : bool) :
  (0 <= x)%Q -> (nearest x < pow2 1024)%Q ->
  exists negative,
    of_exact x zero_negative = Finite negative (Qred (nearest x))
    /\ (negative = true -> (x == 0)%Q).
Proof.
  intros Hx Hb. unfold of_exact.
  destruct (Qcompare_spec x 0) as [E | H | H].
  - exists zero_negative. split; [| intros _; exact E].
    rewrite (Qred_complete (nearest x) 0); [reflexivity |].
    rewrite (nearest_comp x 0 Hx E). apply nearest_0.
  - exfalso. lra.
  - exists false. split; [| discriminate]. unfold round64.
    destruct (Qle_bool (pow2 1024) (nearest x)) eqn:Eo; [| reflexivity].
    apply Qle_bool_iff in Eo. exfalso. lra.
Qed.

Lemma of_exact_finite (x : Q) (zero_negative : bool) :
  (0 <= x)%Q -> finite (of_exact x zero_negative) ->
  (nearest x < pow2 1024)%Q.
Proof.
  intros Hx. unfold of_exact.
  destruct (Qcompare_spec x 0) as [E | H | H].
  - intros _. rewrite (nearest_comp x 0 Hx E), nearest_0. apply pow2_pos.
  - exfalso. lra.
  - unfold round64.
    destruct (Qle_bool (pow2 1024) (nearest x)) eqn:Eo; [intros [] |].
    intros _. apply Qnot_le_lt. intros Hle.
    apply Qle_bool_iff in Hle. congruence.
Qed.

Lemma value_nearest (negative : bool) (x : Q) :
  (negative = true -> (nearest x == 0)%Q) ->
  (value (Finite negative (Qred (nearest x))) == nearest x)%Q.
Proof.
  intros Hs. cbn [value]. destruct negative; [| apply Qred_correct].
  rewrite Qred_correct, (Hs eq_refl). reflexivity.
Qed.

Lemma epsilon_finite : exists e, epsilon = Finite false e /\ (0 < e)%Q.
Proof. eexists. split; [vm_compute; reflexivity | reflexivity]. Qed.

(** A difference [s - min_score] of finite values, at most a difference
    that does not overflow, is the nearest binary64 value of the exact
    difference. *)
Lemma fsub_above (s lo : binary64) (bound : Q) :
  finite s -> finite lo -> (value lo <= value s)%Q ->
  (value s - value lo <= bound)%Q -> (nearest bound < pow2 1024)%Q ->
  exists negative,
    fsub s lo = Finite negative (Qred (nearest (value s - value lo)))
    /\ (negative = true -> (value s - value lo == 0)%Q).
Proof.
  intros Hs Hlo Hle Hb Hn.
  destruct s as [a m | |]; try contradiction.
  destruct lo as [b n | |]; try contradiction.
  unfold fsub. apply of_exact_nonneg; [lra |].
  eapply Qle_lt_trans; [| exact Hn]. apply nearest_mono; [lra | exact Hb].
Qed.

Lemma fsub_finite_bound (hi lo : binary64) :
  finite hi -> finite lo -> (value lo <= value hi)%Q ->
  finite (fsub hi lo) -> (nearest (value hi - value lo) < pow2 1024)%Q.
Proof.
  intros Hhi Hlo Hle.
  destruct hi as [a m | |]; try contradiction.
  destruct lo as [b n | |]; try contradiction.
  unfold fsub. apply of_exact_finite. lra.
Qed.

Lemma normalized_entry (s lo hi : binary64) :
  finite s -> finite lo -> finite hi ->
  (value lo <= value s <= value hi)%Q ->
  finite (fsub hi lo) -> flt (fsub hi lo) epsilon = false ->
  let x := fdiv (fsub s lo) (fsub hi lo) in
  finite x
  /\ (value x == quotient (value s - value lo) (value hi - value lo))%Q
  /\ (0 < nearest (value hi - value lo))%Q.
Proof.
  intros Hs Hlo Hhi [Hle1 Hle2] Hfin Hflt. cbv zeta.
  pose proof (fsub_finite_bound hi lo Hhi Hlo ltac:(lra) Hfin) as Hb.
  destruct (fsub_above hi lo (value hi - value lo) Hhi Hlo ltac:(lra)
              ltac:(lra) Hb) as (sd & Ed & Hsd).
  destruct (fsub_above s lo (value hi - value lo) Hs Hlo Hle1 ltac:(lra) Hb)
    as (sn & En & Hsn).
  set (xd := (value hi - value lo)%Q) in *.
  set (xn := (value s - value lo)%Q) in *.
  assert (Hxn : (0 <= xn)%Q) by (unfold xn; lra).
  assert (Hxd : (0 <= xd)%Q) by (unfold xd; lra).
  assert (Hnd : (xn <= xd)%Q) by (unfold xn, xd; lra).
  destruct epsilon_finite as (e & Ee & He).
  rewrite Ed, Ee in Hflt. cbn [flt] in Hflt. apply Qltb_ge in Hflt.
  assert (Hvd : (value (Finite sd (Qred (nearest xd))) == nearest xd)%Q).
  { apply value_nearest. intros Hneg.
    rewrite (nearest_comp xd 0 Hxd (Hsd Hneg)). apply nearest_0. }
  assert (Hdpos : (0 < nearest xd)%Q).
  { rewrite <- Hvd. cbn [value] in Hflt |- *. lra. }
  assert (Esd : sd = false).
  { destruct sd; [| reflexivity]. exfalso.
    rewrite (nearest_comp xd 0 Hxd (Hsd eq_refl)), nearest_0 in Hdpos.
    apply (Qlt_irrefl 0). exact Hdpos. }
  subst sd. rewrite En, Ed. cbn [fdiv].
  assert (Hredd : (Qred (nearest xd) == nearest xd)%Q) by apply Qred_correct.
  assert (Hredn : (Qred (nearest xn) == nearest xn)%Q) by apply Qred_correct.
  destruct (Qeq_bool (Qred (nearest xd)) 0) eqn:Ez.
  { apply Qeq_bool_iff in Ez. exfalso. lra. }
  assert (Hn0 : (0 <= nearest xn)%Q) by (apply nearest_nonneg; exact Hxn).
  assert (Hnle : (nearest xn <= nearest xd)%Q)
    by (apply nearest_mono; assumption).
  assert (Hq0 : (0 <= Qred (nearest xn) / Qred (nearest xd))%Q).
  { apply Qle_shift_div_l; lra. }
  assert (Hq1 : (Qred (nearest xn) / Qred (nearest xd) <= 1)%Q).
  { apply Qle_shift_div_r; lra. }
  assert (Hqe : (Qred (nearest xn) / Qred (nearest xd)
                 == nearest xn / nearest xd)%Q).
  { rewrite Hredn, Hredd. reflexivity. }
  assert (Hr1 : (nearest (Qred (nearest xn) / Qred (nearest xd)) <= 1)%Q).
  { rewrite <- nearest_1. apply nearest_mono; assumption. }
  unfold round64.
  destruct (Qle_bool (pow2 1024)
              (nearest (Qred (nearest xn) / Qred (nearest xd)))) eqn:Eo.
  { apply Qle_bool_iff in Eo. exfalso.
    assert (H1024 : (1 < pow2 1024)%Q) by reflexivity. lra. }
  split; [exact I |]. split; [| exact Hdpos].
  unfold quotient. rewrite <- (nearest_comp _ _ Hq0 Hqe).
  rewrite xorb_false_r. apply value_nearest. intros Hneg.
  assert (Hz : (nearest xn == 0)%Q).
  { rewrite (nearest_comp xn 0 Hxn (Hsn Hneg)). apply nearest_0. }
  assert (Hqz : (Qred (nearest xn) / Qred (nearest xd) == 0)%Q).
  { rewrite Hqe, Hz. unfold Qdiv. ring. }
  rewrite (nearest_comp _ 0 Hq0 Hqz). apply nearest_0.
Qed.


Lemma quotient_mono (x y d : Q) :
  (0 <= x)%Q -> (x <= y)%Q -> (0 < nearest d)%Q ->
  (quotient x d <= quotient y d)%Q.
Proof.
  intros Hx Hxy Hpos. unfold quotient.
  assert (Hn0 : (0 <= nearest x)%Q) by (apply nearest_nonneg; exact Hx).
  assert (Hnle : (nearest x <= nearest y)%Q)
    by (apply nearest_mono; assumption).
  apply nearest_mono.
  - apply Qle_shift_div_l; lra.
  - unfold Qdiv. apply Qmult_le_compat_r; [exact Hnle |].
    apply Qlt_le_weak, Qinv_lt_0_compat. exact Hpos.
Qed.

Lemma quotient_zero (x d : Q) : (x == 0)%Q -> (quotient x d == 0)%Q.
Proof.
  intros E. unfold quotient.
  assert (Hz : (nearest x == 0)%Q).
  { rewrite (nearest_comp x 0); [apply nearest_0 | lra | exact E]. }
  rewrite (nearest_comp (nearest x / nearest d) 0).
  - apply nearest_0.
  - rewrite Hz. unfold Qdiv. lra.
  - rewrite Hz. unfold Qdiv. ring.
Qed.

Lemma quotient_one (x d : Q) :
  (0 <= x)%Q -> (x == d)%Q -> (0 < nearest d)%Q -> (quotient x d == 1)%Q.
Proof.
  intros Hx E Hpos. unfold quotient.
  assert (Hn : (nearest x == nearest d)%Q) by (apply nearest_comp; assumption).
  assert (Hq : (nearest x / nearest d == 1)%Q).
  { rewrite Hn. field. lra. }
  rewrite (nearest_comp _ 1); [apply nearest_1 | lra | exact Hq].
Qed.

Lemma minimum_spec (a b : binary64) :
  finite a -> finite b ->
  (minimum a b = a \/ minimum a b = b)
  /\ (value (minimum a b) <= value a)%Q
  /\ (value (minimum a b) <= value b)%Q.
Proof.
  intros Ha Hb. destruct a as [sa ma | |]; try contradiction.
  destruct b as [sb mb | |]; try contradiction.
  unfold minimum. cbn [isnan flt].
  destruct (Qltb (value (Finite sb mb)) (value (Finite sa ma))) eqn:E.
  - apply Qltb_lt in E. split; [now right |]. split; lra.
  - apply Qltb_ge in E. split; [now left |]. split; lra.
Qed.

Lemma maximum_spec (a b : binary64) :
  finite a -> finite b ->
  (maximum a b = a \/ maximum a b = b)
  /\ (value a <= value (maximum a b))%Q
  /\ (value b <= value (maximum a b))%Q.
Proof.
  intros Ha Hb. destruct a as [sa ma | |]; try contradiction.
  destruct b as [sb mb | |]; try contradiction.
  unfold maximum. cbn [isnan flt].
  destruct (Qltb (value (Finite sa ma)) (value (Finite sb mb))) eqn:E.
  - apply Qltb_lt in E. split; [now right |]. split; lra.
  - apply Qltb_ge in E. split; [now left |]. split; lra.
Qed.

Lemma np_min_spec (rest : list binary64) : forall first,
  Forall finite (first :: rest) ->
  In (np_min first rest) (first :: rest)
  /\ Forall (fun s => value (np_min first rest) <= value s)%Q (first :: rest).
Proof.
  induction rest as [| r rest IH]; intros first Hf.
  - cbn. split; [now left |]. constructor; [lra | constructor].
  - inversion Hf as [| ? ? Hfirst Hrest]; subst.
    inversion Hrest as [| ? ? Hr Hrest']; subst.
    destruct (minimum_spec first r Hfirst Hr) as (Hin & H1 & H2).
    assert (Hm : finite (minimum first r))
      by (destruct Hin as [-> | ->]; assumption).
    destruct (IH (minimum first r) (Forall_cons _ Hm Hrest')) as [Hi Hall].
    change (np_min first (r :: rest)) with (np_min (minimum first r) rest).
    inversion Hall as [| ? ? Hhd Htl]; subst. split.
    + destruct Hi as [Hi | Hi].
      * rewrite <- Hi. destruct Hin as [-> | ->]; [now left | right; now left].
      * right. right. exact Hi.
    + constructor; [lra |]. constructor; [lra | exact Htl].
Qed.

Lemma np_max_spec (rest : list binary64) : forall first,
  Forall finite (first :: rest) ->
  In (np_max first rest) (first :: rest)
  /\ Forall (fun s => value s <= value (np_max first rest))%Q (first :: rest).
Proof.
  induction rest as [| r rest IH]; intros first Hf.
  - cbn. split; [now left |]. constructor; [lra | constructor].
  - inversion Hf as [| ? ? Hfirst Hrest]; subst.
    inversion Hrest as [| ? ? Hr Hrest']; subst.
    destruct (maximum_spec first r Hfirst Hr) as (Hin & H1 & H2).
    assert (Hm : finite (maximum first r))
      by (destruct Hin as [-> | ->]; assumption).
    destruct (IH (maximum first r) (Forall_cons _ Hm Hrest')) as [Hi Hall].
    change (np_max first (r :: rest)) with (np_max (maximum first r) rest).
    inversion Hall as [| ? ? Hhd Htl]; subst. split.
    + destruct Hi as [Hi | Hi].
      * rewrite <- Hi. destruct Hin as [-> | ->]; [now left | right; now left].
      * right. right. exact Hi.
    + constructor; [lra |]. constructor; [lra | exact Htl].
Qed.




(** The model on values that Python prints: [0.1] is
    [3602879701896397 / 2^55] and [1e-10] is [7737125245533627 / 2^86];
    [[0.1, 0.2, 0.3]] normalises to [[0.0, 0.5000000000000001, 1.0]]; on
    [[5e-27, 1e-10]] the computed spread is [1e-10] itself, although the
    exact one is smaller, and the result is [[0.0, 1.0]]. *)
Example normalize_scores_binary64_values :
  literal (1 # 10) = Finite false (3602879701896397 # 36028797018963968)
  /\ epsilon = Finite false (7737125245533627 # 77371252455336267181195264)
  /\ _normalize_scores [literal (1 # 10); literal (2 # 10); literal (3 # 10)]
     = [Finite false 0; Finite false (4503599627370497 # 9007199254740992);
        Finite false 1]
  /\ (value (literal (1 # 10 ^ 10)) - value (literal (5 # 10 ^ 27))
      < value epsilon)%Q
  /\ _normalize_scores [literal (5 # 10 ^ 27); literal (1 # 10 ^ 10)]
     = [Finite false 0; Finite false 1].
Proof. repeat split; vm_compute; reflexivity. Qed.

(** On every pair of the sample values, among them operands whose
    difference overflows, whose quotient underflows and the two zeros,
    subtraction, division and comparison agree with the primitive floats. *)
Example binary64_agrees_with_primitive_floats :
  forallb (fun a => forallb (agrees_with_primitive a) sample_values)
    sample_values
  = true.
Proof. vm_compute. reflexivity. Qed.

End Binary64Facts.

(* ================================================================== *)
(** * The stable descending sort *)
(* ================================================================== *)

Section SortFacts.

Context {A : Type}.
Variable key : A -> Q.

Lemma insert_desc_perm (x : A) (l : list A) :
  Permutation (insert_desc key x l) (x :: l).
Proof.
  induction l as [| y l IH]; cbn [insert_desc]; [reflexivity |].
  destruct (Qltb (key x) (key y)); [| reflexivity].
  rewrite IH. apply perm_swap.
Qed.

Lemma sort_desc_perm (l : list A) : Permutation (sort_desc key l) l.
Proof.
  induction l as [| x l IH]; cbn [sort_desc fold_right]; [reflexivity |].
  fold (sort_desc key l). rewrite insert_desc_perm, IH. reflexivity.
Qed.

Lemma sort_desc_In (l : list A) (x : A) : In x (sort_desc key l) <-> In x l.
Proof.
  split; apply Permutation_in;
    [apply sort_desc_perm | symmetry; apply sort_desc_perm].
Qed.

(** Stability.  [pos] is a position: when the input is in strictly
    increasing position, the output is ordered by descending key and, among
    equal keys, by increasing position. *)
Variable pos : A -> nat.

Lemma key_then_pos_key (a b : A) :
  key_then_pos key pos a b -> (key b <= key a)%Q.
Proof.
  intros [H | [H _]]; [apply Qlt_le_weak; exact H | rewrite H; apply Qle_refl].
Qed.

Lemma insert_desc_ranked (x : A) (l : list A) :
  StronglySorted (key_then_pos key pos) l ->
  Forall (fun y => (pos x < pos y)%nat) l ->
  StronglySorted (key_then_pos key pos) (insert_desc key x l).
Proof.
  induction 1 as [| y l Hs IH Hy]; intros Hpos; cbn [insert_desc].
  - constructor; constructor.
  - inversion Hpos as [| y' l' Hxy Hxl]; subst.
    destruct (Qltb (key x) (key y)) eqn:E.
    + apply Qltb_lt in E. constructor; [auto |].
      eapply Permutation_Forall; [symmetry; apply insert_desc_perm |].
      constructor; [left; exact E | exact Hy].
    + apply Qltb_ge in E.
      assert (Hx : forall z, (key z <= key x)%Q -> (pos x < pos z)%nat ->
                             key_then_pos key pos x z).
      { intros z Hz Hp. destruct (Qlt_le_dec (key z) (key x)) as [H | H].
        - left; exact H.
        - right. split; [apply Qle_antisym; assumption | exact Hp]. }
      constructor; [constructor; assumption |].
      constructor; [apply Hx; assumption |].
      rewrite Forall_forall in Hy, Hxl |- *. intros z Hz.
      apply Hx; [| apply Hxl; exact Hz].
      eapply Qle_trans; [apply key_then_pos_key, Hy; exact Hz | exact E].
Qed.

Lemma sort_desc_ranked (l : list A) :
  StronglySorted (fun a b => (pos a < pos b)%nat) l ->
  StronglySorted (key_then_pos key pos) (sort_desc key l).
Proof.
  induction 1 as [| x l Hs IH Hx]; cbn [sort_desc fold_right];
    [constructor |].
  fold (sort_desc key l). apply insert_desc_ranked; [exact IH |].
  eapply Permutation_Forall; [symmetry; apply sort_desc_perm | exact Hx].
Qed.

(** Without positions: the output is in descending order of key. *)
Lemma insert_desc_sorted (x : A) (l : list A) :
  StronglySorted (fun a b => key b <= key a)%Q l ->
  StronglySorted (fun a b => key b <= key a)%Q (insert_desc key x l).
Proof.
  induction 1 as [| y l Hs IH Hy]; cbn [insert_desc].
  - constructor; constructor.
  - destruct (Qltb (key x) (key y)) eqn:E.
    + apply Qltb_lt in E. constructor; [exact IH |].
      eapply Permutation_Forall; [symmetry; apply insert_desc_perm |].
      constructor; [apply Qlt_le_weak; exact E | exact Hy].
    + apply Qltb_ge in E. constructor; [constructor; assumption |].
      constructor; [exact E |].
      eapply Forall_impl; [| exact Hy]. cbn. intros z Hz.
      eapply Qle_trans; eassumption.
Qed.

Lemma sort_desc_sorted (l : list A) :
  StronglySorted (fun a b => key b <= key a)%Q (sort_desc key l).
Proof.
  induction l as [| x l IH]; cbn [sort_desc fold_right]; [constructor |].
  apply insert_desc_sorted. exact IH.
Qed.

End SortFacts.

Lemma insert_desc_map {A B : Type} (key : B -> Q) (f : A -> B) (x : A)
    (l : list A) :
  insert_desc key (f x) (map f l)
  = map f (insert_desc (fun a => key (f a)) x l).
Proof.
  induction l as [| y l IH]; cbn [insert_desc map]; [reflexivity |].
  destruct (Qltb (key (f x)) (key (f y))); cbn [map]; [rewrite IH |];
    reflexivity.
Qed.

Lemma sort_desc_map {A B : Type} (key : B -> Q) (f : A -> B) (l : list A) :
  sort_desc key (map f l) = map f (sort_desc (fun a => key (f a)) l).
Proof.
  induction l as [| x l IH]; cbn [sort_desc fold_right map]; [reflexivity |].
  fold (sort_desc key (map f l)). fold (sort_desc (fun a => key (f a)) l).
  rewrite IH. apply insert_desc_map.
Qed.

Lemma filter_map_comm {A B : Type} (p : B -> bool) (f : A -> B) (l : list A) :
  filter p (map f l) = map f (filter (fun a => p (f a)) l).
Proof.
  induction l as [| x l IH]; cbn [filter map]; [reflexivity |].
  destruct (p (f x)); cbn [map]; rewrite IH; reflexivity.
Qed.

Lemma StronglySorted_filter {A : Type} (R : A -> A -> Prop) (p : A -> bool)
    (l : list A) :
  StronglySorted R l -> StronglySorted R (filter p l).
Proof.
  induction 1 as [| x l Hs IH Hx]; cbn [filter]; [constructor |].
  destruct (p x); [| exact IH].
  constructor; [exact IH |].
  rewrite Forall_forall in Hx |- *. intros y Hy. apply Hx.
  apply filter_In in Hy. tauto.
Qed.

Lemma In_firstn {A : Type} (n : nat) (l : list A) (x : A) :
  In x (firstn n l) -> In x l.
Proof.
  intros H. rewrite <- (firstn_skipn n l). apply in_or_app. now left.
Qed.

Lemma StronglySorted_firstn {A : Type} (R : A -> A -> Prop) (n : nat)
    (l : list A) :
  StronglySorted R l -> StronglySorted R (firstn n l).
Proof.
  intros H. revert n. induction H as [| x l Hs IH Hx]; intros [| n];
    cbn [firstn]; try constructor.
  - apply IH.
  - rewrite Forall_forall in Hx |- *. intros y Hy. apply Hx.
    eapply In_firstn. exact Hy.
Qed.

Lemma StronglySorted_map {A B : Type} (R : A -> A -> Prop)
    (S : B -> B -> Prop) (f : A -> B) (l : list A) :
  (forall a b, In a l -> In b l -> R a b -> S (f a) (f b)) ->
  StronglySorted R l -> StronglySorted S (map f l).
Proof.
  intros HRS H. induction H as [| x l Hs IH Hx]; cbn [map]; constructor.
  - apply IH. intros a b Ha Hb. apply HRS; now right.
  - rewrite Forall_forall in Hx |- *. intros y Hy.
    apply in_map_iff in Hy as (a & <- & Ha).
    apply HRS; [now left | now right | apply Hx; exact Ha].
Qed.

Lemma py_prefix_firstn {A : Type} (l : list A) (k : Z) :
  0 <= k -> py_prefix l k = firstn (Z.to_nat k) l.
Proof.
  intros Hk. unfold py_prefix, py_slice, norm_index.
  pose proof (len_nonneg l) as Hl.
  replace (0 <? 0) with false by reflexivity.
  destruct (k <? 0) eqn:E; [apply Z.ltb_lt in E; lia |].
  rewrite (Z.min_l 0 (len l)) by lia. cbn [Z.to_nat skipn]. rewrite Z.sub_0_r.
  destruct (Z.le_gt_cases k (len l)) as [H | H].
  - rewrite Z.min_l by lia. reflexivity.
  - rewrite Z.min_r by lia. unfold len in *.
    rewrite Nat2Z.id, firstn_all, firstn_all2 by lia. reflexivity.
Qed.

(* ================================================================== *)
(** * retrieve *)
(* ================================================================== *)

Lemma enumerate_from_snd {A : Type} (l : list A) : forall n,
  map snd (enumerate_from n l) = l.
Proof.
  induction l as [| x l IH]; intros n; cbn [enumerate_from map snd];
    [| rewrite IH]; reflexivity.
Qed.

Lemma enumerate_from_In {A : Type} (d : A) (l : list A) : forall n i x,
  In (i, x) (enumerate_from n l) ->
  (n <= i < n + List.length l)%nat /\ nth (i - n) l d = x.
Proof.
  induction l as [| y l IH]; intros n i x H; cbn [enumerate_from] in H;
    [contradiction |].
  destruct H as [E | H].
  - inversion E; subst. rewrite Nat.sub_diag. cbn [List.length nth].
    split; [lia | reflexivity].
  - apply IH in H as [Hr Hn]. cbn [List.length]. split; [lia |].
    replace (i - n)%nat with (S (i - S n)) by lia. exact Hn.
Qed.

Lemma enumerate_from_sorted {A : Type} (l : list A) : forall n,
  StronglySorted (fun a b : nat * A => (fst a < fst b)%nat)
    (enumerate_from n l).
Proof.
  induction l as [| x l IH]; intros n; cbn [enumerate_from]; constructor.
  - apply IH.
  - rewrite Forall_forall. intros [i y] H.
    apply (enumerate_from_In x) in H. cbn [fst]. lia.
Qed.

Lemma normalize_scores_length (scores : list Q) :
  List.length (_normalize_scores scores) = List.length scores.
Proof.
  unfold _normalize_scores. destruct scores as [| s0 rest]; [reflexivity |].
  destruct (Qltb _ _); apply length_map.
Qed.

Lemma candidates_length (chunks : list Chunk) : forall hybrid cosine bm25n,
  (List.length (candidates chunks hybrid cosine bm25n)
   <= List.length chunks)%nat.
Proof.
  induction chunks as [| c cs IH]; intros [| h hs] [| co cos] [| b bs];
    cbn [candidates List.length]; try lia.
  specialize (IH hs cos bs). lia.
Qed.

Lemma candidates_chunk (chunks : list Chunk) : forall hybrid cosine bm25n i,
  (i < List.length (candidates chunks hybrid cosine bm25n))%nat ->
  chunk (nth i (candidates chunks hybrid cosine bm25n) dummy_result)
  = nth i chunks dummy_chunk.
Proof.
  induction chunks as [| c cs IH]; intros [| h hs] [| co cos] [| b bs] i;
    cbn [candidates List.length]; try lia.
  destruct i as [| i]; cbn [nth chunk]; [reflexivity |].
  intros H. apply IH. lia.
Qed.

Lemma filter_none {A : Type} (p : A -> bool) (l : list A) :
  Forall (fun x => p x = false) l -> filter p l = [].
Proof.
  induction 1 as [| x l Hx _ IH]; cbn [filter]; [reflexivity |].
  rewrite Hx. exact IH.
Qed.

Lemma same_length_true {A B : Type} (l : list A) (m : list B) :
  List.length l = List.length m -> same_length l m = true.
Proof. intros E. unfold same_length. apply Nat.eqb_eq. exact E. Qed.

(** What [retrieve] returns on a built index whose score arrays are in
    lockstep with the chunk list. *)
Lemma retrieve_built (cw bw th : Q) (chunk_list : list Chunk)
    (cosine_of : pystr -> Result (list Q)) (bm25_of : pystr -> list Q)
    (query : pystr) (cosine_scores : list Q) (top_k : Z) :
  let self := mkHybridRetriever cw bw th chunk_list (Some cosine_of) (Some bm25_of) in
  chunk_list <> [] ->
  cosine_of query = Ok cosine_scores ->
  List.length cosine_scores = List.length chunk_list ->
  List.length (bm25_of query) = List.length chunk_list ->
  retrieve self query top_k
  = Ok (py_prefix
          (sort_desc hybrid_score
             (filter (clears th)
                (candidates_of self bm25_of query cosine_scores)))
          top_k).
Proof.
  cbv zeta. intros Hne Hcos Hl1 Hl2. unfold retrieve.
  cbn [chunks chunk_embeddings bm25 threshold].
  destruct chunk_list as [| c cs]; [congruence |].
  rewrite Hcos, (same_length_true _ _ Hl1), (same_length_true _ _ Hl2).
  reflexivity.
Qed.

(** C1: on an indexed, non-empty chunk set [retrieve] returns (it does not
    raise when nothing clears the threshold) a sequence that contains no
    chunk whose hybrid score is strictly below the threshold, lists chunk
    indices in descending order of hybrid score with ties in original chunk
    order, and has at most [top_k] entries; it is empty when no chunk clears
    the threshold. *)
Theorem retrieve_filters_ranks_truncates (cw bw th : Q) (chunk_list : list Chunk)
    (cosine_of : pystr -> Result (list Q)) (bm25_of : pystr -> list Q)
    (query : pystr) (cosine_scores : list Q) (top_k : Z) :
  let self := mkHybridRetriever cw bw th chunk_list (Some cosine_of) (Some bm25_of) in
  let cands := candidates_of self bm25_of query cosine_scores in
  chunk_list <> [] ->
  cosine_of query = Ok cosine_scores ->
  List.length cosine_scores = List.length chunk_list ->
  List.length (bm25_of query) = List.length chunk_list ->
  0 <= top_k ->
  exists out idxs,
    retrieve self query top_k = Ok out
    /\ Forall (fun r => ~ (hybrid_score r < th)%Q) out
    /\ out = map (result_at cands) idxs
    /\ Forall (fun i => (i < List.length chunk_list)%nat
                        /\ chunk (result_at cands i) = nth i chunk_list dummy_chunk)
         idxs
    /\ StronglySorted (ranks_before cands) idxs
    /\ len out <= top_k
    /\ (Forall (fun r => (hybrid_score r < th)%Q) cands -> out = []).
Proof.
  cbv zeta. intros Hne Hcos Hl1 Hl2 Hk.
  rewrite (retrieve_built cw bw th chunk_list cosine_of bm25_of query
             cosine_scores top_k Hne Hcos Hl1 Hl2).
  set (self := mkHybridRetriever cw bw th chunk_list (Some cosine_of) (Some bm25_of)).
  set (cands := candidates_of self bm25_of query cosine_scores).
  set (el := enumerate_from 0 cands).
  set (S := sort_desc (fun p : nat * RetrievalResult => hybrid_score (snd p))
              (filter (fun p => clears th (snd p)) el)).
  assert (Hout : py_prefix (sort_desc hybrid_score (filter (clears th) cands))
                   top_k
                 = map snd (firstn (Z.to_nat top_k) S)).
  { rewrite py_prefix_firstn by exact Hk.
    rewrite <- (enumerate_from_snd cands 0) at 1. fold el.
    rewrite filter_map_comm, sort_desc_map, firstn_map. reflexivity. }
  assert (Hel : forall p, In p (firstn (Z.to_nat top_k) S) ->
                          (fst p < List.length cands)%nat
                          /\ snd p = result_at cands (fst p)
                          /\ clears th (snd p) = true).
  { intros [i r] Hp. apply In_firstn in Hp. unfold S in Hp.
    apply sort_desc_In, filter_In in Hp as [Hp Hc].
    apply (enumerate_from_In dummy_result) in Hp as [Hr Hn].
    cbn [fst snd] in *. rewrite Nat.sub_0_r in Hn. unfold result_at.
    repeat split; [lia | congruence | exact Hc]. }
  exists (map snd (firstn (Z.to_nat top_k) S)),
         (map fst (firstn (Z.to_nat top_k) S)).
  split; [f_equal; exact Hout |]. split; [| split; [| split; [| split; [| split]]]].
  - rewrite Forall_forall. intros r Hr.
    apply in_map_iff in Hr as (p & <- & Hp).
    apply Hel in Hp as (_ & _ & Hc). unfold clears in Hc.
    apply Qleb_le in Hc. apply Qle_not_lt. exact Hc.
  - rewrite map_map. apply map_ext_in. intros p Hp. apply Hel. exact Hp.
  - rewrite Forall_forall. intros i Hi.
    apply in_map_iff in Hi as (p & <- & Hp).
    apply Hel in Hp as (Hlt & _ & _). split.
    + pose proof (candidates_length chunk_list
                    (hybrid_scores cw bw cosine_scores
                       (_normalize_scores (bm25_of query)))
                    cosine_scores (_normalize_scores (bm25_of query))) as Hc.
      unfold cands, candidates_of in Hlt. cbn [chunks cosine_weight bm25_weight self] in Hlt.
      lia.
    + unfold result_at. apply candidates_chunk. exact Hlt.
  - apply StronglySorted_map
      with (R := key_then_pos (fun p : nat * RetrievalResult =>
                                 hybrid_score (snd p)) fst).
    + intros a b Ha Hb Hab. apply Hel in Ha as (_ & Ea & _).
      apply Hel in Hb as (_ & Eb & _).
      unfold key_then_pos in Hab. unfold ranks_before.
      rewrite <- Ea, <- Eb. exact Hab.
    + apply StronglySorted_firstn. unfold S. apply sort_desc_ranked.
      apply StronglySorted_filter. apply enumerate_from_sorted.
  - unfold len. rewrite length_map.
    pose proof (firstn_le_length (Z.to_nat top_k) S). lia.
  - intros Hall. rewrite <- Hout.
    rewrite filter_none;
      [rewrite py_prefix_firstn by exact Hk; apply firstn_nil |].
    eapply Forall_impl; [| exact Hall]. cbn. intros r Hr.
    unfold clears. apply not_true_iff_false. rewrite Qleb_le.
    apply Qlt_not_le. exact Hr.
Qed.

Lemma retrieve_filters_ranks_truncates_witness :
  sample_chunks <> [] /\ 0 <= 2
  /\ exists out idxs,
       retrieve sample_retriever sample_query 2 = Ok out
       /\ out = map (result_at
                       (candidates_of sample_retriever sample_bm25 sample_query
                          [1 # 2; 9 # 10; 1 # 2]%Q)) idxs
       /\ StronglySorted
            (ranks_before
               (candidates_of sample_retriever sample_bm25 sample_query
                  [1 # 2; 9 # 10; 1 # 2]%Q)) idxs
       /\ len out <= 2.
Proof.
  assert (Hne : sample_chunks <> []) by discriminate.
  assert (Hk : 0 <= 2) by lia.
  split; [exact Hne |]. split; [exact Hk |].
  destruct (retrieve_filters_ranks_truncates (7 # 10) (3 # 10) (45 # 100)
              sample_chunks sample_cosine sample_bm25 sample_query
              [1 # 2; 9 # 10; 1 # 2]%Q 2 Hne eq_refl eq_refl eq_refl Hk)
    as (out & idxs & H1 & _ & H3 & _ & H5 & H6 & _).
  exists out, idxs. repeat split; assumption.
Defined.

(** C8 (as stated) fails: [retrieve] with [top_k = 0] on the sample index
    does not fail, it returns the empty list. *)
Lemma retrieve_top_k_zero_returns :
  invalid_parameters sample_retriever 0
  /\ retrieve sample_retriever sample_query 0 = Ok []
  /\ ~ (exists e, retrieve sample_retriever sample_query 0 = Raise e).
Proof.
  split; [left; lia |]. split; [vm_compute; reflexivity |].
  intros [e H]. vm_compute in H. discriminate.
Qed.

(** C8 (as amended): [retrieve] validates nothing but the presence of an
    index.  Without an index it raises [ValueError] whatever the parameters;
    on a built index in lockstep, whatever [top_k], the weights and the
    threshold are, it returns the slice [[:top_k]] of the candidates that
    clear the threshold, sorted. *)
Theorem retrieve_validates_only_index (self : HybridRetriever) (query : pystr)
    (top_k : Z) :
  (chunks self = [] \/ chunk_embeddings self = None \/ bm25 self = None ->
   retrieve self query top_k = Raise ValueError_NoChunksIndexed)
  /\ (forall cosine_of bm25_of cosine_scores,
        chunks self <> [] ->
        chunk_embeddings self = Some cosine_of ->
        bm25 self = Some bm25_of ->
        cosine_of query = Ok cosine_scores ->
        List.length cosine_scores = List.length (chunks self) ->
        List.length (bm25_of query) = List.length (chunks self) ->
        retrieve self query top_k
        = Ok (py_prefix
                (sort_desc hybrid_score
                   (filter (clears (threshold self))
                      (candidates_of self bm25_of query cosine_scores)))
                top_k)).
Proof.
  split.
  - intros H. unfold retrieve.
    destruct (chunks self) as [| c cs]; [reflexivity |].
    destruct (chunk_embeddings self) as [cosine_of |];
      [| reflexivity].
    destruct (bm25 self) as [bm25_of |]; [| reflexivity].
    destruct H as [H | [H | H]]; discriminate.
  - intros cosine_of bm25_of cosine_scores Hne He Hb Hcos Hl1 Hl2.
    destruct self as [cw bw th chunk_list emb bm]. cbn [chunks chunk_embeddings
      bm25 threshold] in *. subst emb bm.
    apply retrieve_built; assumption.
Qed.

Lemma retrieve_validates_only_index_witness :
  chunks sample_retriever <> []
  /\ retrieve sample_retriever sample_query (-1)
     = Ok (py_prefix
             (sort_desc hybrid_score
                (filter (clears (threshold sample_retriever))
                   (candidates_of sample_retriever sample_bm25 sample_query
                      [1 # 2; 9 # 10; 1 # 2]%Q)))
             (-1)).
Proof.
  assert (Hne : chunks sample_retriever <> []) by discriminate.
  split; [exact Hne |].
  exact (proj2 (retrieve_validates_only_index sample_retriever sample_query (-1))
           sample_cosine sample_bm25 [1 # 2; 9 # 10; 1 # 2]%Q
           Hne eq_refl eq_refl eq_refl eq_refl eq_refl).
Defined.

(* ================================================================== *)
(** * expand_query *)
(* ================================================================== *)

Lemma pystr_eqb_eq (s t : pystr) : pystr_eqb s t = true <-> s = t.
Proof.
  revert t. induction s as [| c s IH]; intros [| d t]; cbn [pystr_eqb];
    try (split; [discriminate | congruence]); [tauto |].
  rewrite andb_true_iff, N.eqb_eq, IH. split.
  - intros [-> ->]. reflexivity.
  - intros E. inversion E. auto.
Qed.

Lemma existsb_pystr_eqb (x : pystr) (seen : list pystr) :
  existsb (pystr_eqb x) seen = true <-> In x seen.
Proof.
  rewrite existsb_exists. split.
  - intros (y & Hy & E). apply pystr_eqb_eq in E. subst. exact Hy.
  - intros H. exists x. split; [exact H | apply pystr_eqb_eq; reflexivity].
Qed.

Lemma fromkeys_acc_spec (l : list pystr) : forall seen,
  NoDup (fromkeys_acc seen l)
  /\ (forall x, In x (fromkeys_acc seen l) <-> In x l /\ ~ In x seen).
Proof.
  induction l as [| y l IH]; intros seen; cbn [fromkeys_acc].
  - split; [constructor |]. intros x. cbn. tauto.
  - destruct (existsb (pystr_eqb y) seen) eqn:E.
    + apply existsb_pystr_eqb in E. destruct (IH seen) as [Hn Hi].
      split; [exact Hn |]. intros x. rewrite Hi. cbn [In]. split.
      * tauto.
      * intros [[-> | H] Hs]; tauto.
    + assert (Hy : ~ In y seen).
      { intros H. apply existsb_pystr_eqb in H. congruence. }
      destruct (IH (y :: seen)) as [Hn Hi]. split.
      * constructor; [| exact Hn]. rewrite Hi. cbn [In]. tauto.
      * intros x. cbn [In]. rewrite Hi. cbn [In].
        destruct (list_eq_dec N.eq_dec y x) as [-> | Hne]; tauto.
Qed.

Lemma fromkeys_NoDup (l : list pystr) : NoDup (fromkeys l).
Proof. apply fromkeys_acc_spec. Qed.

Lemma NoDup_py_prefix {A : Type} (l : list A) (k : Z) :
  0 <= k -> NoDup l -> NoDup (py_prefix l k).
Proof.
  intros Hk H. rewrite py_prefix_firstn by exact Hk.
  rewrite <- (firstn_skipn (Z.to_nat k) l) in H.
  apply NoDup_app_remove_r in H. exact H.
Qed.

Lemma len_py_prefix {A : Type} (l : list A) (k : Z) :
  0 <= k -> len (py_prefix l k) <= k.
Proof.
  intros Hk. rewrite py_prefix_firstn by exact Hk. unfold len.
  pose proof (firstn_le_length (Z.to_nat k) l). lia.
Qed.

(** C6 (as stated) fails: when the service's answer contains the query
    itself, the query is listed twice. *)
Lemma expand_query_repeats_query :
  0 <= 5
  /\ expand_query echo_expander (of_string "q") 5
     = [of_string "q"; of_string "q"]
  /\ ~ expansion_ok (of_string "q") 5
         (expand_query echo_expander (of_string "q") 5).
Proof.
  split; [lia |]. split; [vm_compute; reflexivity |].
  intros (_ & _ & H). vm_compute in H.
  inversion H as [| x l Hx _]; subst. apply Hx. now left.
Qed.

(** C6 (as amended): for every query, every [n >= 0] and every outcome of
    the paraphrase service, [expand_query] returns [q] followed by at most
    [n] expansions; the expansions are non-empty strings and pairwise
    distinct among themselves; when the service raises or answers with
    nothing usable the result is exactly [[q]]. *)
Theorem expand_query_spec (self : SemanticQueryExpander) (query : pystr)
    (num_expansions : Z) :
  0 <= num_expansions ->
  exists expansions,
    expand_query self query num_expansions = query :: expansions
    /\ len (query :: expansions) <= num_expansions + 1
    /\ NoDup expansions
    /\ Forall (fun e => e <> []) expansions
    /\ (client self query num_expansions = ServiceRaised
        \/ client self query num_expansions = ServiceUnusable ->
        expansions = []).
Proof.
  intros Hn. unfold expand_query.
  destruct (client self query num_expansions) as [| | content].
  - exists []. repeat split; try constructor. unfold len; cbn; lia.
  - exists []. repeat split; try constructor. unfold len; cbn; lia.
  - exists (py_prefix (clean_expansions content) num_expansions).
    split; [reflexivity |]. split; [| split; [| split]].
    + change (query :: py_prefix (clean_expansions content) num_expansions)
        with ([query] ++ py_prefix (clean_expansions content) num_expansions).
      rewrite len_app. change (len [query]) with 1.
      pose proof (len_py_prefix (clean_expansions content) num_expansions Hn).
      lia.
    + apply NoDup_py_prefix; [exact Hn | apply fromkeys_NoDup].
    + rewrite Forall_forall. intros e He.
      rewrite py_prefix_firstn in He by exact Hn. apply In_firstn in He.
      unfold clean_expansions, fromkeys in He.
      apply fromkeys_acc_spec in He as [He _].
      apply filter_In in He as [_ He]. intros ->. discriminate.
    + intros [H | H]; discriminate.
Qed.

Lemma expand_query_spec_witness :
  0 <= 5
  /\ exists expansions,
       expand_query echo_expander (of_string "q") 5 = of_string "q" :: expansions
       /\ NoDup expansions.
Proof.
  assert (Hn : 0 <= 5) by lia.
  split; [exact Hn |].
  destruct (expand_query_spec echo_expander (of_string "q") 5 Hn)
    as (expansions & H1 & _ & H3 & _).
  exists expansions. split; assumption.
Defined.

(* ================================================================== *)
(** * The fan-out merge *)
(* ================================================================== *)

Lemma merge_result_tagged (q : pystr) (d : ResultDict) (r : RetrievalResult) :
  merge_result q d r = merge_tagged d (tag q r).
Proof. reflexivity. Qed.

Lemma dict_get_set (d : ResultDict) (k k' : Z) (v : RetrievalResult) :
  dict_get (dict_set d k v) k' = if k =? k' then Some v else dict_get d k'.
Proof.
  induction d as [| [k0 v0] d IH]; cbn [dict_set dict_get]; [reflexivity |].
  destruct (k0 =? k) eqn:E0; cbn [dict_get].
  - apply Z.eqb_eq in E0. subst k0. destruct (k =? k'); reflexivity.
  - rewrite IH. destruct (k0 =? k') eqn:E1; [| reflexivity].
    apply Z.eqb_eq in E1. subst k'. rewrite Z.eqb_sym, E0. reflexivity.
Qed.

Lemma dict_get_None (d : ResultDict) (k : Z) :
  dict_get d k = None <-> ~ In k (map fst d).
Proof.
  induction d as [| [k0 v0] d IH]; cbn [dict_get map fst In]; [tauto |].
  destruct (k0 =? k) eqn:E.
  - apply Z.eqb_eq in E. split; [discriminate | tauto].
  - apply Z.eqb_neq in E. rewrite IH. tauto.
Qed.

Lemma dict_get_In (d : ResultDict) (k : Z) (v : RetrievalResult) :
  NoDup (map fst d) -> (In (k, v) d <-> dict_get d k = Some v).
Proof.
  induction d as [| [k0 v0] d IH]; cbn [dict_get map fst In]; intros Hn.
  - split; [contradiction | discriminate].
  - inversion Hn as [| x l Hx Hn']; subst. destruct (k0 =? k) eqn:E.
    + apply Z.eqb_eq in E. subst k0. split.
      * intros [H | H]; [congruence |]. exfalso. apply Hx.
        change k with (fst (k, v)). apply in_map. exact H.
      * intros H. left. congruence.
    + apply Z.eqb_neq in E. rewrite <- (IH Hn'). split; [| tauto].
      intros [H | H]; [congruence | exact H].
Qed.

Lemma dict_set_keys (d : ResultDict) (k : Z) (v : RetrievalResult) :
  map fst (dict_set d k v)
  = match dict_get d k with
    | None => map fst d ++ [k]
    | Some _ => map fst d
    end.
Proof.
  induction d as [| [k0 v0] d IH]; cbn [dict_set dict_get map fst app];
    [reflexivity |].
  destruct (k0 =? k) eqn:E; cbn [map fst].
  - apply Z.eqb_eq in E. congruence.
  - rewrite IH. destruct (dict_get d k); reflexivity.
Qed.

Lemma dict_set_NoDup (d : ResultDict) (k : Z) (v : RetrievalResult) :
  NoDup (map fst d) -> NoDup (map fst (dict_set d k v)).
Proof.
  intros Hn. rewrite dict_set_keys. destruct (dict_get d k) eqn:E; [exact Hn |].
  apply dict_get_None in E. apply NoDup_rev in Hn.
  rewrite <- (rev_involutive (map fst d ++ [k])), rev_app_distr.
  apply NoDup_rev. cbn [rev app]. constructor; [| exact Hn].
  rewrite <- in_rev. exact E.
Qed.

Lemma merge_tagged_NoDup (d : ResultDict) (t : RetrievalResult) :
  NoDup (map fst d) -> NoDup (map fst (merge_tagged d t)).
Proof.
  intros Hn. unfold merge_tagged.
  destruct (dict_get d (result_id t)) as [kept |];
    [destruct (Qltb _ _) |]; auto using dict_set_NoDup.
Qed.

Lemma merge_tagged_get (d : ResultDict) (t : RetrievalResult) (k : Z) :
  dict_get (merge_tagged d t) k
  = if result_id t =? k then keep_best (dict_get d k) t else dict_get d k.
Proof.
  unfold merge_tagged, keep_best.
  destruct (result_id t =? k) eqn:E.
  - apply Z.eqb_eq in E. subst k.
    destruct (dict_get d (result_id t)) as [kept |] eqn:G.
    + destruct (Qltb _ _); [| exact G].
      rewrite dict_get_set, Z.eqb_refl. reflexivity.
    + rewrite dict_get_set, Z.eqb_refl. reflexivity.
  - destruct (dict_get d (result_id t)) as [kept |];
      [destruct (Qltb _ _) |]; rewrite ?dict_get_set, ?E; reflexivity.
Qed.

Lemma merge_fold_NoDup (occs : list RetrievalResult) : forall d,
  NoDup (map fst d) -> NoDup (map fst (fold_left merge_tagged occs d)).
Proof.
  induction occs as [| t occs IH]; intros d Hn; cbn [fold_left];
    [exact Hn |].
  apply IH, merge_tagged_NoDup, Hn.
Qed.

(** The dictionary refines the per-id reduction. *)
Lemma merge_fold_get (occs : list RetrievalResult) (k : Z) : forall d,
  dict_get (fold_left merge_tagged occs d) k = best_for k occs (dict_get d k).
Proof.
  unfold best_for. induction occs as [| t occs IH]; intros d;
    cbn [fold_left]; [reflexivity |].
  rewrite IH, merge_tagged_get. reflexivity.
Qed.

(** Keys are the chunk ids of their values. *)
Lemma merge_fold_keys (occs : list RetrievalResult) : forall d,
  Forall (fun kv => fst kv = result_id (snd kv)) d ->
  Forall (fun kv => fst kv = result_id (snd kv)) (fold_left merge_tagged occs d).
Proof.
  assert (Hset : forall d k v,
             k = result_id v ->
             Forall (fun kv => fst kv = result_id (snd kv)) d ->
             Forall (fun kv => fst kv = result_id (snd kv)) (dict_set d k v)).
  { induction d as [| [k0 v0] d IH]; intros k v Hk Hd; cbn [dict_set].
    - constructor; [exact Hk | constructor].
    - inversion Hd as [| x l Hx Hl]; subst x l.
      destruct (k0 =? k); constructor; auto. }
  induction occs as [| t occs IH]; intros d Hd; cbn [fold_left]; [exact Hd |].
  apply IH. unfold merge_tagged.
  destruct (dict_get d (result_id t)) as [kept |];
    [destruct (Qltb _ _) |]; auto.
Qed.

Lemma best_for_snoc (k : Z) (occs : list RetrievalResult) (t : RetrievalResult)
    (kept : option RetrievalResult) :
  best_for k (occs ++ [t]) kept
  = if result_id t =? k then keep_best (best_for k occs kept) t
    else best_for k occs kept.
Proof. unfold best_for. rewrite fold_left_app. reflexivity. Qed.

Lemma first_best_snoc_other (occs : list RetrievalResult)
    (v t : RetrievalResult) :
  first_best occs v ->
  (result_id t = result_id v -> (hybrid_score t <= hybrid_score v)%Q) ->
  first_best (occs ++ [t]) v.
Proof.
  intros (l1 & l2 & E & H1 & H2) Ht. exists l1, (l2 ++ [t]).
  split; [rewrite E, <- app_assoc; reflexivity |]. split; [exact H1 |].
  intros t' Hin Hid. apply in_app_or in Hin as [Hin | [<- | []]]; auto.
Qed.

Lemma first_best_bound (occs : list RetrievalResult) (v t : RetrievalResult) :
  first_best occs v -> In t occs -> result_id t = result_id v ->
  (hybrid_score t <= hybrid_score v)%Q.
Proof.
  intros (l1 & l2 & E & H1 & H2) Hin Hid. subst occs.
  apply in_app_or in Hin as [Hin | [<- | Hin]].
  - apply Qlt_le_weak. auto.
  - apply Qle_refl.
  - auto.
Qed.

Lemma first_best_In (occs : list RetrievalResult) (v : RetrievalResult) :
  first_best occs v -> In v occs.
Proof.
  intros (l1 & l2 & E & _). subst occs. apply in_or_app. right. now left.
Qed.

(** The per-id reduction keeps the first occurrence with the highest
    score, and keeps something as soon as the id occurs. *)
Lemma best_for_spec (k : Z) (occs : list RetrievalResult) :
  match best_for k occs None with
  | None => forall t, In t occs -> result_id t <> k
  | Some v => result_id v = k /\ first_best occs v
  end.
Proof.
  induction occs as [| t occs IH] using rev_ind; [intros t [] |].
  rewrite best_for_snoc. destruct (result_id t =? k) eqn:E.
  - apply Z.eqb_eq in E.
    destruct (best_for k occs None) as [v |]; cbn [keep_best].
    + destruct IH as [Hv Hb].
      destruct (Qltb (hybrid_score v) (hybrid_score t)) eqn:L.
      * apply Qltb_lt in L. split; [exact E |].
        exists occs, []. split; [reflexivity |]. split; [| intros t' []].
        intros t' Hin Hid. eapply Qle_lt_trans; [| exact L].
        apply (first_best_bound occs v t' Hb Hin). congruence.
      * apply Qltb_ge in L. split; [exact Hv |].
        apply first_best_snoc_other; [exact Hb | intros _; exact L].
    + split; [exact E |].
      exists occs, []. split; [reflexivity |]. split; [| intros t' []].
      intros t' Hin Hid. exfalso. apply (IH t' Hin). congruence.
  - apply Z.eqb_neq in E. destruct (best_for k occs None) as [v |].
    + destruct IH as [Hv Hb]. split; [exact Hv |].
      apply first_best_snoc_other; [exact Hb | intros Hid; congruence].
    + intros t' Hin. apply in_app_or in Hin as [Hin | [<- | []]]; auto.
Qed.

Lemma merge_results_tagged (q : pystr) (results : list RetrievalResult) :
  forall d,
  merge_results q d results = fold_left merge_tagged (map (tag q) results) d.
Proof.
  unfold merge_results. induction results as [| r rs IH]; intros d;
    cbn [fold_left map]; [reflexivity |].
  rewrite IH, merge_result_tagged. reflexivity.
Qed.

Lemma fan_out_ok (retriever : Retriever) (k : Z) (qs : list pystr) :
  all_retrieved retriever k qs ->
  forall d,
    fan_out retriever k qs d
    = Ok (fold_left merge_tagged (tagged_occurrences retriever k qs) d).
Proof.
  unfold all_retrieved, tagged_occurrences.
  induction qs as [| q qs IH]; intros Hall d; cbn [fan_out flat_map];
    [reflexivity |].
  destruct (Hall q (or_introl eq_refl)) as [rs E]. rewrite E.
  rewrite fold_left_app, <- merge_results_tagged.
  apply IH. intros q' Hq'. apply Hall. now right.
Qed.

Lemma tagged_occurrences_In (retriever : Retriever) (k : Z) (qs : list pystr)
    (t : RetrievalResult) :
  In t (tagged_occurrences retriever k qs)
  <-> exists q results r,
        In q qs /\ retriever q k = Ok results /\ In r results /\ t = tag q r.
Proof.
  unfold tagged_occurrences. rewrite in_flat_map. split.
  - intros (q & Hq & Hin). destruct (retriever q k) as [rs | e] eqn:E;
      [| contradiction].
    apply in_map_iff in Hin as (r & <- & Hr). exists q, rs, r. auto.
  - intros (q & rs & r & Hq & E & Hr & ->). exists q. split; [exact Hq |].
    rewrite E. apply in_map. exact Hr.
Qed.

(** What the merge returns when every retrieval succeeds. *)
Lemma merge_expanded_spec (retriever : Retriever) (k : Z) (qs : list pystr) :
  all_retrieved retriever k qs ->
  exists out,
    merge_expanded retriever k qs = Ok out
    /\ NoDup (map result_id out)
    /\ (forall v, In v out -> first_best (tagged_occurrences retriever k qs) v)
    /\ (forall t, In t (tagged_occurrences retriever k qs) ->
                  exists v, In v out /\ result_id v = result_id t)
    /\ descending out.
Proof.
  intros Hall. unfold merge_expanded. rewrite (fan_out_ok retriever k qs Hall).
  set (occs := tagged_occurrences retriever k qs).
  set (d := fold_left merge_tagged occs []).
  assert (Hn : NoDup (map fst d)) by (apply merge_fold_NoDup; constructor).
  assert (Hk : Forall (fun kv => fst kv = result_id (snd kv)) d)
    by (apply merge_fold_keys; constructor).
  assert (Hids : map result_id (dict_values d) = map fst d).
  { unfold dict_values. rewrite map_map. symmetry. apply map_ext_in.
    intros kv Hkv. rewrite Forall_forall in Hk. apply Hk. exact Hkv. }
  assert (Hget : forall key, dict_get d key = best_for key occs None)
    by (intros key; apply merge_fold_get).
  eexists. split; [reflexivity |]. split; [| split; [| split]].
  - eapply Permutation_NoDup;
      [apply Permutation_map; symmetry; apply sort_desc_perm |].
    rewrite Hids. exact Hn.
  - intros v Hv. apply sort_desc_In in Hv. unfold dict_values in Hv.
    apply in_map_iff in Hv as ([key v'] & Ev & Hin). cbn [snd] in Ev. subst v'.
    apply dict_get_In in Hin; [| exact Hn]. rewrite Hget in Hin.
    pose proof (best_for_spec key occs) as Hs. rewrite Hin in Hs. apply Hs.
  - intros t Ht. pose proof (best_for_spec (result_id t) occs) as Hs.
    destruct (best_for (result_id t) occs None) as [v |] eqn:E.
    + exists v. split; [| apply Hs].
      apply sort_desc_In. unfold dict_values.
      change v with (snd (result_id t, v)). apply in_map.
      apply dict_get_In; [exact Hn |]. rewrite Hget. exact E.
    + exfalso. apply (Hs t Ht). reflexivity.
  - apply sort_desc_sorted.
Qed.

(** C2: when every per-paraphrase retrieval returns,
    [retrieve_with_expansion] returns at most one result per chunk id; each
    retained result is an occurrence whose [source_query] is the paraphrase
    that produced it, and no occurrence of the same chunk id under any
    paraphrase has a higher hybrid score; every chunk id that occurs is
    retained; the output is sorted descending by hybrid score. *)
Theorem retrieve_with_expansion_keeps_best (self : SemanticQueryExpander)
    (query : pystr) (retriever : Retriever) (num_expansions top_k_per_query : Z) :
  let expanded := expand_query self query num_expansions in
  all_retrieved retriever top_k_per_query expanded ->
  exists out,
    retrieve_with_expansion self query retriever num_expansions top_k_per_query
    = Ok out
    /\ NoDup (map result_id out)
    /\ (forall e, In e out ->
          exists q results r,
            In q expanded /\ retriever q top_k_per_query = Ok results
            /\ In r results /\ e = tag q r
            /\ source_query e = Some q
            /\ chunk e = chunk r /\ hybrid_score e = hybrid_score r)
    /\ (forall e q results r,
          In e out -> In q expanded ->
          retriever q top_k_per_query = Ok results -> In r results ->
          result_id r = result_id e ->
          (hybrid_score r <= hybrid_score e)%Q)
    /\ (forall q results r,
          In q expanded -> retriever q top_k_per_query = Ok results ->
          In r results ->
          exists e, In e out /\ result_id e = result_id r)
    /\ descending out.
Proof.
  cbv zeta. intros Hall. unfold retrieve_with_expansion.
  destruct (merge_expanded_spec retriever top_k_per_query _ Hall)
    as (out & E & Hn & Hb & Hc & Hs).
  exists out. split; [exact E |]. split; [exact Hn |].
  split; [| split; [| split]]; [| | | exact Hs].
  - intros e He.
    destruct (proj1 (tagged_occurrences_In _ _ _ _)
                (first_best_In _ _ (Hb e He)))
      as (q & results & r & Hq & Hr & Hin & ->).
    exists q, results, r. repeat split; assumption.
  - intros e q results r He Hq Hr Hin Hid.
    change (hybrid_score r) with (hybrid_score (tag q r)).
    apply (first_best_bound _ e (tag q r) (Hb e He)); [| exact Hid].
    apply tagged_occurrences_In. exists q, results, r. auto.
  - intros q results r Hq Hr Hin.
    apply (Hc (tag q r)). apply tagged_occurrences_In.
    exists q, results, r. auto.
Qed.

Lemma retrieve_with_expansion_keeps_best_witness :
  all_retrieved two_hits_retriever 5 (expand_query ab_expander qa 5)
  /\ exists out,
       retrieve_with_expansion ab_expander qa two_hits_retriever 5 5 = Ok out
       /\ out = [tag qb (hit 0 (3 # 4)); tag qa (hit 1 (1 # 3))]
       /\ NoDup (map result_id out) /\ descending out
       /\ forall e, In e out ->
            exists q, In q (expand_query ab_expander qa 5)
                      /\ source_query e = Some q.
Proof.
  assert (Hall : all_retrieved two_hits_retriever 5
                   (expand_query ab_expander qa 5)).
  { intros q _. unfold two_hits_retriever.
    destruct (pystr_eqb q qa); eexists; reflexivity. }
  split; [exact Hall |].
  destruct (retrieve_with_expansion_keeps_best ab_expander qa
              two_hits_retriever 5 5 Hall)
    as (out & E & Hn & Htag & _ & _ & Hs).
  exists out. split; [exact E |]. split.
  - assert (E' : retrieve_with_expansion ab_expander qa two_hits_retriever 5 5
                 = Ok [tag qb (hit 0 (3 # 4)); tag qa (hit 1 (1 # 3))])
      by (vm_compute; reflexivity).
    rewrite E in E'. inversion E'. reflexivity.
  - split; [exact Hn |]. split; [exact Hs |].
    intros e He.
    destruct (Htag e He) as (q & results & r & Hq & _ & _ & _ & Hsrc & _).
    exists q. split; assumption.
Defined.

(** C10: a result whose chunk id is already in the dictionary with an equal
    hybrid score leaves the dictionary as it is; and every result that
    [retrieve_with_expansion] returns is, among all occurrences of its chunk
    id in processing order, the first one with the highest score, tag
    included. *)
Theorem merge_keeps_earlier_on_ties :
  (forall q d r kept,
      dict_get d (result_id r) = Some kept ->
      (hybrid_score r == hybrid_score kept)%Q ->
      merge_result q d r = d)
  /\ (forall self query retriever num_expansions top_k_per_query,
        all_retrieved retriever top_k_per_query
          (expand_query self query num_expansions) ->
        exists out,
          retrieve_with_expansion self query retriever num_expansions
            top_k_per_query = Ok out
          /\ forall e, In e out ->
               first_best
                 (tagged_occurrences retriever top_k_per_query
                    (expand_query self query num_expansions)) e).
Proof.
  split.
  - intros q d r kept Hget Heq. unfold merge_result.
    fold (result_id r). rewrite Hget.
    replace (Qltb (hybrid_score kept) (hybrid_score r)) with false;
      [reflexivity |].
    symmetry. apply Qltb_ge. rewrite Heq. apply Qle_refl.
  - intros self query retriever n k Hall. unfold retrieve_with_expansion.
    destruct (merge_expanded_spec retriever k _ Hall)
      as (out & E & _ & Hb & _).
    exists out. split; [exact E | exact Hb].
Qed.

Lemma merge_keeps_earlier_on_ties_witness :
  all_retrieved tie_retriever 5 (expand_query ab_expander qa 5)
  /\ retrieve_with_expansion ab_expander qa tie_retriever 5 5
     = Ok [tag qa (hit 0 (1 # 2))]
  /\ first_best (tagged_occurrences tie_retriever 5 (expand_query ab_expander qa 5))
       (tag qa (hit 0 (1 # 2))).
Proof.
  assert (Hall : all_retrieved tie_retriever 5 (expand_query ab_expander qa 5))
    by (intros q _; eexists; reflexivity).
  split; [exact Hall |].
  destruct (proj2 merge_keeps_earlier_on_ties ab_expander qa tie_retriever 5 5
              Hall) as (out & E & Hb).
  assert (E' : retrieve_with_expansion ab_expander qa tie_retriever 5 5
               = Ok [tag qa (hit 0 (1 # 2))]) by (vm_compute; reflexivity).
  split; [exact E' |].
  apply Hb. rewrite E' in E. inversion E. now left.
Defined.

Lemma fan_out_raises (retriever : Retriever) (k : Z) (qs1 : list pystr)
    (q : pystr) (qs2 : list pystr) (e : Error) :
  all_retrieved retriever k qs1 -> retriever q k = Raise e ->
  forall d, fan_out retriever k (qs1 ++ q :: qs2) d = Raise e.
Proof.
  intros Hall Hq. induction qs1 as [| q1 qs1 IH]; intros d;
    cbn [app fan_out].
  - rewrite Hq. reflexivity.
  - destruct (Hall q1 (or_introl eq_refl)) as [rs E]. rewrite E.
    apply IH. intros q' Hq'. apply Hall. now right.
Qed.

(** C7 (as stated) fails: with the paraphrases ["a"], ["b"] and a retriever
    that answers ["a"] and raises on ["b"], [retrieve_with_expansion] raises
    and returns no merged output, although ["a"] had a result. *)
Lemma retrieve_with_expansion_aborts :
  expand_query ab_expander qa 5 = [qa; qb]
  /\ flaky_retriever qa 5 = Ok [hit 0 (1 # 2)]
  /\ flaky_retriever qb 5 = Raise ExternalServiceFailure
  /\ retrieve_with_expansion ab_expander qa flaky_retriever 5 5
     = Raise ExternalServiceFailure
  /\ ~ (exists out,
          retrieve_with_expansion ab_expander qa flaky_retriever 5 5 = Ok out
          /\ exists e, In e out /\ result_id e = 0).
Proof.
  repeat split; try (vm_compute; reflexivity).
  intros (out & E & _). vm_compute in E. discriminate.
Qed.

(** C7 (as amended): a failure of [retriever.retrieve] for a paraphrase is
    not caught.  When the paraphrases before it were retrieved,
    [retrieve_with_expansion] raises that failure and returns no merged
    output. *)
Theorem retrieve_with_expansion_propagates_failure
    (self : SemanticQueryExpander) (query : pystr) (retriever : Retriever)
    (num_expansions top_k_per_query : Z)
    (before : list pystr) (failing : pystr) (after : list pystr) (e : Error) :
  expand_query self query num_expansions = before ++ failing :: after ->
  all_retrieved retriever top_k_per_query before ->
  retriever failing top_k_per_query = Raise e ->
  retrieve_with_expansion self query retriever num_expansions top_k_per_query
  = Raise e.
Proof.
  intros Hexp Hall Hfail. unfold retrieve_with_expansion, merge_expanded.
  rewrite Hexp, (fan_out_raises retriever top_k_per_query before failing after
                   e Hall Hfail).
  reflexivity.
Qed.

Lemma retrieve_with_expansion_propagates_failure_witness :
  expand_query ab_expander qa 5 = [qa] ++ qb :: []
  /\ all_retrieved flaky_retriever 5 [qa]
  /\ flaky_retriever qb 5 = Raise ExternalServiceFailure
  /\ retrieve_with_expansion ab_expander qa flaky_retriever 5 5
     = Raise ExternalServiceFailure.
Proof.
  assert (H1 : expand_query ab_expander qa 5 = [qa] ++ qb :: [])
    by (vm_compute; reflexivity).
  assert (H2 : all_retrieved flaky_retriever 5 [qa]).
  { intros q [<- | []]. eexists. reflexivity. }
  assert (H3 : flaky_retriever qb 5 = Raise ExternalServiceFailure)
    by reflexivity.
  split; [exact H1 |]. split; [exact H2 |]. split; [exact H3 |].
  exact (retrieve_with_expansion_propagates_failure ab_expander qa
           flaky_retriever 5 5 [qa] qb [] ExternalServiceFailure H1 H2 H3).
Defined.

(** A descending list without repetitions whose scores are pairwise
    different is strictly descending. *)
Lemma descending_strict (l : list RetrievalResult) :
  descending l -> NoDup l ->
  (forall x y, In x l -> In y l ->
               (hybrid_score x == hybrid_score y)%Q -> x = y) ->
  StronglySorted (fun a b => hybrid_score b < hybrid_score a)%Q l.
Proof.
  unfold descending. induction 1 as [| x l Hs IH Hx]; intros Hn Hinj;
    constructor.
  - apply IH.
    + inversion Hn; assumption.
    + intros a b Ha Hb. apply Hinj; now right.
  - rewrite Forall_forall in Hx |- *. intros y Hy.
    destruct (Qlt_le_dec (hybrid_score y) (hybrid_score x)) as [H | H];
      [exact H | exfalso].
    assert (E : x = y).
    { apply Hinj; [now left | now right |].
      apply Qle_antisym; [exact H | apply Hx; exact Hy]. }
    subst y. inversion Hn; contradiction.
Qed.

(** Two strictly descending lists with the same elements are equal. *)
Lemma strictly_descending_unique (l1 : list RetrievalResult) : forall l2,
  StronglySorted (fun a b => hybrid_score b < hybrid_score a)%Q l1 ->
  StronglySorted (fun a b => hybrid_score b < hybrid_score a)%Q l2 ->
  (forall x, In x l1 <-> In x l2) -> l1 = l2.
Proof.
  induction l1 as [| a l1 IH]; intros [| b l2] H1 H2 Hin.
  - reflexivity.
  - exfalso. apply (proj2 (Hin b)). now left.
  - exfalso. apply (proj1 (Hin a)). now left.
  - inversion H1 as [| ? ? Hs1 Ha]; subst. inversion H2 as [| ? ? Hs2 Hb]; subst.
    rewrite Forall_forall in Ha, Hb.
    assert (E : a = b).
    { destruct (proj1 (Hin a) (or_introl eq_refl)) as [E | Hab]; [auto |].
      destruct (proj2 (Hin b) (or_introl eq_refl)) as [E | Hba]; [auto |].
      exfalso. apply (Qlt_irrefl (hybrid_score a)).
      eapply Qlt_trans; [apply Hb, Hab | apply Ha, Hba]. }
    subst b. f_equal. apply IH; [assumption | assumption |].
    intros x. split; intros Hx.
    + destruct (proj1 (Hin x) (or_intror Hx)) as [E | H]; [| exact H].
      subst x. exfalso. apply (Qlt_irrefl (hybrid_score a)). apply Ha, Hx.
    + destruct (proj2 (Hin x) (or_intror Hx)) as [E | H]; [| exact H].
      subst x. exfalso. apply (Qlt_irrefl (hybrid_score a)). apply Hb, Hx.
Qed.

Lemma tagged_occurrences_perm (retriever : Retriever) (k : Z)
    (qs qs' : list pystr) (t : RetrievalResult) :
  Permutation qs qs' ->
  In t (tagged_occurrences retriever k qs) ->
  In t (tagged_occurrences retriever k qs').
Proof.
  intros Hp Ht. apply tagged_occurrences_In in Ht
    as (q & rs & r & Hq & E & Hr & ->).
  apply tagged_occurrences_In. exists q, rs, r.
  split; [eapply Permutation_in; eassumption | auto].
Qed.

(** The merged output of one order is contained in that of another. *)
Lemma merge_expanded_incl (retriever : Retriever) (k : Z)
    (qs qs' : list pystr) (out out' : list RetrievalResult) :
  Permutation qs qs' ->
  all_retrieved retriever k qs -> all_retrieved retriever k qs' ->
  no_ties (tagged_occurrences retriever k qs) ->
  merge_expanded retriever k qs = Ok out ->
  merge_expanded retriever k qs' = Ok out' ->
  forall x, In x out -> In x out'.
Proof.
  intros Hp Hall Hall' Hties E E' x Hx.
  destruct (merge_expanded_spec retriever k qs Hall)
    as (o & Eo & _ & Hb & _ & _).
  destruct (merge_expanded_spec retriever k qs' Hall')
    as (o' & Eo' & _ & Hb' & Hc' & _).
  rewrite E in Eo. rewrite E' in Eo'. inversion Eo; inversion Eo'; subst o o'.
  pose proof (Hb x Hx) as Hfx. pose proof (first_best_In _ _ Hfx) as Hxo.
  destruct (Hc' x (tagged_occurrences_perm retriever k qs qs' x Hp Hxo))
    as (y & Hy & Hid).
  pose proof (Hb' y Hy) as Hfy.
  assert (Hyo : In y (tagged_occurrences retriever k qs)).
  { eapply tagged_occurrences_perm; [symmetry; exact Hp |].
    apply first_best_In. exact Hfy. }
  assert (Exy : x = y).
  { apply Hties; [exact Hxo | exact Hyo |]. apply Qle_antisym.
    - apply (first_best_bound _ y x Hfy); [| congruence].
      eapply tagged_occurrences_perm; eassumption.
    - apply (first_best_bound _ x y Hfx); [exact Hyo | exact Hid]. }
  subst y. exact Hy.
Qed.

(** C9 (as stated) fails: the paraphrases ["a"] and ["b"] both find chunk 0
    with hybrid score 0.5; processed as [a, b] the merged result is tagged
    ["a"], processed as [b, a] it is tagged ["b"]. *)
Lemma merge_order_matters_on_ties :
  Permutation [qa; qb] [qb; qa]
  /\ merge_expanded tie_retriever 5 [qa; qb] = Ok [tag qa (hit 0 (1 # 2))]
  /\ merge_expanded tie_retriever 5 [qb; qa] = Ok [tag qb (hit 0 (1 # 2))]
  /\ merge_expanded tie_retriever 5 [qa; qb]
     <> merge_expanded tie_retriever 5 [qb; qa].
Proof.
  split; [apply perm_swap |].
  split; [vm_compute; reflexivity |]. split; [vm_compute; reflexivity |].
  vm_compute. discriminate.
Qed.

(** C9 (as amended): when every retrieval returns and no two different
    tagged occurrences across the fan-out have the same hybrid score,
    processing the paraphrases in any permuted order yields the identical
    merged sequence. *)
Theorem merge_order_independent_without_ties (retriever : Retriever)
    (top_k_per_query : Z) (expanded_queries permuted : list pystr) :
  Permutation expanded_queries permuted ->
  all_retrieved retriever top_k_per_query expanded_queries ->
  no_ties (tagged_occurrences retriever top_k_per_query expanded_queries) ->
  exists out,
    merge_expanded retriever top_k_per_query expanded_queries = Ok out
    /\ merge_expanded retriever top_k_per_query permuted = Ok out.
Proof.
  intros Hp Hall Hties.
  assert (Hall' : all_retrieved retriever top_k_per_query permuted).
  { intros q Hq. apply Hall. eapply Permutation_in; [symmetry |]; eassumption. }
  assert (Hties' : no_ties (tagged_occurrences retriever top_k_per_query
                              permuted)).
  { intros t1 t2 H1 H2. apply Hties;
      eapply tagged_occurrences_perm; try eassumption; symmetry; exact Hp. }
  destruct (merge_expanded_spec retriever top_k_per_query _ Hall)
    as (out & E & Hn & Hb & _ & Hs).
  destruct (merge_expanded_spec retriever top_k_per_query _ Hall')
    as (out' & E' & Hn' & Hb' & _ & Hs').
  exists out. split; [exact E |]. rewrite E'. f_equal.
  apply strictly_descending_unique.
  - apply descending_strict; [exact Hs' | eapply NoDup_map_inv; exact Hn' |].
    intros x y Hx Hy. apply Hties'; apply first_best_In; auto.
  - apply descending_strict; [exact Hs | eapply NoDup_map_inv; exact Hn |].
    intros x y Hx Hy. apply Hties; apply first_best_In; auto.
  - intros x. split.
    + apply (merge_expanded_incl retriever top_k_per_query permuted
               expanded_queries out' out); auto. symmetry. exact Hp.
    + apply (merge_expanded_incl retriever top_k_per_query expanded_queries
               permuted out out'); auto.
Qed.

Lemma merge_order_independent_without_ties_witness :
  Permutation [qa; qb] [qb; qa]
  /\ all_retrieved two_hits_retriever 5 [qa; qb]
  /\ no_ties (tagged_occurrences two_hits_retriever 5 [qa; qb])
  /\ exists out,
       merge_expanded two_hits_retriever 5 [qa; qb] = Ok out
       /\ merge_expanded two_hits_retriever 5 [qb; qa] = Ok out.
Proof.
  assert (H1 : Permutation [qa; qb] [qb; qa]) by apply perm_swap.
  assert (H2 : all_retrieved two_hits_retriever 5 [qa; qb]).
  { intros q [<- | [<- | []]]; eexists; reflexivity. }
  assert (H3 : no_ties (tagged_occurrences two_hits_retriever 5 [qa; qb])).
  { intros t1 t2 Ht1 Ht2 E. vm_compute in Ht1, Ht2.
    destruct Ht1 as [<- | [<- | [<- | []]]];
      destruct Ht2 as [<- | [<- | [<- | []]]];
      try reflexivity; vm_compute in E; discriminate. }
  split; [exact H1 |]. split; [exact H2 |]. split; [exact H3 |].
  exact (merge_order_independent_without_ties two_hits_retriever 5
           [qa; qb] [qb; qa] H1 H2 H3).
Defined.

(* ================================================================== *)
(** * The model on the scenarios of the specification *)
(* ================================================================== *)

(** [chunk_size=500, overlap=100] on a text of 1200 characters without a
    sentence boundary: three chunks that start at 0, 400 and 800; the last
    one records [end_pos = 1300]. *)
Example create_chunks_1200 :
  option_map (map (fun c => (c_id c, start_pos c, end_pos c, c_length c)))
    (create_chunks 4 default_processor (repeat 98%N 1200))
  = Some [(0, 0, 500, 500); (1, 400, 900, 500); (2, 800, 1300, 400)].
Proof. vm_compute. reflexivity. Qed.

(** A text shorter than [chunk_size] yields exactly one chunk. *)
Example create_chunks_short_text :
  option_map (map (fun c => (c_id c, c_text c, start_pos c)))
    (create_chunks 1 default_processor hello)
  = Some [(0, hello, 0)].
Proof. vm_compute. reflexivity. Qed.

(** The sample index: chunk 1 scores 0.93, chunks 0 and 2 both score 0.65
    and keep their chunk order; a negative [top_k] drops entries from the
    end. *)
Example retrieve_sample_ranking :
  match retrieve sample_retriever sample_query 10 with
  | Ok out => map result_id out = [1; 0; 2]
  | Raise _ => False
  end
  /\ match retrieve sample_retriever sample_query (-1) with
     | Ok out => map result_id out = [1; 0]
     | Raise _ => False
     end.
Proof. split; vm_compute; reflexivity. Qed.

(** A threshold that no chunk clears gives the empty list, not an error. *)
Example retrieve_nothing_above_threshold :
  retrieve
    (mkHybridRetriever (7 # 10) (3 # 10) (99 # 100) sample_chunks
       (Some sample_cosine) (Some sample_bm25))
    sample_query 10
  = Ok [].
Proof. vm_compute. reflexivity. Qed.

(** Cleaning of the service answer
    ["1. foo bar\n  - baz \n\n* foo bar\n3)"]: markers stripped, empty lines
    dropped, the repeated suggestion kept once. *)
Example expand_query_cleans_markers :
  expand_query
    (mkSemanticQueryExpander
       (fun _ _ =>
          ServiceContent
            (of_string "1. foo bar" ++ [10%N] ++ of_string "  - baz "
             ++ [10; 10]%N ++ of_string "* foo bar" ++ [10%N]
             ++ of_string "3)")))
    qa 5
  = [qa; of_string "foo bar"; of_string "baz"].
Proof. vm_compute. reflexivity. Qed.

(** Two paraphrases that find chunk 0 with different scores: the higher
    score wins and brings its paraphrase as [source_query]. *)
Example merge_higher_score_wins :
  merge_expanded two_hits_retriever 5 [qa; qb]
  = Ok [tag qb (hit 0 (3 # 4)); tag qa (hit 1 (1 # 3))].
Proof. vm_compute. reflexivity. Qed.

(* ================================================================== *)
(** * More on normalisation and [retrieve] *)
(* ================================================================== *)

Lemma nth_map_lt {A B : Type} (f : A -> B) (l : list A) (d : B) (d' : A)
    (i : nat) :
  (i < List.length l)%nat -> nth i (map f l) d = f (nth i l d').
Proof.
  intros Hi. rewrite (nth_indep _ d (f d')) by (rewrite length_map; exact Hi).
  apply map_nth.
Qed.

Section Binary64Order.

Import Binary64.

(** X1: normalisation in binary64 never inverts the order of the scores.
    For finite scores whose spread [max - min] does not overflow, the
    result has the length of the input and only finite entries; whenever
    the score at index [i] is at most the score at index [j], so are the
    normalised scores; and when the guard does not fire, some normalised
    score is 0 (that of the minimum) and some is 1 (that of the
    maximum). *)
Theorem normalize_scores_monotone (first : binary64) (rest : list binary64) :
  let scores := first :: rest in
  let min_score := np_min first rest in
  let max_score := np_max first rest in
  let spread := fsub max_score min_score in
  let normalized := _normalize_scores scores in
  Forall finite scores -> finite spread ->
  List.length normalized = List.length scores
  /\ Forall finite normalized
  /\ (forall i j,
        (i < List.length scores)%nat -> (j < List.length scores)%nat ->
        (value (nth i scores NaN) <= value (nth j scores NaN))%Q ->
        (value (nth i normalized NaN) <= value (nth j normalized NaN))%Q)
  /\ (flt spread epsilon = false ->
      (exists x, In x normalized /\ (value x == 0)%Q)
      /\ (exists y, In y normalized /\ (value y == 1)%Q)).
Proof.
  cbv zeta. intros Hfin Hspread.
  destruct (np_min_spec rest first Hfin) as [Hmin Hlo].
  destruct (np_max_spec rest first Hfin) as [Hmax Hhi].
  rewrite Forall_forall in Hfin, Hlo, Hhi.
  unfold _normalize_scores.
  set (lo := np_min first rest) in *. set (hi := np_max first rest) in *.
  assert (Hlohi : (value lo <= value hi)%Q) by (apply Hlo; exact Hmax).
  destruct (flt (fsub hi lo) epsilon) eqn:E; set (scores := first :: rest) in *.
  - split; [apply length_map |]. split; [| split].
    + rewrite Forall_forall. intros x Hx. apply in_map_iff in Hx.
      destruct Hx as (s & <- & _). exact I.
    + intros i j Hi Hj _.
      rewrite (nth_map_lt _ scores NaN NaN i Hi),
              (nth_map_lt _ scores NaN NaN j Hj).
      apply Qle_refl.
    + discriminate.
  - set (f := fun s => fdiv (fsub s lo) (fsub hi lo)).
    assert (Hentry : forall s, In s scores ->
              finite (f s)
              /\ (value (f s)
                  == quotient (value s - value lo) (value hi - value lo))%Q
              /\ (0 < nearest (value hi - value lo))%Q).
    { intros s Hs.
      exact (normalized_entry s lo hi (Hfin s Hs) (Hfin _ Hmin) (Hfin _ Hmax)
               (conj (Hlo s Hs) (Hhi s Hs)) Hspread E). }
    split; [apply length_map |]. split; [| split].
    + rewrite Forall_forall. intros x Hx. apply in_map_iff in Hx.
      destruct Hx as (s & <- & Hs). apply Hentry. exact Hs.
    + intros i j Hi Hj Hle.
      rewrite (nth_map_lt f scores NaN NaN i Hi),
              (nth_map_lt f scores NaN NaN j Hj).
      assert (Hsi : In (nth i scores NaN) scores) by (apply nth_In; exact Hi).
      assert (Hsj : In (nth j scores NaN) scores) by (apply nth_In; exact Hj).
      destruct (Hentry _ Hsi) as (_ & -> & Hpos).
      destruct (Hentry _ Hsj) as (_ & -> & _).
      pose proof (Hlo _ Hsi).
      apply quotient_mono; [lra | lra | exact Hpos].
    + intros _. split.
      * exists (f lo). split; [apply in_map; exact Hmin |].
        destruct (Hentry _ Hmin) as (_ & -> & _).
        apply quotient_zero. ring.
      * exists (f hi). split; [apply in_map; exact Hmax |].
        destruct (Hentry _ Hmax) as (_ & -> & Hpos).
        apply quotient_one; [lra | reflexivity | exact Hpos].
Qed.

Lemma normalize_scores_monotone_witness :
  Forall finite [literal (1 # 10); literal (2 # 10); literal (3 # 10)]
  /\ finite (fsub (np_max (literal (1 # 10)) [literal (2 # 10); literal (3 # 10)])
                  (np_min (literal (1 # 10)) [literal (2 # 10); literal (3 # 10)]))
  /\ Forall finite
       (_normalize_scores [literal (1 # 10); literal (2 # 10); literal (3 # 10)]).
Proof.
  assert (H1 : Forall finite
                 [literal (1 # 10); literal (2 # 10); literal (3 # 10)])
    by (repeat (apply Forall_cons; [vm_compute; exact I |]); apply Forall_nil).
  assert (H2 : finite (fsub (np_max (literal (1 # 10))
                               [literal (2 # 10); literal (3 # 10)])
                            (np_min (literal (1 # 10))
                               [literal (2 # 10); literal (3 # 10)])))
    by (vm_compute; exact I).
  split; [exact H1 |]. split; [exact H2 |].
  exact (proj1 (proj2 (normalize_scores_monotone (literal (1 # 10))
                         [literal (2 # 10); literal (3 # 10)] H1 H2))).
Defined.

End Binary64Order.

Lemma py_prefix_is_firstn {A : Type} (l : list A) (k : Z) :
  py_prefix l k = firstn (Z.to_nat (norm_index (len l) k)) l.
Proof.
  unfold py_prefix, py_slice. pose proof (len_nonneg l).
  replace (norm_index (len l) 0) with 0
    by (unfold norm_index; cbn [Z.ltb Z.compare]; lia).
  cbn [Z.to_nat skipn]. rewrite Z.sub_0_r. reflexivity.
Qed.

Lemma retrieve_indexed (self : HybridRetriever) (query : pystr)
    (cosine_of : pystr -> Result (list Q)) (bm25_of : pystr -> list Q)
    (cosine_scores : list Q) (top_k : Z) :
  indexed_for self query cosine_of bm25_of cosine_scores ->
  retrieve self query top_k
  = Ok (py_prefix
          (sort_desc hybrid_score
             (filter (clears (threshold self))
                (candidates_of self bm25_of query cosine_scores)))
          top_k).
Proof.
  intros (Hne & He & Hb & Hcos & Hl1 & Hl2).
  destruct self as [cw bw th chunk_list emb bm].
  cbn [chunks chunk_embeddings bm25 threshold] in *. subst emb bm.
  apply retrieve_built; assumption.
Qed.

Lemma candidates_fields (chunk_list : list Chunk) :
  forall hybrid cosine bm25n,
  Forall (fun r => (exists i, nth_error chunk_list i = Some (chunk r)
                              /\ nth_error cosine i = Some (cosine_score r))
                   /\ text r = c_text (chunk r)
                   /\ source_query r = None)
    (candidates chunk_list hybrid cosine bm25n).
Proof.
  induction chunk_list as [| c cs IH]; intros [| h hs] [| co cos] [| b bs];
    cbn [candidates]; try constructor.
  - cbn [chunk cosine_score text source_query].
    split; [exists 0%nat; split; reflexivity | split; reflexivity].
  - eapply Forall_impl; [| apply IH]. cbn beta.
    intros r ((i & H1 & H2) & H3 & H4).
    split; [exists (S i); split; assumption | split; assumption].
Qed.

(** X2: every result that [retrieve] returns belongs to one position of the
    index: for some [i] its chunk is the [i]-th indexed chunk and its
    [cosine_score] is the [i]-th cosine similarity of the query.  Its
    [text] repeats the chunk's text, its hybrid score is at least the
    threshold, and no [source_query] is set. *)
Theorem retrieve_results_consistent (self : HybridRetriever) (query : pystr)
    (cosine_of : pystr -> Result (list Q)) (bm25_of : pystr -> list Q)
    (cosine_scores : list Q) (top_k : Z) :
  indexed_for self query cosine_of bm25_of cosine_scores ->
  exists out,
    retrieve self query top_k = Ok out
    /\ Forall (fun r =>
                 (exists i,
                     nth_error (chunks self) i = Some (chunk r)
                     /\ nth_error cosine_scores i = Some (cosine_score r))
                 /\ text r = c_text (chunk r)
                 /\ (threshold self <= hybrid_score r)%Q
                 /\ source_query r = None) out.
Proof.
  intros Hidx. rewrite (retrieve_indexed _ _ _ _ _ top_k Hidx).
  eexists. split; [reflexivity |].
  rewrite py_prefix_is_firstn, Forall_forall. intros r Hr.
  apply In_firstn, sort_desc_In, filter_In in Hr as [Hr Hc].
  unfold candidates_of in Hr.
  pose proof (candidates_fields (chunks self)
                (hybrid_scores (cosine_weight self) (bm25_weight self)
                   cosine_scores (_normalize_scores (bm25_of query)))
                cosine_scores (_normalize_scores (bm25_of query))) as Hf.
  rewrite Forall_forall in Hf. destruct (Hf r Hr) as (H1 & H2 & H3).
  split; [exact H1 |]. split; [exact H2 |].
  split; [apply Qleb_le; exact Hc | exact H3].
Qed.

Lemma sample_indexed :
  indexed_for sample_retriever sample_query sample_cosine sample_bm25
    [1 # 2; 9 # 10; 1 # 2]%Q.
Proof. repeat split. discriminate. Qed.

Lemma retrieve_results_consistent_witness :
  indexed_for sample_retriever sample_query sample_cosine sample_bm25
    [1 # 2; 9 # 10; 1 # 2]%Q
  /\ exists out,
       retrieve sample_retriever sample_query 10 = Ok out
       /\ Forall (fun r => text r = c_text (chunk r)) out.
Proof.
  split; [exact sample_indexed |].
  destruct (retrieve_results_consistent sample_retriever sample_query
              sample_cosine sample_bm25 _ 10 sample_indexed) as (out & E & H).
  exists out. split; [exact E |].
  eapply Forall_impl; [| exact H]. cbn. tauto.
Defined.

(* ================================================================== *)
(** * How [retrieve] answers when the threshold or [top_k] changes *)
(* ================================================================== *)

Lemma insert_desc_front {A : Type} (key : A -> Q) (x : A) (l : list A) :
  Forall (fun z => key z <= key x)%Q l -> insert_desc key x l = x :: l.
Proof.
  intros H. destruct l as [| y l]; [reflexivity |]. cbn [insert_desc].
  inversion H as [| ? ? Hy _]; subst. apply Qltb_ge in Hy. rewrite Hy.
  reflexivity.
Qed.

Lemma filter_insert_desc {A : Type} (key : A -> Q) (p : A -> bool) (x : A)
    (l : list A) :
  StronglySorted (fun a b => key b <= key a)%Q l ->
  filter p (insert_desc key x l)
  = if p x then insert_desc key x (filter p l) else filter p l.
Proof.
  induction 1 as [| y l Hs IH Hy]; cbn [insert_desc filter].
  - destruct (p x); reflexivity.
  - destruct (Qltb (key x) (key y)) eqn:E; cbn [filter].
    + rewrite IH. destruct (p x), (p y); cbn [insert_desc]; rewrite ?E;
        reflexivity.
    + apply Qltb_ge in E. destruct (p x) eqn:Px; [| reflexivity].
      symmetry. apply insert_desc_front.
      assert (Hall : Forall (fun z => key z <= key x)%Q (y :: l)).
      { constructor; [exact E |]. eapply Forall_impl; [| exact Hy]. cbn.
        intros z Hz. eapply Qle_trans; eassumption. }
      rewrite Forall_forall in Hall |- *. intros z Hz. apply Hall.
      change (In z (filter p (y :: l))) in Hz. apply filter_In in Hz. tauto.
Qed.

(** Filtering commutes with the stable sort. *)
Lemma filter_sort_desc {A : Type} (key : A -> Q) (p : A -> bool) (l : list A) :
  filter p (sort_desc key l) = sort_desc key (filter p l).
Proof.
  induction l as [| x l IH]; cbn [sort_desc fold_right filter]; [reflexivity |].
  fold (sort_desc key l).
  rewrite filter_insert_desc by apply sort_desc_sorted. rewrite IH.
  destruct (p x); reflexivity.
Qed.

Lemma filter_filter_stricter {A : Type} (p q : A -> bool) (l : list A) :
  (forall x, q x = true -> p x = true) ->
  filter q (filter p l) = filter q l.
Proof.
  intros H. induction l as [| x l IH]; cbn [filter]; [reflexivity |].
  destruct (p x) eqn:Px; cbn [filter]; rewrite IH; [reflexivity |].
  destruct (q x) eqn:Qx; [| reflexivity].
  apply H in Qx. congruence.
Qed.

(** On a list in descending order the entries that clear a threshold form a
    prefix. *)
Lemma filter_clears_prefix (th : Q) (l : list RetrievalResult) :
  descending l ->
  filter (clears th) l = firstn (List.length (filter (clears th) l)) l.
Proof.
  unfold descending. induction 1 as [| x l Hs IH Hx]; cbn [filter];
    [reflexivity |].
  destruct (clears th x) eqn:E.
  - cbn [List.length firstn]. f_equal. exact IH.
  - rewrite filter_none; [reflexivity |].
    eapply Forall_impl; [| exact Hx]. cbn. intros y Hy.
    unfold clears in *. apply not_true_iff_false. rewrite Qleb_le.
    apply not_true_iff_false in E. rewrite Qleb_le in E.
    intros H. apply E. eapply Qle_trans; eassumption.
Qed.

Lemma filter_length_le {A : Type} (p : A -> bool) (l : list A) :
  (List.length (filter p l) <= List.length l)%nat.
Proof.
  induction l as [| x l IH]; cbn [filter List.length]; [lia |].
  destruct (p x); cbn [List.length]; lia.
Qed.

Lemma norm_index_mono (n m k : Z) : 0 <= n <= m ->
  norm_index n k <= norm_index m k /\ 0 <= norm_index n k <= n.
Proof.
  intros H. unfold norm_index.
  destruct (k <? 0) eqn:E; [apply Z.ltb_lt in E | apply Z.ltb_ge in E]; lia.
Qed.

(** X3: raising the threshold can only cut the answer short: for the same
    index, query and [top_k], the result under a higher threshold is a
    prefix of the result under the lower one (so it is never longer and
    never reorders or introduces entries). *)
Theorem retrieve_higher_threshold_prefix (self : HybridRetriever)
    (query : pystr) (cosine_of : pystr -> Result (list Q))
    (bm25_of : pystr -> list Q) (cosine_scores : list Q) (top_k : Z)
    (higher : Q) :
  indexed_for self query cosine_of bm25_of cosine_scores ->
  (threshold self <= higher)%Q ->
  exists out out' n,
    retrieve self query top_k = Ok out
    /\ retrieve (with_threshold self higher) query top_k = Ok out'
    /\ out' = firstn n out.
Proof.
  intros Hidx Hth.
  assert (Hidx' : indexed_for (with_threshold self higher) query cosine_of
                    bm25_of cosine_scores) by exact Hidx.
  rewrite (retrieve_indexed _ _ _ _ _ top_k Hidx),
          (retrieve_indexed _ _ _ _ _ top_k Hidx').
  change (candidates_of (with_threshold self higher) bm25_of query cosine_scores)
    with (candidates_of self bm25_of query cosine_scores).
  change (threshold (with_threshold self higher)) with higher.
  set (cands := candidates_of self bm25_of query cosine_scores).
  set (S := sort_desc hybrid_score (filter (clears (threshold self)) cands)).
  set (S' := sort_desc hybrid_score (filter (clears higher) cands)).
  assert (HS : S' = firstn (List.length S') S).
  { unfold S', S.
    rewrite <- (filter_filter_stricter (clears (threshold self))
                  (clears higher) cands).
    - rewrite <- filter_sort_desc. apply filter_clears_prefix.
      apply sort_desc_sorted.
    - intros x Hx. unfold clears in *. apply Qleb_le. apply Qleb_le in Hx.
      eapply Qle_trans; eassumption. }
  assert (Hlen : (List.length S' <= List.length S)%nat).
  { rewrite HS at 1. rewrite length_firstn. lia. }
  do 2 eexists. exists (Z.to_nat (norm_index (len S') top_k)).
  split; [reflexivity |]. split; [reflexivity |].
  rewrite !py_prefix_is_firstn.
  destruct (norm_index_mono (len S') (len S) top_k) as (Hm & Hn0 & Hn1);
    [unfold len; lia |].
  rewrite firstn_firstn, Nat.min_l by lia.
  assert (Ha : (Z.to_nat (norm_index (len S') top_k) <= List.length S')%nat)
    by (unfold len in *; lia).
  set (a := Z.to_nat (norm_index (len S') top_k)) in *.
  rewrite HS, firstn_firstn, Nat.min_l by exact Ha.
  reflexivity.
Qed.

Lemma retrieve_higher_threshold_prefix_witness :
  indexed_for sample_retriever sample_query sample_cosine sample_bm25
    [1 # 2; 9 # 10; 1 # 2]%Q
  /\ (threshold sample_retriever <= 7 # 10)%Q
  /\ exists out out' n,
       retrieve sample_retriever sample_query 10 = Ok out
       /\ retrieve (with_threshold sample_retriever (7 # 10)) sample_query 10
          = Ok out'
       /\ out' = firstn n out.
Proof.
  assert (H : (threshold sample_retriever <= 7 # 10)%Q)
    by (vm_compute; discriminate).
  split; [exact sample_indexed |]. split; [exact H |].
  exact (retrieve_higher_threshold_prefix sample_retriever sample_query
           sample_cosine sample_bm25 _ 10 (7 # 10) sample_indexed H).
Defined.

(** X4: asking for fewer results returns the beginning of the longer
    answer: for [0 <= k' <= k], [retrieve(q, k')] is [retrieve(q, k)[:k']]. *)
Theorem retrieve_smaller_top_k_prefix (self : HybridRetriever) (query : pystr)
    (cosine_of : pystr -> Result (list Q)) (bm25_of : pystr -> list Q)
    (cosine_scores : list Q) (k k' : Z) :
  indexed_for self query cosine_of bm25_of cosine_scores ->
  0 <= k' <= k ->
  exists out,
    retrieve self query k = Ok out
    /\ retrieve self query k' = Ok (py_prefix out k').
Proof.
  intros Hidx Hk.
  rewrite (retrieve_indexed _ _ _ _ _ k Hidx),
          (retrieve_indexed _ _ _ _ _ k' Hidx).
  eexists. split; [reflexivity |]. f_equal.
  rewrite !py_prefix_firstn by lia.
  rewrite firstn_firstn, Nat.min_l by lia. reflexivity.
Qed.

Lemma retrieve_smaller_top_k_prefix_witness :
  indexed_for sample_retriever sample_query sample_cosine sample_bm25
    [1 # 2; 9 # 10; 1 # 2]%Q
  /\ 0 <= 1 <= 3
  /\ exists out,
       retrieve sample_retriever sample_query 3 = Ok out
       /\ retrieve sample_retriever sample_query 1 = Ok (py_prefix out 1).
Proof.
  assert (H : 0 <= 1 <= 3) by lia.
  split; [exact sample_indexed |]. split; [exact H |].
  exact (retrieve_smaller_top_k_prefix sample_retriever sample_query
           sample_cosine sample_bm25 _ 3 1 sample_indexed H).
Defined.

(* ================================================================== *)
(** * get_retrieval_stats *)
(* ================================================================== *)

Lemma descending_firstn (n : nat) (l : list RetrievalResult) :
  descending l -> descending (firstn n l).
Proof. apply StronglySorted_firstn. Qed.

(** What [retrieve] returns is in descending order, and every entry is at
    least the threshold. *)
Lemma retrieve_results_shape (self : HybridRetriever) (query : pystr)
    (cosine_of : pystr -> Result (list Q)) (bm25_of : pystr -> list Q)
    (cosine_scores : list Q) (top_k : Z) :
  indexed_for self query cosine_of bm25_of cosine_scores ->
  exists out,
    retrieve self query top_k = Ok out
    /\ descending out
    /\ Forall (fun r => (threshold self <= hybrid_score r)%Q) out.
Proof.
  intros Hidx. rewrite (retrieve_indexed _ _ _ _ _ top_k Hidx).
  eexists. split; [reflexivity |]. rewrite py_prefix_is_firstn. split.
  - apply descending_firstn, sort_desc_sorted.
  - rewrite Forall_forall. intros r Hr.
    apply In_firstn, sort_desc_In, filter_In in Hr as [Hr Hc].
    apply Qleb_le. exact Hc.
Qed.

(** X5: the statistics of what [retrieve] returned, whatever [np.mean]
    computes.  [total_retrieved] is the number of results.  For an empty
    result the three averages are 0 and no [top_score] is reported.
    Otherwise [top_score] is the hybrid score of the first result, which is
    the highest hybrid score among the results and at least the
    threshold. *)
Theorem retrieval_stats_of_retrieve (np_mean : list Q -> Q)
    (self : HybridRetriever) (query : pystr)
    (cosine_of : pystr -> Result (list Q)) (bm25_of : pystr -> list Q)
    (cosine_scores : list Q) (top_k : Z) :
  indexed_for self query cosine_of bm25_of cosine_scores ->
  exists out,
    retrieve self query top_k = Ok out
    /\ total_retrieved (get_retrieval_stats np_mean query out) = len out
    /\ (out = [] ->
        get_retrieval_stats np_mean query out
        = mkRetrievalStats query 0 0 0 0 None)
    /\ (out <> [] ->
        exists first,
          hd_error out = Some first
          /\ top_score (get_retrieval_stats np_mean query out)
             = Some (hybrid_score first)
          /\ (threshold self <= hybrid_score first)%Q
          /\ Forall (fun r => hybrid_score r <= hybrid_score first)%Q out).
Proof.
  intros Hidx.
  destruct (retrieve_results_shape self query cosine_of bm25_of cosine_scores
              top_k Hidx) as (out & E & Hd & Hall).
  exists out. split; [exact E |]. split; [| split].
  - destruct out; reflexivity.
  - intros ->. reflexivity.
  - intros Hne. destruct out as [| first rest]; [congruence |].
    exists first. split; [reflexivity |]. split; [reflexivity |]. split.
    + inversion Hall as [| ? ? Hf _]; subst. exact Hf.
    + constructor; [apply Qle_refl |].
      unfold descending in Hd. inversion Hd; assumption.
Qed.

Lemma retrieval_stats_of_retrieve_witness :
  indexed_for sample_retriever sample_query sample_cosine sample_bm25
    [1 # 2; 9 # 10; 1 # 2]%Q
  /\ exists out,
       retrieve sample_retriever sample_query 10 = Ok out
       /\ total_retrieved
            (get_retrieval_stats (fun l => Qsum l / inject_Z (len l))%Q
               sample_query out)
          = len out.
Proof.
  split; [exact sample_indexed |].
  destruct (retrieval_stats_of_retrieve (fun l => Qsum l / inject_Z (len l))%Q
              sample_retriever sample_query sample_cosine sample_bm25 _ 10
              sample_indexed)
    as (out & E & H & _).
  exists out. split; assumption.
Defined.

(* ================================================================== *)
(** * More on [expand_query] *)
(* ================================================================== *)

Lemma dropwhile_split {A : Type} (p : A -> bool) (l : list A) :
  exists a, l = a ++ dropwhile p l /\ Forall (fun x => p x = true) a.
Proof.
  induction l as [| x l (a & E & Ha)]; cbn [dropwhile].
  - exists []. split; [reflexivity | constructor].
  - destruct (p x) eqn:Px.
    + exists (x :: a). split; [cbn; f_equal; exact E | constructor; assumption].
    + exists []. split; [reflexivity | constructor].
Qed.

Lemma dropwhile_hd {A : Type} (p : A -> bool) (l : list A) (c : A) :
  hd_error (dropwhile p l) = Some c -> p c = false.
Proof.
  induction l as [| x l IH]; cbn [dropwhile]; [discriminate |].
  destruct (p x) eqn:Px; [exact IH |]. cbn. intros E. congruence.
Qed.

Lemma dropwhile_In {A : Type} (p : A -> bool) (l : list A) (c : A) :
  In c (dropwhile p l) -> In c l.
Proof.
  destruct (dropwhile_split p l) as (a & E & _). intros H.
  rewrite E. apply in_or_app. now right.
Qed.

(** [rstrip] keeps a prefix: what it removes is at the end. *)
Lemma rstrip_by_split (p : N -> bool) (s : pystr) :
  exists r, s = rstrip_by p s ++ r /\ Forall (fun x => p x = true) r.
Proof.
  unfold rstrip_by. destruct (dropwhile_split p (rev s)) as (a & E & Ha).
  exists (rev a). split.
  - rewrite <- rev_app_distr, <- E, rev_involutive. reflexivity.
  - apply Forall_rev. exact Ha.
Qed.

Lemma strip_In (s : pystr) (c : N) : In c (strip s) -> In c s.
Proof.
  unfold strip, rstrip_by, lstrip_by. intros H.
  apply in_rev, dropwhile_In, in_rev, dropwhile_In in H. exact H.
Qed.

Lemma strip_trimmed (s : pystr) : trimmed (strip s).
Proof.
  unfold trimmed, strip. split.
  - intros c Hc.
    destruct (rstrip_by_split isspace (lstrip_by isspace s)) as (r & E & _).
    destruct (rstrip_by isspace (lstrip_by isspace s)) as [| c' t] eqn:R;
      [discriminate |].
    cbn in Hc. inversion Hc; subst c'.
    apply (dropwhile_hd isspace s c). unfold lstrip_by in E. rewrite E.
    reflexivity.
  - intros c Hc. unfold rstrip_by in Hc. rewrite rev_involutive in Hc.
    eapply dropwhile_hd. exact Hc.
Qed.

Lemma split_on_no_sep (sep : N) (s : pystr) :
  Forall (fun w => ~ In sep w) (split_on sep s).
Proof.
  induction s as [| c s IH]; cbn [split_on].
  - constructor; [intros [] | constructor].
  - destruct (N.eqb c sep) eqn:E.
    + constructor; [intros [] | exact IH].
    + apply N.eqb_neq in E. destruct (split_on sep s) as [| w ws].
      * constructor; [| constructor]. intros [H | []]. congruence.
      * inversion IH as [| ? ? Hw Hws]; subst. constructor; [| exact Hws].
        intros [H | H]; [congruence | exact (Hw H)].
Qed.

(** X6: every expansion that [expand_query] returns is one cleaned line of
    the service's answer: it has no leading or trailing whitespace and
    contains no line feed, and the expansions are the first entries of the
    cleaned answer, in the order the service gave them. *)
Theorem expand_query_expansions_are_clean_lines (content : pystr)
    (self : SemanticQueryExpander) (query : pystr) (num_expansions : Z) :
  client self query num_expansions = ServiceContent content ->
  exists n,
    expand_query self query num_expansions
    = query :: firstn n (clean_expansions content)
    /\ Forall (fun e => trimmed e /\ ~ In 10%N e)
         (firstn n (clean_expansions content)).
Proof.
  intros Hc. unfold expand_query. rewrite Hc.
  exists (Z.to_nat (norm_index (len (clean_expansions content)) num_expansions)).
  rewrite py_prefix_is_firstn. split; [reflexivity |].
  rewrite Forall_forall. intros e He. apply In_firstn in He.
  unfold clean_expansions, fromkeys in He.
  apply fromkeys_acc_spec in He as [He _].
  apply filter_In in He as [He _].
  apply in_map_iff in He as (line & <- & Hline).
  split; [apply strip_trimmed |].
  intros H. apply strip_In in H. unfold lstrip_by in H.
  apply dropwhile_In in H.
  apply in_map_iff in Hline as (raw & <- & Hraw).
  apply strip_In in H. apply filter_In in Hraw as [Hraw _].
  pose proof (split_on_no_sep 10%N (strip content)) as Hs.
  rewrite Forall_forall in Hs. exact (Hs raw Hraw H).
Qed.

Lemma expand_query_expansions_are_clean_lines_witness :
  client ab_expander qa 5 = ServiceContent qb
  /\ exists n,
       expand_query ab_expander qa 5 = qa :: firstn n (clean_expansions qb)
       /\ Forall (fun e => trimmed e /\ ~ In 10%N e)
            (firstn n (clean_expansions qb)).
Proof.
  split; [reflexivity |].
  exact (expand_query_expansions_are_clean_lines qb ab_expander qa 5 eq_refl).
Defined.

(* ================================================================== *)
(** * Expansion over a [HybridRetriever] *)
(* ================================================================== *)

Lemma dict_set_absent (d : ResultDict) (k : Z) (v : RetrievalResult) :
  dict_get d k = None -> dict_set d k v = d ++ [(k, v)].
Proof.
  induction d as [| [k0 v0] d IH]; cbn [dict_get dict_set app];
    [reflexivity |].
  destruct (k0 =? k); [discriminate |]. intros H. rewrite IH by exact H.
  reflexivity.
Qed.

(** Results with pairwise different chunk ids, none of them in the
    dictionary yet, are appended in order. *)
Lemma merge_fold_distinct (ts : list RetrievalResult) : forall d,
  NoDup (map fst d ++ map result_id ts) ->
  fold_left merge_tagged ts d = d ++ map (fun t => (result_id t, t)) ts.
Proof.
  induction ts as [| t ts IH]; intros d Hn; cbn [fold_left map].
  - rewrite app_nil_r. reflexivity.
  - assert (Habs : dict_get d (result_id t) = None).
    { apply dict_get_None. intros Hin. cbn [map] in Hn.
      apply NoDup_remove_2 in Hn. apply Hn. apply in_or_app. now left. }
    unfold merge_tagged at 2. rewrite Habs, dict_set_absent by exact Habs.
    rewrite IH.
    + rewrite <- app_assoc. reflexivity.
    + rewrite map_app. cbn [map fst app]. rewrite <- app_assoc. exact Hn.
Qed.

Lemma sort_desc_sorted_id (l : list RetrievalResult) :
  descending l -> sort_desc hybrid_score l = l.
Proof.
  unfold descending. induction 1 as [| x l Hs IH Hx];
    cbn [sort_desc fold_right]; [reflexivity |].
  fold (sort_desc hybrid_score l). rewrite IH.
  apply insert_desc_front. exact Hx.
Qed.

Lemma NoDup_firstn {A : Type} (n : nat) (l : list A) :
  NoDup l -> NoDup (firstn n l).
Proof.
  intros H. rewrite <- (firstn_skipn n l) in H.
  apply NoDup_app_remove_r in H. exact H.
Qed.

Lemma filter_keeps_distinct_images {X Y : Type} (image : X -> Y)
    (keep : X -> bool) (xs : list X) (Hdistinct : NoDup (map image xs)) :
  NoDup (map image (filter keep xs)).
Proof.
  induction xs as [| x xs IH]; cbn [map filter] in *; [constructor |].
  inversion Hdistinct as [| ? ? Hx Hxs]; subst.
  destruct (keep x); cbn [map]; auto.
  constructor; [| auto]. intros Hin. apply Hx.
  apply in_map_iff in Hin as (y & E & Hy). apply filter_In in Hy as [Hy _].
  rewrite <- E. apply in_map. exact Hy.
Qed.

Lemma candidates_ids (chunk_list : list Chunk) : forall hybrid cosine bm25n,
  exists n,
    map result_id (candidates chunk_list hybrid cosine bm25n)
    = firstn n (map c_id chunk_list).
Proof.
  induction chunk_list as [| c cs IH]; intros [| h hs] [| co cos] [| b bs];
    cbn [candidates map]; try (exists 0%nat; reflexivity).
  destruct (IH hs cos bs) as [n E]. exists (S n). cbn [firstn].
  rewrite <- E. reflexivity.
Qed.

(** With unique chunk ids in the index, [retrieve] returns every chunk id at
    most once. *)
Lemma retrieve_ids_NoDup (self : HybridRetriever) (query : pystr)
    (cosine_of : pystr -> Result (list Q)) (bm25_of : pystr -> list Q)
    (cosine_scores : list Q) (top_k : Z) :
  indexed_for self query cosine_of bm25_of cosine_scores ->
  NoDup (map c_id (chunks self)) ->
  exists out,
    retrieve self query top_k = Ok out /\ NoDup (map result_id out).
Proof.
  intros Hidx Hids. rewrite (retrieve_indexed _ _ _ _ _ top_k Hidx).
  eexists. split; [reflexivity |].
  rewrite py_prefix_is_firstn, <- firstn_map. apply NoDup_firstn.
  eapply Permutation_NoDup;
    [apply Permutation_map; symmetry; apply sort_desc_perm |].
  apply filter_keeps_distinct_images. unfold candidates_of.
  destruct (candidates_ids (chunks self)
              (hybrid_scores (cosine_weight self) (bm25_weight self)
                 cosine_scores (_normalize_scores (bm25_of query)))
              cosine_scores (_normalize_scores (bm25_of query))) as [n E].
  rewrite E. apply NoDup_firstn. exact Hids.
Qed.

(** X7: when paraphrase generation fails, expansion degrades to plain
    retrieval: over an index with unique chunk ids,
    [retrieve_with_expansion] returns exactly what [retrieve] returns for
    the original query, in the same order, each result tagged with that
    query. *)
Theorem expansion_falls_back_to_retrieve (self : SemanticQueryExpander)
    (retriever : HybridRetriever) (query : pystr)
    (num_expansions top_k_per_query : Z)
    (cosine_of : pystr -> Result (list Q)) (bm25_of : pystr -> list Q)
    (cosine_scores : list Q) :
  client self query num_expansions = ServiceRaised
  \/ client self query num_expansions = ServiceUnusable ->
  indexed_for retriever query cosine_of bm25_of cosine_scores ->
  NoDup (map c_id (chunks retriever)) ->
  exists out,
    retrieve retriever query top_k_per_query = Ok out
    /\ retrieve_with_expansion self query (retrieve retriever) num_expansions
         top_k_per_query
       = Ok (map (tag query) out).
Proof.
  intros Hfail Hidx Hids.
  destruct (retrieve_ids_NoDup retriever query cosine_of bm25_of cosine_scores
              top_k_per_query Hidx Hids) as (out & E & Hn).
  destruct (retrieve_results_shape retriever query cosine_of bm25_of
              cosine_scores top_k_per_query Hidx) as (out' & E' & Hd & _).
  rewrite E in E'. inversion E'; subst out'.
  exists out. split; [exact E |].
  assert (Hexp : expand_query self query num_expansions = [query]).
  { unfold expand_query. destruct Hfail as [-> | ->]; reflexivity. }
  unfold retrieve_with_expansion, merge_expanded. rewrite Hexp.
  cbn [fan_out]. rewrite E. f_equal.
  rewrite merge_results_tagged, merge_fold_distinct.
  - cbn [app]. unfold dict_values. rewrite map_map. cbn [snd].
    rewrite map_id. apply sort_desc_sorted_id.
    apply StronglySorted_map with (R := fun a b => (hybrid_score b
                                                     <= hybrid_score a)%Q);
      [| exact Hd].
    intros a b _ _ H. exact H.
  - cbn [map app]. rewrite map_map. exact Hn.
Qed.

Lemma sample_ids_NoDup : NoDup (map c_id (chunks sample_retriever)).
Proof.
  cbn. repeat constructor; cbn; intros H; repeat destruct H as [H | H];
    try discriminate; exact H.
Qed.

Lemma expansion_falls_back_to_retrieve_witness :
  (client (mkSemanticQueryExpander (fun _ _ => ServiceRaised)) sample_query 5
   = ServiceRaised
   \/ client (mkSemanticQueryExpander (fun _ _ => ServiceRaised)) sample_query 5
      = ServiceUnusable)
  /\ exists out,
       retrieve sample_retriever sample_query 5 = Ok out
       /\ retrieve_with_expansion
            (mkSemanticQueryExpander (fun _ _ => ServiceRaised)) sample_query
            (retrieve sample_retriever) 5 5
          = Ok (map (tag sample_query) out).
Proof.
  assert (H : client (mkSemanticQueryExpander (fun _ _ => ServiceRaised))
                sample_query 5 = ServiceRaised
              \/ client (mkSemanticQueryExpander (fun _ _ => ServiceRaised))
                   sample_query 5 = ServiceUnusable) by (left; reflexivity).
  split; [exact H |].
  exact (expansion_falls_back_to_retrieve
           (mkSemanticQueryExpander (fun _ _ => ServiceRaised))
           sample_retriever sample_query 5 5 sample_cosine sample_bm25 _
           H sample_indexed sample_ids_NoDup).
Defined.

Lemma retrieve_results_in_index (self : HybridRetriever) (query : pystr)
    (cosine_of : pystr -> Result (list Q)) (bm25_of : pystr -> list Q)
    (cosine_scores : list Q) (top_k : Z) :
  indexed_for self query cosine_of bm25_of cosine_scores ->
  exists out,
    retrieve self query top_k = Ok out
    /\ Forall (fun r => In (chunk r) (chunks self)
                        /\ (threshold self <= hybrid_score r)%Q) out
    /\ (0 <= top_k -> len out <= top_k).
Proof.
  intros Hidx. rewrite (retrieve_indexed _ _ _ _ _ top_k Hidx).
  eexists. split; [reflexivity |]. split.
  - rewrite py_prefix_is_firstn, Forall_forall. intros r Hr.
    apply In_firstn, sort_desc_In, filter_In in Hr as [Hr Hc].
    pose proof (candidates_fields (chunks self)
                  (hybrid_scores (cosine_weight self) (bm25_weight self)
                     cosine_scores (_normalize_scores (bm25_of query)))
                  cosine_scores (_normalize_scores (bm25_of query))) as Hf.
    rewrite Forall_forall in Hf. destruct (Hf r Hr) as ((i & H1 & _) & _).
    split; [exact (nth_error_In _ _ H1) | apply Qleb_le; exact Hc].
  - apply len_py_prefix.
Qed.

Lemma tagged_occurrences_length (retriever : Retriever) (k : Z) (m : nat)
    (qs : list pystr) :
  (forall q results, In q qs -> retriever q k = Ok results ->
                     (List.length results <= m)%nat) ->
  (List.length (tagged_occurrences retriever k qs) <= List.length qs * m)%nat.
Proof.
  unfold tagged_occurrences. induction qs as [| q qs IH]; intros H;
    cbn [flat_map List.length]; [lia |].
  rewrite length_app.
  assert (Hq : (List.length
                  match retriever q k with
                  | Ok results => map (tag q) results
                  | Raise _ => []
                  end <= m)%nat).
  { destruct (retriever q k) as [rs | e] eqn:E; [| cbn; lia].
    rewrite length_map. apply (H q rs); [now left | exact E]. }
  assert (IH' : (List.length
                   (flat_map
                      (fun q0 => match retriever q0 k with
                                 | Ok results => map (tag q0) results
                                 | Raise _ => []
                                 end) qs) <= List.length qs * m)%nat).
  { apply IH. intros q' rs Hq'. apply H. now right. }
  lia.
Qed.

Lemma expand_query_length (self : SemanticQueryExpander) (query : pystr)
    (num_expansions : Z) :
  0 <= num_expansions ->
  len (expand_query self query num_expansions) <= num_expansions + 1.
Proof.
  intros Hn. unfold expand_query.
  destruct (client self query num_expansions) as [| | content];
    try (unfold len; cbn [List.length]; lia).
  change (query :: py_prefix (clean_expansions content) num_expansions)
    with ([query] ++ py_prefix (clean_expansions content) num_expansions).
  rewrite len_app. change (len [query]) with 1.
  pose proof (len_py_prefix (clean_expansions content) num_expansions Hn). lia.
Qed.

(** X8: expansion over a hybrid retriever whose index answers every
    expanded query.  The merged list has at most as many results as there
    are indexed chunks and, for non-negative [num_expansions] and
    [top_k_per_query], at most [(num_expansions + 1) * top_k_per_query];
    every result is an indexed chunk whose hybrid score clears the
    retriever's threshold, tagged with one of the expanded queries. *)
Theorem expansion_over_hybrid_retriever (self : SemanticQueryExpander)
    (retriever : HybridRetriever) (query : pystr)
    (num_expansions top_k_per_query : Z)
    (cosine_of : pystr -> Result (list Q)) (bm25_of : pystr -> list Q) :
  (forall q, In q (expand_query self query num_expansions) ->
             exists cosine_scores,
               indexed_for retriever q cosine_of bm25_of cosine_scores) ->
  exists out,
    retrieve_with_expansion self query (retrieve retriever) num_expansions
      top_k_per_query = Ok out
    /\ len out <= len (chunks retriever)
    /\ (0 <= num_expansions -> 0 <= top_k_per_query ->
        len out <= (num_expansions + 1) * top_k_per_query)
    /\ Forall (fun r =>
                 In (chunk r) (chunks retriever)
                 /\ (threshold retriever <= hybrid_score r)%Q
                 /\ exists q,
                      In q (expand_query self query num_expansions)
                      /\ source_query r = Some q) out.
Proof.
  intros Hidx.
  set (expanded := expand_query self query num_expansions) in *.
  assert (Hres : forall q, In q expanded ->
            exists results,
              retrieve retriever q top_k_per_query = Ok results
              /\ Forall (fun r => In (chunk r) (chunks retriever)
                                  /\ (threshold retriever <= hybrid_score r)%Q)
                   results
              /\ (0 <= top_k_per_query -> len results <= top_k_per_query)).
  { intros q Hq. destruct (Hidx q Hq) as [cs Hcs].
    apply (retrieve_results_in_index retriever q cosine_of bm25_of cs
             top_k_per_query Hcs). }
  assert (Hall : all_retrieved (retrieve retriever) top_k_per_query expanded).
  { intros q Hq. destruct (Hres q Hq) as (rs & E & _). exists rs. exact E. }
  unfold retrieve_with_expansion. fold expanded.
  destruct (merge_expanded_spec (retrieve retriever) top_k_per_query expanded
              Hall) as (out & E & Hn & Hb & _ & _).
  assert (Hocc : forall v, In v out ->
            exists q results r,
              In q expanded
              /\ retrieve retriever q top_k_per_query = Ok results
              /\ In r results /\ v = tag q r).
  { intros v Hv. apply tagged_occurrences_In, first_best_In, Hb, Hv. }
  exists out. split; [exact E |]. split; [| split].
  - unfold len. apply inj_le.
    rewrite <- (length_map result_id out), <- (length_map c_id (chunks retriever)).
    apply NoDup_incl_length; [exact Hn |].
    intros id Hid. apply in_map_iff in Hid as (v & <- & Hv).
    destruct (Hocc v Hv) as (q & rs & r & Hq & Er & Hr & ->).
    destruct (Hres q Hq) as (rs' & Er' & Hf & _).
    rewrite Er in Er'. inversion Er'; subst rs'.
    rewrite Forall_forall in Hf. destruct (Hf r Hr) as [Hc _].
    change (result_id (tag q r)) with (c_id (chunk r)). apply in_map. exact Hc.
  - intros Hn0 Hk0.
    assert (Hlen : (List.length out
                    <= List.length
                         (tagged_occurrences (retrieve retriever)
                            top_k_per_query expanded))%nat).
    { apply NoDup_incl_length; [eapply NoDup_map_inv; exact Hn |].
      intros v Hv. apply first_best_In, Hb, Hv. }
    pose proof (tagged_occurrences_length (retrieve retriever) top_k_per_query
                  (Z.to_nat top_k_per_query) expanded) as Hocc_len.
    assert (Hm : (List.length
                    (tagged_occurrences (retrieve retriever) top_k_per_query
                       expanded)
                  <= List.length expanded * Z.to_nat top_k_per_query)%nat).
    { apply Hocc_len. intros q rs Hq Er.
      destruct (Hres q Hq) as (rs' & Er' & _ & Hk).
      rewrite Er in Er'. inversion Er'; subst rs'.
      specialize (Hk Hk0). unfold len in Hk. lia. }
    pose proof (expand_query_length self query num_expansions Hn0) as Hexp.
    fold expanded in Hexp. unfold len in *. nia.
  - rewrite Forall_forall. intros v Hv.
    destruct (Hocc v Hv) as (q & rs & r & Hq & Er & Hr & ->).
    destruct (Hres q Hq) as (rs' & Er' & Hf & _).
    rewrite Er in Er'. inversion Er'; subst rs'.
    rewrite Forall_forall in Hf. destruct (Hf r Hr) as [Hc Ht].
    split; [exact Hc |]. split; [exact Ht |].
    exists q. split; [exact Hq | reflexivity].
Qed.

Lemma expansion_over_hybrid_retriever_witness :
  (forall q, In q (expand_query ab_expander qa 5) ->
             exists cosine_scores,
               indexed_for sample_retriever q sample_cosine sample_bm25
                 cosine_scores)
  /\ exists out,
       retrieve_with_expansion ab_expander qa (retrieve sample_retriever) 5 5
       = Ok out
       /\ len out <= len (chunks sample_retriever).
Proof.
  assert (H : forall q, In q (expand_query ab_expander qa 5) ->
                exists cosine_scores,
                  indexed_for sample_retriever q sample_cosine sample_bm25
                    cosine_scores).
  { intros q _. exists [1 # 2; 9 # 10; 1 # 2]%Q. repeat split. discriminate. }
  split; [exact H |].
  destruct (expansion_over_hybrid_retriever ab_expander sample_retriever qa 5 5
              sample_cosine sample_bm25 H) as (out & E & Hl & _).
  exists out. split; assumption.
Defined.

(* ================================================================== *)
(** * get_expansion_stats *)
(* ================================================================== *)

Lemma pystr_eqb_refl (s : pystr) : pystr_eqb s s = true.
Proof. apply pystr_eqb_eq. reflexivity. Qed.

Lemma pystr_eqb_neq (s t : pystr) : pystr_eqb s t = false <-> s <> t.
Proof. rewrite <- not_true_iff_false, pystr_eqb_eq. tauto. Qed.

Lemma count_get_set (d : CountDict) (k k' : pystr) (n : Z) :
  count_get (count_set d k n) k'
  = if pystr_eqb k k' then n else count_get d k'.
Proof.
  induction d as [| [k0 n0] d IH]; cbn [count_set count_get]; [reflexivity |].
  destruct (pystr_eqb k0 k) eqn:E0; cbn [count_get].
  - apply pystr_eqb_eq in E0. subst k0. destruct (pystr_eqb k k'); reflexivity.
  - rewrite IH. destruct (pystr_eqb k0 k') eqn:E1; [| reflexivity].
    apply pystr_eqb_eq in E1. subst k'.
    destruct (pystr_eqb k k0) eqn:E2; [| reflexivity].
    apply pystr_eqb_eq in E2. subst k0. rewrite pystr_eqb_refl in E0.
    discriminate.
Qed.

Lemma count_set_keys (d : CountDict) (k : pystr) (n : Z) :
  map fst (count_set d k n)
  = if existsb (pystr_eqb k) (map fst d) then map fst d else map fst d ++ [k].
Proof.
  induction d as [| [k0 n0] d IH]; cbn [count_set map fst existsb app];
    [reflexivity |].
  destruct (pystr_eqb k0 k) eqn:E0; cbn [map fst].
  - apply pystr_eqb_eq in E0. subst k0. rewrite pystr_eqb_refl. reflexivity.
  - replace (pystr_eqb k k0) with false.
    + cbn [orb]. rewrite IH.
      destruct (existsb (pystr_eqb k) (map fst d)); reflexivity.
    + symmetry. apply pystr_eqb_neq. apply pystr_eqb_neq in E0. congruence.
Qed.

Lemma count_set_NoDup (d : CountDict) (k : pystr) (n : Z) :
  NoDup (map fst d) -> NoDup (map fst (count_set d k n)).
Proof.
  intros Hn. rewrite count_set_keys.
  destruct (existsb (pystr_eqb k) (map fst d)) eqn:E; [exact Hn |].
  assert (Hk : ~ In k (map fst d)).
  { intros H. apply existsb_pystr_eqb in H. congruence. }
  apply NoDup_rev in Hn.
  rewrite <- (rev_involutive (map fst d ++ [k])), rev_app_distr.
  apply NoDup_rev. cbn [rev app]. constructor; [| exact Hn].
  rewrite <- in_rev. exact Hk.
Qed.

Lemma count_set_sum (d : CountDict) (k : pystr) :
  Zsum (map snd (count_set d k (count_get d k + 1))) = Zsum (map snd d) + 1.
Proof.
  induction d as [| [k0 n0] d IH]; cbn [count_set count_get map snd Zsum
    fold_right]; [lia |].
  destruct (pystr_eqb k0 k); cbn [map snd fold_right].
  - lia.
  - fold (Zsum (map snd (count_set d k (count_get d k + 1)))).
    fold (Zsum (map snd d)). rewrite IH. lia.
Qed.

Lemma count_set_positive (d : CountDict) (k : pystr) (n : Z) :
  1 <= n -> Forall (fun kn => 1 <= snd kn) d ->
  Forall (fun kn => 1 <= snd kn) (count_set d k n).
Proof.
  intros Hn. induction 1 as [| [k0 n0] d H0 Hd IH]; cbn [count_set].
  - constructor; [exact Hn | constructor].
  - destruct (pystr_eqb k0 k); constructor; auto.
Qed.

Lemma count_get_nonneg (d : CountDict) (k : pystr) :
  Forall (fun kn => 1 <= snd kn) d -> 0 <= count_get d k.
Proof.
  induction 1 as [| [k0 n0] d H0 Hd IH]; cbn [count_get]; [lia |].
  destruct (pystr_eqb k0 k); [cbn [snd] in H0; lia | exact IH].
Qed.

Lemma count_get_In (d : CountDict) (k : pystr) (n : Z) :
  NoDup (map fst d) -> In (k, n) d -> count_get d k = n.
Proof.
  induction d as [| [k0 n0] d IH]; cbn [count_get map fst In]; intros Hn H;
    [contradiction |].
  inversion Hn as [| ? ? Hx Hn']; subst. destruct H as [H | H].
  - inversion H; subst. rewrite pystr_eqb_refl. reflexivity.
  - destruct (pystr_eqb k0 k) eqn:E; [| auto].
    apply pystr_eqb_eq in E. subst k0. exfalso. apply Hx.
    change k with (fst (k, n)). apply in_map. exact H.
Qed.

Lemma count_get_absent (d : CountDict) (k : pystr) :
  ~ In k (map fst d) -> count_get d k = 0.
Proof.
  induction d as [| [k0 n0] d IH]; cbn [count_get map fst In]; intros H;
    [reflexivity |].
  destruct (pystr_eqb k0 k) eqn:E; [| apply IH; tauto].
  apply pystr_eqb_eq in E. tauto.
Qed.

Lemma count_get_present (d : CountDict) (k : pystr) :
  In k (map fst d) -> In (k, count_get d k) d.
Proof.
  induction d as [| [k0 n0] d IH]; cbn [count_get map fst In]; intros H;
    [contradiction |].
  destruct (pystr_eqb k0 k) eqn:E.
  - apply pystr_eqb_eq in E. subst k0. now left.
  - right. apply IH. destruct H as [H | H]; [| exact H].
    apply pystr_eqb_neq in E. congruence.
Qed.

(** The counting loop from any dictionary. *)
Lemma count_fold (results : list RetrievalResult) : forall d,
  NoDup (map fst d) -> Forall (fun kn => 1 <= snd kn) d ->
  let d' := fold_left
              (fun query_counts result =>
                 count_set query_counts (source_of result)
                   (count_get query_counts (source_of result) + 1))
              results d in
  NoDup (map fst d')
  /\ Forall (fun kn => 1 <= snd kn) d'
  /\ Zsum (map snd d') = Zsum (map snd d) + len results
  /\ forall k, count_get d' k = count_get d k + sourced_by k results.
Proof.
  induction results as [| r rs IH]; intros d Hn Hp; cbn [fold_left].
  - cbv zeta. repeat split; auto; unfold sourced_by, len; cbn; lia.
  - cbv zeta.
    set (d1 := count_set d (source_of r) (count_get d (source_of r) + 1)).
    assert (Hn1 : NoDup (map fst d1)) by (apply count_set_NoDup; exact Hn).
    assert (Hp1 : Forall (fun kn => 1 <= snd kn) d1).
    { apply count_set_positive; [| exact Hp].
      pose proof (count_get_nonneg d (source_of r) Hp). lia. }
    destruct (IH d1 Hn1 Hp1) as (H1 & H2 & H3 & H4).
    split; [exact H1 |]. split; [exact H2 |]. split.
    + rewrite H3. unfold d1. rewrite count_set_sum.
      change (r :: rs) with ([r] ++ rs). rewrite len_app.
      change (len [r]) with 1. lia.
    + intros k. rewrite H4. unfold d1. rewrite count_get_set.
      unfold sourced_by. cbn [filter].
      destruct (pystr_eqb (source_of r) k) eqn:E.
      * apply pystr_eqb_eq in E. subst k.
        change (r :: filter (fun r0 => pystr_eqb (source_of r0) (source_of r)) rs)
          with ([r] ++ filter (fun r0 => pystr_eqb (source_of r0) (source_of r)) rs).
        rewrite len_app. change (len [r]) with 1. lia.
      * lia.
Qed.

(** X9: the expansion statistics of any result list.  [total_chunks] is the
    number of results.  For a non-empty list [chunks_per_query] has one
    entry per distinct source query, each entry counts the results with
    that source and is at least 1, the counts add up to [total_chunks], and
    [queries_used] is the number of entries, between 1 and
    [total_chunks]. *)
Theorem expansion_stats_count_sources (query : pystr)
    (results : list RetrievalResult) :
  total_chunks (get_expansion_stats query results) = len results
  /\ (results <> [] ->
      exists counts,
        chunks_per_query (get_expansion_stats query results) = Some counts
        /\ queries_used (get_expansion_stats query results) = len counts
        /\ NoDup (map fst counts)
        /\ (forall k n, In (k, n) counts
                        <-> n = sourced_by k results /\ 1 <= n)
        /\ Zsum (map snd counts) = len results
        /\ 1 <= len counts <= len results).
Proof.
  split; [destruct results; reflexivity |].
  intros Hne. destruct results as [| r0 rs]; [congruence |].
  set (results := r0 :: rs) in *.
  exists (count_sources results). split; [reflexivity |].
  split; [reflexivity |].
  destruct (count_fold results [] (NoDup_nil _) (Forall_nil _))
    as (Hn & Hp & Hs & Hg).
  fold (count_sources results) in Hn, Hp, Hs, Hg.
  cbn [map Zsum fold_right count_get] in Hs, Hg.
  assert (Hiff : forall k n, In (k, n) (count_sources results)
                             <-> n = sourced_by k results /\ 1 <= n).
  { intros k n. split.
    - intros Hin. rewrite Forall_forall in Hp.
      split; [| apply (Hp (k, n) Hin)].
      rewrite <- (count_get_In _ k n Hn Hin), Hg. lia.
    - intros [-> Hpos].
      assert (Hk : In k (map fst (count_sources results))).
      { destruct (in_dec (list_eq_dec N.eq_dec) k
                    (map fst (count_sources results))) as [H | H];
          [exact H |].
        apply count_get_absent in H. rewrite Hg in H. lia. }
      apply count_get_present in Hk. rewrite Hg in Hk.
      replace (sourced_by k results) with (0 + sourced_by k results) by lia.
      exact Hk. }
  split; [exact Hn |]. split; [exact Hiff |]. split; [lia |].
  assert (Hlen : len (count_sources results)
                 <= Zsum (map snd (count_sources results))).
  { clear - Hp. induction Hp as [| [k n] d H0 _ IH].
    - unfold len; cbn; lia.
    - change ((k, n) :: d) with ([(k, n)] ++ d). rewrite len_app.
      change (len [(k, n)]) with 1. cbn [map snd app Zsum fold_right] in *.
      fold (Zsum (map snd d)). lia. }
  split; [| lia].
  assert (Hr0 : 1 <= sourced_by (source_of r0) results).
  { unfold sourced_by, results. cbn [filter]. rewrite pystr_eqb_refl.
    unfold len. cbn [List.length]. lia. }
  assert (Hin : In (source_of r0, sourced_by (source_of r0) results)
                  (count_sources results)) by (apply Hiff; auto).
  destruct (count_sources results); [contradiction |].
  unfold len. cbn [List.length]. lia.
Qed.

Lemma expansion_stats_count_sources_witness :
  [tag qa (hit 0 (1 # 2)); tag qb (hit 1 (1 # 3)); tag qa (hit 2 (1 # 4))] <> []
  /\ exists counts,
       chunks_per_query
         (get_expansion_stats qa
            [tag qa (hit 0 (1 # 2)); tag qb (hit 1 (1 # 3));
             tag qa (hit 2 (1 # 4))]) = Some counts
       /\ Zsum (map snd counts) = 3.
Proof.
  assert (H : [tag qa (hit 0 (1 # 2)); tag qb (hit 1 (1 # 3));
               tag qa (hit 2 (1 # 4))] <> []) by discriminate.
  split; [exact H |].
  destruct (proj2 (expansion_stats_count_sources qa _) H)
    as (counts & E & _ & _ & _ & Hs & _).
  exists counts. split; [exact E | exact Hs].
Defined.

Lemma sourced_by_positive (k : pystr) (results : list RetrievalResult) :
  1 <= sourced_by k results ->
  exists r, In r results /\ source_of r = k.
Proof.
  unfold sourced_by. intros H.
  destruct (filter (fun r => pystr_eqb (source_of r) k) results) as [| r l] eqn:E.
  - unfold len in H. cbn in H. lia.
  - assert (Hr : In r (filter (fun r => pystr_eqb (source_of r) k) results))
      by (rewrite E; now left).
    apply filter_In in Hr as [Hr Hk]. exists r. split; [exact Hr |].
    apply pystr_eqb_eq. exact Hk.
Qed.

(** X10: the statistics of what [retrieve_with_expansion] returned.  Every
    key of [chunks_per_query] is one of the expanded queries (the fallback
    key ["unknown"] is never used, since every merged result carries its
    tag), and [queries_used] is at most the number of expanded queries. *)
Theorem expansion_stats_of_expansion (self : SemanticQueryExpander)
    (query : pystr) (retriever : Retriever)
    (num_expansions top_k_per_query : Z) :
  all_retrieved retriever top_k_per_query
    (expand_query self query num_expansions) ->
  exists out,
    retrieve_with_expansion self query retriever num_expansions
      top_k_per_query = Ok out
    /\ Forall (fun r => exists q,
                 In q (expand_query self query num_expansions)
                 /\ source_query r = Some q) out
    /\ queries_used (get_expansion_stats query out)
       <= len (expand_query self query num_expansions)
    /\ forall counts,
         chunks_per_query (get_expansion_stats query out) = Some counts ->
         Forall (fun kn => In (fst kn)
                             (expand_query self query num_expansions)) counts.
Proof.
  intros Hall. unfold retrieve_with_expansion.
  set (expanded := expand_query self query num_expansions) in *.
  destruct (merge_expanded_spec retriever top_k_per_query expanded Hall)
    as (out & E & _ & Hb & _ & _).
  exists out. split; [exact E |].
  assert (Htag : forall r, In r out ->
                   exists q, In q expanded /\ source_query r = Some q).
  { intros r Hr. apply Hb, first_best_In, tagged_occurrences_In in Hr
      as (q & rs & r0 & Hq & _ & _ & ->).
    exists q. split; [exact Hq | reflexivity]. }
  split; [rewrite Forall_forall; exact Htag |].
  destruct (count_fold out [] (NoDup_nil _) (Forall_nil _))
    as (Hn & Hp & _ & Hg).
  fold (count_sources out) in Hn, Hp, Hg. cbn [count_get] in Hg.
  assert (Hkeys : Forall (fun kn => In (fst kn) expanded) (count_sources out)).
  { rewrite Forall_forall in Hp |- *. intros [k n] Hin. cbn [fst].
    pose proof (Hp (k, n) Hin) as Hpos. cbn [snd] in Hpos.
    rewrite <- (count_get_In _ k n Hn Hin), Hg in Hpos.
    destruct (sourced_by_positive k out) as (r & Hr & Hk); [lia |].
    destruct (Htag r Hr) as (q & Hq & Hs).
    unfold source_of in Hk. rewrite Hs in Hk. subst k. exact Hq. }
  split.
  - destruct out as [| r0 rs]; [cbn; apply len_nonneg |].
    cbn [get_expansion_stats queries_used]. unfold len. apply inj_le.
    rewrite <- (length_map fst (count_sources (r0 :: rs))).
    apply NoDup_incl_length; [exact Hn |].
    intros k Hk. apply in_map_iff in Hk as (kn & <- & Hkn).
    rewrite Forall_forall in Hkeys. apply Hkeys. exact Hkn.
  - intros counts Hc. destruct out as [| r0 rs]; [discriminate |].
    cbn [get_expansion_stats chunks_per_query] in Hc. inversion Hc; subst.
    exact Hkeys.
Qed.

Lemma expansion_stats_of_expansion_witness :
  all_retrieved two_hits_retriever 5 (expand_query ab_expander qa 5)
  /\ exists out,
       retrieve_with_expansion ab_expander qa two_hits_retriever 5 5 = Ok out
       /\ queries_used (get_expansion_stats qa out)
          <= len (expand_query ab_expander qa 5).
Proof.
  assert (H : all_retrieved two_hits_retriever 5 (expand_query ab_expander qa 5)).
  { intros q Hq. vm_compute in Hq.
    destruct Hq as [<- | [<- | []]]; eexists; reflexivity. }
  split; [exact H |].
  destruct (expansion_stats_of_expansion ab_expander qa two_hits_retriever 5 5 H)
    as (out & E & _ & Hq & _).
  exists out. split; assumption.
Defined.

(* ================================================================== *)
(** * _clean_text *)
(* ================================================================== *)

Lemma collapse_runs_hd (p : N -> bool) (rep : N) (s : pystr) (d : N) :
  p d = false -> hd_error s = Some d ->
  hd_error (collapse_runs p rep s) = Some d.
Proof.
  destruct s as [| c s]; [discriminate |]. cbn [hd_error collapse_runs].
  intros Hd E. inversion E; subst c. rewrite Hd. reflexivity.
Qed.

Lemma collapse_runs_single_spaced (s : pystr) :
  single_spaced (collapse_runs isspace 32%N s).
Proof.
  induction s as [| c s IH]; cbn [collapse_runs]; [exact I |].
  destruct (isspace c) eqn:Ec.
  - destruct s as [| d s']; [cbn; tauto |].
    destruct (isspace d) eqn:Ed; [exact IH |].
    cbn [single_spaced]. split; [| exact IH]. intros _. split; [reflexivity |].
    pose proof (collapse_runs_hd isspace 32%N (d :: s') d Ed eq_refl) as H.
    destruct (collapse_runs isspace 32%N (d :: s')); [exact I |].
    cbn in H. inversion H; subst. exact Ed.
  - cbn [single_spaced]. split; [congruence | exact IH].
Qed.

Lemma collapse_runs_none (p : N -> bool) (rep : N) (s : pystr) :
  Forall (fun c => p c = false) s -> collapse_runs p rep s = s.
Proof.
  induction 1 as [| c s Hc _ IH]; cbn [collapse_runs]; [reflexivity |].
  rewrite Hc, IH. reflexivity.
Qed.

Lemma single_spaced_chars (s : pystr) :
  single_spaced s -> Forall (fun c => isspace c = true -> c = 32%N) s.
Proof.
  induction s as [| c s IH]; cbn [single_spaced]; intros H; constructor.
  - intros Hc. apply H. exact Hc.
  - apply IH, H.
Qed.

Lemma single_spaced_no_newline (s : pystr) :
  single_spaced s -> Forall (fun c => N.eqb 10%N c = false) s.
Proof.
  intros H. apply single_spaced_chars in H.
  eapply Forall_impl; [| exact H]. intros c Hc. cbv beta in *.
  apply N.eqb_neq. intros <-. specialize (Hc eq_refl). discriminate.
Qed.

Lemma single_spaced_app_r (a b : pystr) :
  single_spaced (a ++ b) -> single_spaced b.
Proof.
  induction a as [| c a IH]; cbn [app single_spaced]; [tauto |].
  intros [_ H]. apply IH, H.
Qed.

Lemma single_spaced_app_l (a b : pystr) :
  single_spaced (a ++ b) -> single_spaced a.
Proof.
  induction a as [| c a IH]; cbn [app single_spaced]; [tauto |].
  intros [Hc H]. split; [| apply IH, H].
  intros Ec. destruct (Hc Ec) as [E Hn]. split; [exact E |].
  destruct a as [| d a']; [exact I | exact Hn].
Qed.

Lemma strip_single_spaced (s : pystr) :
  single_spaced s -> single_spaced (strip s).
Proof.
  intros H. unfold strip.
  destruct (dropwhile_split isspace s) as (a & Ea & _).
  destruct (rstrip_by_split isspace (lstrip_by isspace s)) as (r & Er & _).
  unfold lstrip_by in *. rewrite Ea in H. apply single_spaced_app_r in H.
  rewrite Er in H. apply single_spaced_app_l in H. exact H.
Qed.

Lemma dropwhile_hd_id {A : Type} (p : A -> bool) (l : list A) :
  (forall c, hd_error l = Some c -> p c = false) -> dropwhile p l = l.
Proof.
  destruct l as [| x l]; [reflexivity |]. cbn [dropwhile hd_error].
  intros H. rewrite (H x eq_refl). reflexivity.
Qed.

Lemma strip_trimmed_id (s : pystr) : trimmed s -> strip s = s.
Proof.
  intros [Hl Hr]. unfold strip, lstrip_by, rstrip_by.
  rewrite (dropwhile_hd_id isspace s Hl), (dropwhile_hd_id isspace (rev s) Hr).
  apply rev_involutive.
Qed.

Lemma collapse_runs_single_spaced_id (s : pystr) :
  single_spaced s -> collapse_runs isspace 32%N s = s.
Proof.
  induction s as [| c s IH]; cbn [single_spaced collapse_runs];
    [reflexivity |].
  intros [Hc Hs]. destruct (isspace c) eqn:Ec.
  - destruct (Hc eq_refl) as [-> Hn]. destruct s as [| d s']; [reflexivity |].
    rewrite Hn, (IH Hs). reflexivity.
  - rewrite (IH Hs). reflexivity.
Qed.

Lemma filter_nonspace_collapse (p : N -> bool) (rep : N) (s : pystr) :
  (forall c, p c = true -> isspace c = true) -> isspace rep = true ->
  filter nonspace (collapse_runs p rep s) = filter nonspace s.
Proof.
  intros Hp Hrep. unfold nonspace.
  induction s as [| c s IH]; cbn [collapse_runs filter]; [reflexivity |].
  destruct (p c) eqn:Ec.
  - rewrite (Hp c Ec). cbn [negb]. destruct s as [| d s']; cbn [filter].
    + rewrite Hrep. reflexivity.
    + destruct (p d) eqn:Ed; [exact IH |].
      cbn [filter]. rewrite Hrep. cbn [negb]. exact IH.
  - cbn [filter]. rewrite IH. reflexivity.
Qed.

Lemma filter_nonspace_dropwhile (s : pystr) :
  filter nonspace (dropwhile isspace s) = filter nonspace s.
Proof.
  unfold nonspace. induction s as [| c s IH]; cbn [dropwhile filter];
    [reflexivity |].
  destruct (isspace c) eqn:E; cbn [filter]; rewrite ?E; cbn [negb];
    [exact IH | reflexivity].
Qed.

Lemma filter_nonspace_strip (s : pystr) :
  filter nonspace (strip s) = filter nonspace s.
Proof.
  unfold strip, rstrip_by, lstrip_by.
  rewrite filter_rev, filter_nonspace_dropwhile, filter_rev, rev_involutive.
  apply filter_nonspace_dropwhile.
Qed.

Lemma clean_text_normalized (text : pystr) : normalized (_clean_text text).
Proof.
  unfold _clean_text.
  rewrite (collapse_runs_none (N.eqb 10%N) 10%N)
    by (apply single_spaced_no_newline, collapse_runs_single_spaced).
  split; [apply strip_trimmed |].
  apply strip_single_spaced, collapse_runs_single_spaced.
Qed.

Lemma clean_text_normalized_id (s : pystr) : normalized s -> _clean_text s = s.
Proof.
  intros [Ht Hs]. unfold _clean_text.
  rewrite (collapse_runs_single_spaced_id s Hs).
  rewrite (collapse_runs_none (N.eqb 10%N) 10%N)
    by (apply single_spaced_no_newline; exact Hs).
  apply strip_trimmed_id. exact Ht.
Qed.

(** X11: [_clean_text] normalises whitespace and nothing else.  Its result
    has no leading or trailing whitespace and every whitespace character in
    it is a single space between two other characters (so no line feed
    survives the first substitution and the second one never applies); the
    non-whitespace characters are those of the input, in order; and
    cleaning is idempotent. *)
Theorem clean_text_spec (text : pystr) :
  normalized (_clean_text text)
  /\ ~ In 10%N (_clean_text text)
  /\ filter nonspace (_clean_text text) = filter nonspace text
  /\ _clean_text (_clean_text text) = _clean_text text
  /\ collapse_runs (N.eqb 10%N) 10%N (collapse_runs isspace 32%N text)
     = collapse_runs isspace 32%N text.
Proof.
  pose proof (clean_text_normalized text) as Hn.
  split; [exact Hn |]. split; [| split; [| split]].
  - intros Hin. destruct Hn as [_ Hs]. apply single_spaced_chars in Hs.
    rewrite Forall_forall in Hs. specialize (Hs _ Hin eq_refl). discriminate.
  - unfold _clean_text.
    rewrite filter_nonspace_strip, !filter_nonspace_collapse; auto.
    intros c Hc. apply N.eqb_eq in Hc. subst c. reflexivity.
  - apply clean_text_normalized_id. exact Hn.
  - apply collapse_runs_none, single_spaced_no_newline,
      collapse_runs_single_spaced.
Qed.

(* ================================================================== *)
(** * rfind and _find_sentence_boundary *)
(* ================================================================== *)

Lemma occurs_at_cons (sub : pystr) (c : N) (s : pystr) (j : nat) :
  occurs_at sub (c :: s) (S j) <-> occurs_at sub s j.
Proof. unfold occurs_at. cbn [List.length skipn]. split; intros [H1 H2]; split; auto; lia. Qed.

(** [rfind_from] returns the highest index of an occurrence, counted from
    [i], and [-1] exactly when there is none. *)
Lemma rfind_from_spec (sub s : pystr) : forall i, 0 <= i ->
  (rfind_from sub s i = -1 /\ forall j, ~ occurs_at sub s j)
  \/ (exists j, rfind_from sub s i = i + Z.of_nat j
                /\ occurs_at sub s j
                /\ forall j', occurs_at sub s j' -> (j' <= j)%nat).
Proof.
  induction s as [| c s IH]; intros i Hi; cbn [rfind_from].
  - destruct (starts_with sub []) eqn:E.
    + right. exists 0%nat. split; [lia |]. split.
      * split; [cbn; lia | exact E].
      * intros j' [Hj _]. cbn in Hj. lia.
    + left. split; [reflexivity |]. intros j [Hj Hs]. cbn in Hj.
      replace j with 0%nat in Hs by lia. cbn [skipn] in Hs. congruence.
  - destruct (IH (i + 1)) as [[E Hnone] | (j & E & Hocc & Hmax)]; [lia | |].
    + rewrite E. cbn [Z.eqb Pos.eqb].
      destruct (starts_with sub (c :: s)) eqn:Es.
      * right. exists 0%nat. split; [lia |]. split.
        -- split; [cbn; lia | exact Es].
        -- intros [| j'] Hj'; [lia |]. apply occurs_at_cons in Hj'.
           exfalso. exact (Hnone j' Hj').
      * left. split; [reflexivity |]. intros [| j] Hj.
        -- destruct Hj as [_ Hj]. cbn [skipn] in Hj. congruence.
        -- apply occurs_at_cons in Hj. exact (Hnone j Hj).
    + rewrite E. replace (i + 1 + Z.of_nat j =? -1) with false
        by (symmetry; apply Z.eqb_neq; lia).
      right. exists (S j). split; [lia |]. split.
      * apply occurs_at_cons. exact Hocc.
      * intros [| j'] Hj'; [lia |]. apply occurs_at_cons in Hj'.
        apply Hmax in Hj'. lia.
Qed.

Lemma rfind_spec (s sub : pystr) :
  (rfind s sub = -1 /\ forall j, ~ occurs_at sub s j)
  \/ (exists j, rfind s sub = Z.of_nat j
                /\ occurs_at sub s j
                /\ forall j', occurs_at sub s j' -> (j' <= j)%nat).
Proof.
  unfold rfind. destruct (rfind_from_spec sub s 0) as [H | (j & E & H)];
    [lia | now left |].
  right. exists j. split; [rewrite E; lia | exact H].
Qed.

(** The search through a list of two-character delimiters. *)
Lemma find_boundary_in_spec (text : pystr) (ds : list pystr) :
  Forall (fun d => len d = 2) ds ->
  (find_boundary_in ds text = -1
   /\ forall d j, In d ds -> ~ occurs_at d text j)
  \/ (exists before d after j,
        ds = before ++ d :: after
        /\ find_boundary_in ds text = Z.of_nat j + 1
        /\ occurs_at d text j
        /\ (forall j', occurs_at d text j' -> (j' <= j)%nat)
        /\ forall d' j', In d' before -> ~ occurs_at d' text j').
Proof.
  induction 1 as [| d ds Hd _ IH]; cbn [find_boundary_in].
  - left. split; [reflexivity |]. intros d j [].
  - destruct (rfind_spec text d) as [[E Hnone] | (j & E & Hocc & Hmax)].
    + rewrite E. cbn [Z.eqb Pos.eqb].
      destruct IH as [[E' Hnone'] | (before & d0 & after & j & Eds & E' & H)].
      * left. split; [exact E' |]. intros d' j [<- | Hin]; auto.
      * right. exists (d :: before), d0, after, j.
        split; [rewrite Eds; reflexivity |]. split; [exact E' |].
        destruct H as (H1 & H2 & H3). split; [exact H1 |]. split; [exact H2 |].
        intros d' j' [<- | Hin]; auto.
    + rewrite E. replace (Z.of_nat j =? -1) with false
        by (symmetry; apply Z.eqb_neq; lia).
      right. exists [], d, ds, j. split; [reflexivity |].
      split; [rewrite Hd; lia |]. split; [exact Hocc |]. split; [exact Hmax |].
      intros d' j' [].
Qed.

(** X12: [_find_sentence_boundary] returns [-1] exactly when none of the six
    delimiters occurs in the text.  Otherwise it returns the index of the
    whitespace character that closes the last occurrence of the first
    delimiter, in the order [". ", "! ", "? ", ".\n", "!\n", "?\n"], that
    occurs at all: delimiters earlier in that order do not occur, while
    later ones may occur further right. *)
Theorem find_sentence_boundary_spec (text : pystr) :
  (_find_sentence_boundary text = -1
   <-> forall d j, In d delimiters -> ~ occurs_at d text j)
  /\ (_find_sentence_boundary text <> -1 ->
      exists before d after j,
        delimiters = before ++ d :: after
        /\ _find_sentence_boundary text = Z.of_nat j + 1
        /\ occurs_at d text j
        /\ (forall j', occurs_at d text j' -> (j' <= j)%nat)
        /\ forall d' j', In d' before -> ~ occurs_at d' text j').
Proof.
  unfold _find_sentence_boundary.
  assert (Hlen : Forall (fun d => len d = 2) delimiters)
    by (repeat constructor).
  destruct (find_boundary_in_spec text delimiters Hlen)
    as [[E Hnone] | (before & d & after & j & Eds & E & Hocc & Hmax & Hbef)].
  - split; [tauto | congruence].
  - split.
    + split; [lia |]. intros Hnone. exfalso. apply (Hnone d j); [| exact Hocc].
      rewrite Eds. apply in_or_app. right. now left.
    + intros _. exists before, d, after, j. auto.
Qed.

Lemma find_sentence_boundary_spec_witness :
  _find_sentence_boundary (of_string "Hi! Yes. No") <> -1
  /\ exists before d after j,
       delimiters = before ++ d :: after
       /\ _find_sentence_boundary (of_string "Hi! Yes. No") = Z.of_nat j + 1
       /\ occurs_at d (of_string "Hi! Yes. No") j
       /\ (forall j', occurs_at d (of_string "Hi! Yes. No") j' -> (j' <= j)%nat)
       /\ forall d' j', In d' before ->
                        ~ occurs_at d' (of_string "Hi! Yes. No") j'.
Proof.
  assert (H : _find_sentence_boundary (of_string "Hi! Yes. No") <> -1)
    by (vm_compute; discriminate).
  split; [exact H |].
  exact (proj2 (find_sentence_boundary_spec (of_string "Hi! Yes. No")) H).
Defined.

(* ================================================================== *)
(** * More on [create_chunks] *)
(* ================================================================== *)

(** The loop invariant rule with the chunk counter in the invariant. *)
Lemma create_chunks_loop_invariant_id (self : DocumentProcessor) (text : pystr)
    (I : list Chunk -> Z -> Z -> Prop) :
  (forall chunks chunk_id start,
      I chunks start chunk_id -> start < len text ->
      let end_ := window_end self text start in
      I (fst (emit chunks chunk_id text start end_))
        (end_ - chunk_overlap self)
        (snd (emit chunks chunk_id text start end_))) ->
  forall fuel chunks start chunk_id,
    I chunks start chunk_id ->
    exists start' chunk_id',
      I (emitted (create_chunks_loop fuel self text chunks start chunk_id))
        start' chunk_id'.
Proof.
  intros Hstep. induction fuel as [| fuel IH]; intros chunks start chunk_id HI.
  - exists start, chunk_id. exact HI.
  - cbn [create_chunks_loop].
    destruct (start <? len text) eqn:E; [| exists start, chunk_id; exact HI].
    apply Z.ltb_lt in E. specialize (Hstep chunks chunk_id start HI E).
    cbv zeta in Hstep.
    destruct (emit chunks chunk_id text start (window_end self text start))
      as [chunks' chunk_id'].
    cbn [fst snd] in Hstep.
    destruct (window_end self text start - chunk_overlap self
              >=? len text - chunk_overlap self).
    + do 2 eexists. exact Hstep.
    + apply IH. exact Hstep.
Qed.

Lemma py_slice_fits_upper {A : Type} (l : list A) (a b : Z) :
  (0 <= a -> 0 <= b) -> len (py_slice l a b) <= Z.max 0 (b - a).
Proof.
  intros Hab. rewrite len_py_slice. pose proof (len_nonneg l).
  unfold norm_index.
  destruct (a <? 0) eqn:Ea; [apply Z.ltb_lt in Ea | apply Z.ltb_ge in Ea];
    destruct (b <? 0) eqn:Eb; [apply Z.ltb_lt in Eb | apply Z.ltb_ge in Eb
                              | apply Z.ltb_lt in Eb | apply Z.ltb_ge in Eb];
    lia.
Qed.

Lemma len_strip (s : pystr) : len (strip s) <= len s.
Proof.
  unfold strip.
  destruct (dropwhile_split isspace s) as (a & Ea & _).
  destruct (rstrip_by_split isspace (lstrip_by isspace s)) as (r & Er & _).
  unfold lstrip_by in *.
  rewrite Ea at 2. rewrite len_app. rewrite Er at 2. rewrite len_app.
  pose proof (len_nonneg a). pose proof (len_nonneg r). lia.
Qed.

Lemma window_end_upper (self : DocumentProcessor) (text : pystr) (start : Z) :
  0 <= chunk_size self ->
  window_end self text start <= start + chunk_size self + 100.
Proof.
  intros Hcs. unfold window_end.
  destruct (start + chunk_size self <? len text); [| lia].
  set (ws := Z.max start (start + chunk_size self - 100)).
  set (we := Z.min (len text) (start + chunk_size self + 100)).
  destruct (_find_sentence_boundary (py_slice text ws we) =? -1) eqn:E;
    cbn [negb]; [lia |].
  apply Z.eqb_neq, find_sentence_boundary_range in E.
  pose proof (py_slice_fits_upper text ws we) as Hup.
  pose proof (len_nonneg text). subst ws we. lia.
Qed.

(** X13: the fields of the chunks that [create_chunks] emits, in a run of
    any length.  Ids count up from 0 in emission order.  Each chunk's text
    is the window [text[start_pos:end_pos]] with surrounding whitespace
    removed, so it has no leading or trailing whitespace; [length] is the
    length of that text, at least 1 and at most [end_pos - start_pos],
    which is at most [chunk_size + 100]. *)
Theorem create_chunks_chunk_fields (self : DocumentProcessor) (text : pystr)
    (fuel : nat) :
  1 <= chunk_size self ->
  map c_id (emitted (create_chunks_run fuel self text))
  = map Z.of_nat
      (seq 0 (List.length (emitted (create_chunks_run fuel self text))))
  /\ Forall (fun c =>
               c_text c = strip (py_slice text (start_pos c) (end_pos c))
               /\ trimmed (c_text c)
               /\ c_length c = len (c_text c)
               /\ 1 <= c_length c <= end_pos c - start_pos c
               /\ end_pos c - start_pos c <= chunk_size self + 100)
       (emitted (create_chunks_run fuel self text)).
Proof.
  intros Hcs. unfold create_chunks_run.
  destruct (create_chunks_loop_invariant_id self text
              (fun chunks _ chunk_id =>
                 chunk_id = len chunks
                 /\ map c_id chunks = map Z.of_nat (seq 0 (List.length chunks))
                 /\ Forall (fun c =>
                      c_text c = strip (py_slice text (start_pos c) (end_pos c))
                      /\ trimmed (c_text c)
                      /\ c_length c = len (c_text c)
                      /\ 1 <= c_length c <= end_pos c - start_pos c
                      /\ end_pos c - start_pos c <= chunk_size self + 100)
                      chunks))
    with (fuel := fuel) (chunks := @nil Chunk) (start := 0) (chunk_id := 0)
    as (_ & _ & _ & H1 & H2); [| repeat split; constructor | split; assumption].
  intros chunks chunk_id start (Hid & Hids & Hall) _. cbv zeta.
  destruct (emit_cases self text chunks chunk_id start) as [[Ht E] | E];
    rewrite E; cbn [fst snd]; [| auto].
  split; [rewrite len_app; change (len [chunk_at self text chunk_id start])
                             with 1; lia |].
  split.
  - rewrite map_app, length_app, seq_app, map_app, Hids. cbn [List.length seq map].
    unfold chunk_at. cbn [c_id]. f_equal. f_equal. unfold len in Hid. lia.
  - apply Forall_app. split; [exact Hall |]. constructor; [| constructor].
    unfold chunk_at. cbn [c_text start_pos end_pos c_length].
    set (e := window_end self text start) in *.
    split; [reflexivity |]. split; [apply strip_trimmed |].
    split; [reflexivity |].
    assert (Hlo : start < e).
    { subst e. destruct (window_end_cases self text start); lia. }
    pose proof (window_end_upper self text start ltac:(lia)) as Hup.
    fold e in Hup.
    pose proof (len_strip (py_slice text start e)) as Hs.
    pose proof (py_slice_fits_upper text start e ltac:(lia)) as Hp.
    assert (Hpos : 1 <= len (strip (py_slice text start e))).
    { destruct (strip (py_slice text start e)); [discriminate |].
      unfold len. cbn [List.length]. lia. }
    lia.
Qed.

Lemma create_chunks_chunk_fields_witness :
  1 <= chunk_size default_processor
  /\ map c_id (emitted (create_chunks_run 4 default_processor (repeat 98%N 1200)))
     = map Z.of_nat
         (seq 0 (List.length
                   (emitted (create_chunks_run 4 default_processor
                               (repeat 98%N 1200))))).
Proof.
  assert (H : 1 <= chunk_size default_processor) by (cbn; lia).
  split; [exact H |].
  exact (proj1 (create_chunks_chunk_fields default_processor
                  (repeat 98%N 1200) 4 H)).
Defined.

Lemma py_slice_all {A : Type} (l : list A) (b : Z) :
  len l <= b -> py_slice l 0 b = l.
Proof.
  intros Hb. pose proof (len_nonneg l). unfold py_slice, norm_index.
  replace (0 <? 0) with false by reflexivity.
  replace (b <? 0) with false by (symmetry; apply Z.ltb_ge; lia).
  rewrite (Z.min_l 0 (len l)), (Z.min_r b (len l)) by lia.
  cbn [Z.to_nat skipn]. rewrite Z.sub_0_r. unfold len. rewrite Nat2Z.id.
  apply firstn_all.
Qed.

(** X14: a text no longer than [chunk_size] is chunked in one iteration:
    [create_chunks] returns the single chunk with id 0, the stripped text,
    [start_pos = 0] and [end_pos = chunk_size], or no chunk at all when the
    text is empty or blank. *)
Theorem create_chunks_short_text_spec (self : DocumentProcessor) (text : pystr)
    (fuel : nat) :
  len text <= chunk_size self ->
  create_chunks (S fuel) self text
  = Some (if truthy (strip text)
          then [mkChunk 0 (strip text) 0 (chunk_size self) (len (strip text))]
          else []).
Proof.
  intros Hlen. unfold create_chunks, create_chunks_run.
  cbn [create_chunks_loop].
  destruct (0 <? len text) eqn:E.
  - assert (Hw : window_end self text 0 = chunk_size self).
    { unfold window_end. cbn [Z.add].
      replace (chunk_size self <? len text) with false
        by (symmetry; apply Z.ltb_ge; lia).
      reflexivity. }
    rewrite Hw. unfold emit. rewrite (py_slice_all text _ Hlen).
    replace (chunk_size self - chunk_overlap self
             >=? len text - chunk_overlap self) with true
      by (symmetry; apply Z.geb_le; lia).
    destruct (truthy (strip text)); reflexivity.
  - apply Z.ltb_ge in E. pose proof (len_nonneg text).
    destruct text as [| c t]; [reflexivity |].
    unfold len in E. cbn [List.length] in E. lia.
Qed.

Lemma create_chunks_short_text_spec_witness :
  len hello <= chunk_size default_processor
  /\ create_chunks 1 default_processor hello
     = Some (if truthy (strip hello)
             then [mkChunk 0 (strip hello) 0 (chunk_size default_processor)
                     (len (strip hello))]
             else []).
Proof.
  assert (H : len hello <= chunk_size default_processor)
    by (vm_compute; discriminate).
  split; [exact H |].
  exact (create_chunks_short_text_spec default_processor hello 0 H).
Defined.

(* ================================================================== *)
(** * Coverage of a cleaned text *)
(* ================================================================== *)

Lemma dropwhile_keeps {A : Type} (p : A -> bool) (l : list A) (x : A) :
  In x l -> p x = false -> In x (dropwhile p l).
Proof.
  induction l as [| y l IH]; cbn [dropwhile In]; [tauto |].
  intros [-> | H] Hx.
  - rewrite Hx. now left.
  - destruct (p y); [auto | now right].
Qed.

Lemma strip_keeps (s : pystr) (x : N) :
  In x s -> isspace x = false -> truthy (strip s) = true.
Proof.
  intros Hin Hx.
  assert (H : In x (strip s)).
  { unfold strip, rstrip_by, lstrip_by. rewrite <- in_rev.
    apply dropwhile_keeps; [| exact Hx]. rewrite <- in_rev.
    apply dropwhile_keeps; assumption. }
  destruct (strip s); [contradiction | reflexivity].
Qed.

Lemma py_slice_In {A : Type} (l : list A) (a b : Z) (j : nat) (x : A) :
  0 <= a -> a <= Z.of_nat j < b -> nth_error l j = Some x ->
  In x (py_slice l a b).
Proof.
  intros Ha Hj Hx.
  assert (Hlt : (j < List.length l)%nat)
    by (apply nth_error_Some; congruence).
  unfold py_slice, norm_index, len.
  replace (a <? 0) with false by (symmetry; apply Z.ltb_ge; lia).
  replace (b <? 0) with false by (symmetry; apply Z.ltb_ge; lia).
  rewrite (Z.min_l a) by lia.
  apply (nth_error_In _ (j - Z.to_nat a)).
  rewrite nth_error_firstn.
  replace (j - Z.to_nat a <? Z.to_nat (Z.min b (Z.of_nat (List.length l)) - a))%nat
    with true by (symmetry; apply Nat.ltb_lt; lia).
  rewrite nth_error_skipn. replace (Z.to_nat a + (j - Z.to_nat a))%nat with j
    by lia.
  exact Hx.
Qed.

(** In a cleaned text a whitespace character is followed by a character
    that is not whitespace. *)
Lemma normalized_after_space (text : pystr) (i : nat) (c : N) :
  normalized text -> nth_error text i = Some c -> isspace c = true ->
  exists d, nth_error text (S i) = Some d /\ isspace d = false.
Proof.
  intros [[_ Hr] Hs] Hc Ec.
  destruct (nth_error_split text i Hc) as (a & b & E & Hlen). subst text.
  apply single_spaced_app_r in Hs. cbn [single_spaced] in Hs.
  destruct Hs as [Hs _]. destruct (Hs Ec) as [_ Hn].
  destruct b as [| d b].
  - exfalso. rewrite rev_app_distr in Hr. cbn [rev app hd_error] in Hr.
    specialize (Hr c eq_refl). congruence.
  - exists d. split; [| exact Hn].
    rewrite nth_error_app2 by lia. rewrite Hlen.
    replace (S i - i)%nat with 1%nat by lia. reflexivity.
Qed.

(** A window of at least two characters that starts inside a cleaned text
    is not blank. *)
Lemma window_not_blank (text : pystr) (start e : Z) :
  normalized text -> 0 <= start < len text -> start + 2 <= e ->
  truthy (strip (py_slice text start e)) = true.
Proof.
  intros Hn Hs He.
  destruct (nth_error text (Z.to_nat start)) as [c |] eqn:Ec.
  2:{ apply nth_error_None in Ec. unfold len in Hs. lia. }
  destruct (isspace c) eqn:Es.
  - destruct (normalized_after_space text _ c Hn Ec Es) as (d & Ed & Hd).
    apply (strip_keeps _ d); [| exact Hd].
    apply (py_slice_In text start e (S (Z.to_nat start))); [lia | lia | exact Ed].
  - apply (strip_keeps _ c); [| exact Es].
    apply (py_slice_In text start e (Z.to_nat start)); [lia | lia | exact Ec].
Qed.

Lemma chained_snoc (overlap : Z) (chunks : list Chunk) (c : Chunk) :
  chained overlap chunks ->
  (chunks = []
   \/ start_pos c = end_pos (last chunks dummy_chunk) - overlap) ->
  chained overlap (chunks ++ [c]).
Proof.
  induction chunks as [| c0 rest IH]; intros Hch Hlast; cbn [app];
    [exact I |].
  destruct rest as [| c1 rest'].
  - cbn [app chained]. destruct Hlast as [H | H]; [discriminate |].
    cbn [last] in H. auto.
  - cbn [chained] in Hch |- *. destruct Hch as [H01 Hch].
    change ((c1 :: rest') ++ [c]) with (c1 :: rest' ++ [c]) in *.
    split; [exact H01 |]. apply IH; [exact Hch |].
    right. destruct Hlast as [H | H]; [discriminate | exact H].
Qed.

Lemma chained_covers (overlap : Z) (rest : list Chunk) : forall c i,
  0 <= overlap -> chained overlap (c :: rest) ->
  start_pos c <= i < end_pos (last (c :: rest) dummy_chunk) ->
  exists c', In c' (c :: rest) /\ start_pos c' <= i < end_pos c'.
Proof.
  induction rest as [| c1 rest IH]; intros c i Hov Hch Hi.
  - exists c. cbn [last] in Hi. split; [now left | exact Hi].
  - destruct (Z.lt_ge_cases i (end_pos c)) as [Hlt | Hge].
    + exists c. split; [now left | lia].
    + cbn [chained] in Hch. destruct Hch as [H01 Hch].
      destruct (IH c1 i Hov Hch) as (c' & Hin & Hc').
      * change (last (c :: c1 :: rest) dummy_chunk)
          with (last (c1 :: rest) dummy_chunk) in Hi. lia.
      * exists c'. split; [now right | exact Hc'].
Qed.

(** The loop on a cleaned text with advancing parameters: it returns, and
    what it returns is a chain that starts where [chunks] left off and ends
    at or past the end of the text. *)
Lemma create_chunks_loop_chain (self : DocumentProcessor) (text : pystr) :
  0 <= chunk_overlap self < chunk_size self -> advancing self ->
  2 <= chunk_size self -> normalized text ->
  forall fuel chunks start chunk_id,
    0 <= start < len text -> len text - start <= Z.of_nat (S fuel) ->
    chained (chunk_overlap self) chunks ->
    (chunks = []
     \/ start = end_pos (last chunks dummy_chunk) - chunk_overlap self) ->
    exists more,
      create_chunks_loop (S fuel) self text chunks start chunk_id
      = Returned (chunks ++ more)
      /\ more <> []
      /\ start_pos (hd dummy_chunk more) = start
      /\ chained (chunk_overlap self) (chunks ++ more)
      /\ len text <= end_pos (last more dummy_chunk).
Proof.
  intros Hp Hadv Hcs Hn.
  induction fuel as [| fuel IH]; intros chunks start chunk_id Hs Hf Hch Hlast.
  - cbn [create_chunks_loop].
    replace (start <? len text) with true by (symmetry; apply Z.ltb_lt; lia).
    pose proof (window_end_advances self text start Hp Hadv) as Hadv'.
    assert (He : start + 2 <= window_end self text start)
      by (destruct (window_end_cases self text start); lia).
    destruct (emit_cases self text chunks chunk_id start) as [[_ E] | E].
    2:{ exfalso. unfold emit in E.
        rewrite (window_not_blank text start _ Hn Hs He) in E.
        apply (f_equal snd) in E. cbn [snd] in E. lia. }
    rewrite E.
    replace (window_end self text start - chunk_overlap self
             >=? len text - chunk_overlap self) with true
      by (symmetry; apply Z.geb_le; lia).
    exists [chunk_at self text chunk_id start].
    split; [reflexivity |]. split; [discriminate |]. split; [reflexivity |].
    split; [apply chained_snoc; assumption |].
    cbn [last]. unfold chunk_at. cbn [end_pos]. lia.
  - remember (S fuel) as n eqn:En. cbn [create_chunks_loop].
    replace (start <? len text) with true by (symmetry; apply Z.ltb_lt; lia).
    pose proof (window_end_advances self text start Hp Hadv) as Hadv'.
    assert (He : start + 2 <= window_end self text start)
      by (destruct (window_end_cases self text start); lia).
    destruct (emit_cases self text chunks chunk_id start) as [[_ E] | E].
    2:{ exfalso. unfold emit in E.
        rewrite (window_not_blank text start _ Hn Hs He) in E.
        apply (f_equal snd) in E. cbn [snd] in E. lia. }
    rewrite E.
    assert (Hch' : chained (chunk_overlap self)
                     (chunks ++ [chunk_at self text chunk_id start]))
      by (apply chained_snoc; assumption).
    destruct (window_end self text start - chunk_overlap self
              >=? len text - chunk_overlap self) eqn:G.
    + apply Z.geb_le in G.
      exists [chunk_at self text chunk_id start].
      split; [reflexivity |]. split; [discriminate |]. split; [reflexivity |].
      split; [exact Hch' |].
      cbn [last]. unfold chunk_at. cbn [end_pos]. lia.
    + assert (G' : window_end self text start - chunk_overlap self
                   < len text - chunk_overlap self).
      { rewrite Z.geb_leb in G. apply Z.leb_gt in G. exact G. }
      subst n.
      destruct (IH (chunks ++ [chunk_at self text chunk_id start])
                  (window_end self text start - chunk_overlap self)
                  (chunk_id + 1)) as (more & E' & Hne & Hhd & Hch'' & Hend).
      * lia.
      * lia.
      * exact Hch'.
      * right. rewrite last_last. unfold chunk_at. cbn [end_pos]. reflexivity.
      * exists (chunk_at self text chunk_id start :: more).
        rewrite E', <- app_assoc. cbn [app].
        split; [reflexivity |]. split; [discriminate |].
        split; [reflexivity |].
        split; [rewrite <- app_assoc in Hch''; exact Hch'' |].
        destruct more as [| m more']; [congruence |]. exact Hend.
Qed.

(** X16: chunk coverage.  With advancing parameters and a chunk size of at
    least 2, on a non-empty cleaned text (as [_clean_text] produces it)
    [create_chunks] returns a non-empty sequence in which the first chunk
    starts at offset 0, every next chunk starts exactly [chunk_overlap]
    characters before the end of the previous one, and the last chunk ends
    at or past the end of the text: every offset of the text lies in the
    window of some chunk. *)
Theorem create_chunks_covers_text (self : DocumentProcessor) (text : pystr) :
  0 <= chunk_overlap self < chunk_size self -> advancing self ->
  2 <= chunk_size self -> normalized text -> text <> [] ->
  exists chunks,
    create_chunks (S (List.length text)) self text = Some chunks
    /\ chunks <> []
    /\ start_pos (hd dummy_chunk chunks) = 0
    /\ chained (chunk_overlap self) chunks
    /\ len text <= end_pos (last chunks dummy_chunk)
    /\ forall i, 0 <= i < len text ->
         exists c, In c chunks /\ start_pos c <= i < end_pos c.
Proof.
  intros Hp Hadv Hcs Hn Hne.
  assert (Hlen : 0 < len text).
  { destruct text; [congruence |]. unfold len. cbn [List.length]. lia. }
  destruct (create_chunks_loop_chain self text Hp Hadv Hcs Hn
              (List.length text) [] 0 0)
    as (chunks & E & Hne' & Hhd & Hch & Hend);
    [lia | unfold len; lia | exact I | now left |].
  cbn [app] in E, Hch. exists chunks.
  unfold create_chunks, create_chunks_run. rewrite E.
  split; [reflexivity |]. split; [exact Hne' |]. split; [exact Hhd |].
  split; [exact Hch |]. split; [exact Hend |].
  intros i Hi. destruct chunks as [| c rest]; [congruence |].
  apply (chained_covers (chunk_overlap self) rest c i); [lia | exact Hch |].
  cbn [hd] in Hhd. lia.
Qed.

Lemma create_chunks_covers_text_witness :
  0 <= chunk_overlap default_processor < chunk_size default_processor
  /\ advancing default_processor
  /\ 2 <= chunk_size default_processor
  /\ normalized (_clean_text (of_string "  two   words "))
  /\ _clean_text (of_string "  two   words ") <> []
  /\ exists chunks,
       create_chunks
         (S (List.length (_clean_text (of_string "  two   words "))))
         default_processor (_clean_text (of_string "  two   words "))
       = Some chunks
       /\ forall i, 0 <= i < len (_clean_text (of_string "  two   words ")) ->
            exists c, In c chunks /\ start_pos c <= i < end_pos c.
Proof.
  assert (H1 : 0 <= chunk_overlap default_processor
               < chunk_size default_processor) by (cbn; lia).
  assert (H2 : advancing default_processor) by (left; cbn; lia).
  assert (H3 : 2 <= chunk_size default_processor) by (cbn; lia).
  pose proof (clean_text_normalized (of_string "  two   words ")) as H4.
  assert (H5 : _clean_text (of_string "  two   words ") <> [])
    by (vm_compute; discriminate).
  split; [exact H1 |]. split; [exact H2 |]. split; [exact H3 |].
  split; [exact H4 |]. split; [exact H5 |].
  destruct (create_chunks_covers_text default_processor
              (_clean_text (of_string "  two   words ")) H1 H2 H3 H4 H5)
    as (chunks & E & _ & _ & _ & _ & Hcov).
  exists chunks. split; [exact E | exact Hcov].
Defined.

(* ================================================================== *)
(** * process_pdf *)
(* ================================================================== *)

Lemma joined_pages_nonspace (pages : list pystr) : forall acc,
  filter nonspace
    (fold_left (fun text page_text =>
                  if truthy page_text then text ++ page_text ++ [10%N]
                  else text) pages acc)
  = filter nonspace acc ++ flat_map (filter nonspace) pages.
Proof.
  induction pages as [| page pages IH]; intros acc; cbn [fold_left flat_map].
  - rewrite app_nil_r. reflexivity.
  - rewrite IH. destruct page as [| c page']; cbn [truthy].
    + reflexivity.
    + rewrite !filter_app. cbn [filter]. rewrite app_nil_r, <- app_assoc.
      reflexivity.
Qed.

Lemma single_spaced_py_slice (text : pystr) (a b : Z) :
  single_spaced text -> single_spaced (py_slice text a b).
Proof.
  intros H. unfold py_slice.
  set (n := Z.to_nat (norm_index (len text) a)).
  set (m := Z.to_nat (norm_index (len text) b - norm_index (len text) a)).
  rewrite <- (firstn_skipn n text) in H. apply single_spaced_app_r in H.
  rewrite <- (firstn_skipn m (skipn n text)) in H.
  apply single_spaced_app_l in H. exact H.
Qed.

Lemma clean_text_empty_iff (text : pystr) :
  _clean_text text = [] <-> filter nonspace text = [].
Proof.
  pose proof (clean_text_normalized text) as [[Hl _] _].
  assert (Hf : filter nonspace (_clean_text text) = filter nonspace text).
  { unfold _clean_text.
    rewrite filter_nonspace_strip, !filter_nonspace_collapse; auto.
    intros c Hc. apply N.eqb_eq in Hc. subst c. reflexivity. }
  split.
  - intros E. rewrite <- Hf, E. reflexivity.
  - intros E. rewrite <- Hf in E.
    destruct (_clean_text text) as [| c t]; [reflexivity |].
    cbn [filter] in E. unfold nonspace in E at 1.
    rewrite (Hl c eq_refl) in E. discriminate.
Qed.

Lemma flat_map_empty_iff {X Y : Type} (f : X -> list Y) (xs : list X) :
  flat_map f xs = [] <-> forall x, In x xs -> f x = [].
Proof.
  induction xs as [| x xs IH]; cbn [flat_map].
  - split; [intros _ x [] | reflexivity].
  - split.
    + intros E. apply app_eq_nil in E. destruct E as [E1 E2].
      intros y [<- | Hy]; [exact E1 | apply IH; assumption].
    + intros H. rewrite (H x (or_introl eq_refl)). cbn [app].
      apply IH. intros y Hy. apply H. now right.
Qed.

(** X17: the pipeline [process_pdf] with advancing parameters and a chunk
    size of at least 2, as a function of the page texts.  It returns; it
    returns no chunk exactly when no page contains a character that is not
    whitespace; otherwise the chunk windows cover the extracted text from
    offset 0 to its end; and the text of every chunk is clean: no leading or
    trailing whitespace and only single spaces inside. *)
Theorem process_pdf_spec (self : DocumentProcessor) (pages : list pystr) :
  0 <= chunk_overlap self < chunk_size self -> advancing self ->
  2 <= chunk_size self ->
  let text := extract_text_from_pdf pages in
  exists chunks,
    process_pdf (S (List.length text)) self pages = Some chunks
    /\ (chunks = [] <-> forall page, In page pages -> filter nonspace page = [])
    /\ (forall i, 0 <= i < len text ->
          exists c, In c chunks /\ start_pos c <= i < end_pos c)
    /\ Forall (fun c => normalized (c_text c)) chunks.
Proof.
  intros Hp Hadv Hcs. cbv zeta. unfold process_pdf.
  set (text := extract_text_from_pdf pages).
  assert (Hn : normalized text) by apply clean_text_normalized.
  assert (Hempty : text = []
                   <-> forall page, In page pages -> filter nonspace page = []).
  { unfold text, extract_text_from_pdf. rewrite clean_text_empty_iff.
    unfold joined_pages. rewrite joined_pages_nonspace. cbn [filter app].
    apply flat_map_empty_iff. }
  assert (Hclean : forall fuel,
            Forall (fun c => normalized (c_text c))
              (emitted (create_chunks_run fuel self text))).
  { intros fuel. unfold create_chunks_run.
    assert (Hstep : forall chunks chunk_id start,
              Forall (fun c => normalized (c_text c)) chunks ->
              start < len text ->
              let end_ := window_end self text start in
              Forall (fun c => normalized (c_text c))
                (fst (emit chunks chunk_id text start end_))).
    2: { destruct (create_chunks_loop_invariant self text
                     (fun chunks _ =>
                        Forall (fun c => normalized (c_text c)) chunks)
                     Hstep fuel [] 0 0 (Forall_nil _)) as [_ H].
         exact H. }
    intros chunks chunk_id start HI _. cbv zeta.
    destruct (emit_cases self text chunks chunk_id start) as [[_ E] | E];
      rewrite E; cbn [fst]; [| exact HI].
    apply Forall_app. split; [exact HI |]. constructor; [| constructor].
    unfold chunk_at. cbn [c_text]. split; [apply strip_trimmed |].
    apply strip_single_spaced, single_spaced_py_slice, Hn. }
  destruct text as [| c0 t0] eqn:Et.
  - exists []. split; [reflexivity |]. split; [| split].
    + split; [intros _; apply Hempty; reflexivity | reflexivity].
    + intros i Hi. unfold len in Hi. cbn in Hi. lia.
    + constructor.
  - rewrite <- Et in *.
    assert (Hne : text <> []) by (rewrite Et; discriminate).
    destruct (create_chunks_covers_text self text Hp Hadv Hcs Hn Hne)
      as (chunks & E & Hne' & _ & _ & _ & Hcov).
    exists chunks. split; [exact E |]. split; [| split].
    + split; [intros H; congruence |].
      intros H. apply Hempty in H. congruence.
    + exact Hcov.
    + specialize (Hclean (S (List.length text))).
      unfold create_chunks in E.
      destruct (create_chunks_run (S (List.length text)) self text);
        [| discriminate].
      inversion E; subst. exact Hclean.
Qed.

Lemma process_pdf_spec_witness :
  0 <= chunk_overlap default_processor < chunk_size default_processor
  /\ advancing default_processor
  /\ 2 <= chunk_size default_processor
  /\ exists chunks,
       process_pdf
         (S (List.length (extract_text_from_pdf [of_string " a  b "; []])))
         default_processor [of_string " a  b "; []]
       = Some chunks
       /\ Forall (fun c => normalized (c_text c)) chunks.
Proof.
  assert (H1 : 0 <= chunk_overlap default_processor
               < chunk_size default_processor) by (cbn; lia).
  assert (H2 : advancing default_processor) by (left; cbn; lia).
  assert (H3 : 2 <= chunk_size default_processor) by (cbn; lia).
  split; [exact H1 |]. split; [exact H2 |]. split; [exact H3 |].
  destruct (process_pdf_spec default_processor [of_string " a  b "; []]
              H1 H2 H3) as (chunks & E & _ & _ & Hclean).
  exists chunks. split; [exact E | exact Hclean].
Defined.

(* ================================================================== *)
(** * Termination of the chunk loop *)
(* ================================================================== *)

(** Once the loop has returned, more iterations change nothing. *)
Lemma create_chunks_loop_more_fuel (self : DocumentProcessor) (text : pystr)
    (extra : nat) :
  forall fuel chunks start chunk_id result,
    create_chunks_loop fuel self text chunks start chunk_id = Returned result ->
    create_chunks_loop (fuel + extra) self text chunks start chunk_id
    = Returned result.
Proof.
  induction fuel as [| fuel IH]; intros chunks start chunk_id result E.
  - cbn [create_chunks_loop] in E. discriminate.
  - cbn [Nat.add]. cbn [create_chunks_loop] in E |- *.
    destruct (start <? len text); [| exact E].
    destruct (emit chunks chunk_id text start (window_end self text start))
      as [chunks' chunk_id'].
    destruct (window_end self text start - chunk_overlap self
              >=? len text - chunk_overlap self); [exact E |].
    apply IH. exact E.
Qed.

(** X15: with advancing parameters (overlap at most [chunk_size - 99], as
    with the defaults 500/100, or at most 1) [create_chunks] returns for
    every text, after at most [len text + 1] evaluations of the loop
    condition; the list it returns does not depend on how many further
    iterations are allowed, and it has at most [len text] chunks. *)
Theorem create_chunks_terminates_when_advancing (self : DocumentProcessor)
    (text : pystr) :
  0 <= chunk_overlap self < chunk_size self -> advancing self ->
  exists chunks,
    (forall fuel, (List.length text < fuel)%nat ->
                  create_chunks fuel self text = Some chunks)
    /\ len chunks <= len text.
Proof.
  intros Hp Hadv.
  destruct (create_chunks_loop_returns self text Hp Hadv (List.length text)
              [] 0 0) as [chunks E]; [unfold len; lia |].
  exists chunks. split.
  - intros fuel Hfuel. unfold create_chunks, create_chunks_run.
    replace fuel with (S (List.length text) + (fuel - S (List.length text)))%nat
      by lia.
    rewrite (create_chunks_loop_more_fuel self text _ _ _ _ _ _ E).
    reflexivity.
  - assert (Hstep : forall chunks chunk_id start,
              0 <= start /\ len chunks <= Z.min start (len text) ->
              start < len text ->
              let end_ := window_end self text start in
              0 <= end_ - chunk_overlap self
              /\ len (fst (emit chunks chunk_id text start end_))
                 <= Z.min (end_ - chunk_overlap self) (len text)).
    { intros chunks0 chunk_id start [H0 Hc] Hlt. cbv zeta.
      pose proof (window_end_advances self text start Hp Hadv) as Hw.
      split; [lia |].
      destruct (emit_cases self text chunks0 chunk_id start) as [[_ Ee] | Ee];
        rewrite Ee; cbn [fst].
      - rewrite len_app. change (len [chunk_at self text chunk_id start]) with 1.
        lia.
      - lia. }
    destruct (create_chunks_loop_invariant self text
                (fun chunks start =>
                   0 <= start /\ len chunks <= Z.min start (len text))
                Hstep (S (List.length text)) [] 0 0) as [start' [_ H]].
    + split; [lia |]. pose proof (len_nonneg text). change (len []) with 0. lia.
    + rewrite E in H. cbn [emitted] in H. lia.
Qed.

Lemma create_chunks_terminates_when_advancing_witness :
  0 <= chunk_overlap default_processor < chunk_size default_processor
  /\ advancing default_processor
  /\ exists chunks,
       (forall fuel, (List.length one_sentence_text < fuel)%nat ->
                     create_chunks fuel default_processor one_sentence_text
                     = Some chunks)
       /\ len chunks <= len one_sentence_text.
Proof.
  assert (H1 : 0 <= chunk_overlap default_processor
               < chunk_size default_processor) by (cbn; lia).
  assert (H2 : advancing default_processor) by (left; cbn; lia).
  split; [exact H1 |]. split; [exact H2 |].
  exact (create_chunks_terminates_when_advancing default_processor
           one_sentence_text H1 H2).
Defined.

(* ================================================================== *)
(** * app.py: expansion without merge *)
(* ================================================================== *)

Lemma extend_all_spec (retriever : Retriever) (expanded_queries : list pystr) :
  forall all_chunks result,
    extend_all retriever expanded_queries all_chunks = Ok result ->
    all_retrieved retriever 10 expanded_queries
    /\ result = all_chunks ++ occurrences retriever 10 expanded_queries.
Proof.
  induction expanded_queries as [| q qs IH]; intros all_chunks result E;
    cbn [extend_all] in E.
  - inversion E; subst. split; [intros q [] |].
    unfold occurrences. cbn [flat_map]. rewrite app_nil_r. reflexivity.
  - destruct (retriever q 10) as [results | e] eqn:Eq; [| discriminate].
    destruct (IH _ _ E) as [Hall Hres]. split.
    + intros q' [<- | Hq']; [exists results; exact Eq | apply Hall; exact Hq'].
    + unfold occurrences in *. cbn [flat_map]. rewrite Eq, Hres, app_assoc.
      reflexivity.
Qed.

Lemma unique_by_text_acc (all_chunks : list RetrievalResult) :
  forall seen unique_chunks,
    unique_by_text all_chunks seen unique_chunks
    = unique_chunks ++ unique_by_text all_chunks seen [].
Proof.
  induction all_chunks as [| c rest IH]; intros seen unique_chunks;
    cbn [unique_by_text].
  - rewrite app_nil_r. reflexivity.
  - destruct (existsb (pystr_eqb (text c)) seen); [apply IH |].
    rewrite (IH _ (unique_chunks ++ [c])), (IH _ ([] ++ [c])), <- app_assoc.
    reflexivity.
Qed.

Lemma unique_by_text_step (c : RetrievalResult) (rest : list RetrievalResult)
    (seen : list pystr) :
  unique_by_text (c :: rest) seen []
  = if existsb (pystr_eqb (text c)) seen then unique_by_text rest seen []
    else c :: unique_by_text rest (text c :: seen) [].
Proof.
  cbn [unique_by_text]. destruct (existsb (pystr_eqb (text c)) seen);
    [reflexivity |].
  rewrite unique_by_text_acc. reflexivity.
Qed.

Lemma unique_by_text_first (all_chunks : list RetrievalResult) :
  forall seen c,
    In c (unique_by_text all_chunks seen []) ->
    ~ In (text c) seen /\ first_with_text all_chunks c.
Proof.
  induction all_chunks as [| x rest IH]; intros seen c Hin.
  - destruct Hin.
  - rewrite unique_by_text_step in Hin.
    destruct (existsb (pystr_eqb (text x)) seen) eqn:E.
    + apply existsb_pystr_eqb in E.
      destruct (IH _ _ Hin) as [Hs (l1 & l2 & Hl & Hf)].
      split; [exact Hs |]. exists (x :: l1), l2. split; [rewrite Hl; reflexivity |].
      cbn [map]. intros [Hx | Hx]; [| exact (Hf Hx)].
      apply Hs. rewrite <- Hx. exact E.
    + assert (Hx : ~ In (text x) seen).
      { intros H. apply existsb_pystr_eqb in H. congruence. }
      destruct Hin as [<- | Hin].
      * split; [exact Hx |]. exists [], rest. split; [reflexivity | intros []].
      * destruct (IH _ _ Hin) as [Hs (l1 & l2 & Hl & Hf)].
        split; [intros H; apply Hs; now right |].
        exists (x :: l1), l2. split; [rewrite Hl; reflexivity |].
        cbn [map]. intros [H | H]; [| exact (Hf H)].
        apply Hs. left. exact H.
Qed.

Lemma unique_by_text_distinct (all_chunks : list RetrievalResult) :
  forall seen, NoDup (map text (unique_by_text all_chunks seen [])).
Proof.
  induction all_chunks as [| x rest IH]; intros seen.
  - constructor.
  - rewrite unique_by_text_step.
    destruct (existsb (pystr_eqb (text x)) seen); [apply IH |].
    cbn [map]. constructor; [| apply IH].
    intros H. apply in_map_iff in H. destruct H as (c & Hc & Hin).
    destruct (unique_by_text_first _ _ _ Hin) as [Hs _].
    apply Hs. left. symmetry. exact Hc.
Qed.

Lemma unique_by_text_keeps_distinct (plain rest : list RetrievalResult) :
  forall seen,
    NoDup (map text plain) ->
    (forall c, In c plain -> ~ In (text c) seen) ->
    exists more, unique_by_text (plain ++ rest) seen [] = plain ++ more.
Proof.
  induction plain as [| x plain IH]; intros seen Hd Hs.
  - eexists. reflexivity.
  - cbn [app]. rewrite unique_by_text_step.
    destruct (existsb (pystr_eqb (text x)) seen) eqn:E.
    + apply existsb_pystr_eqb in E. exfalso. exact (Hs x (or_introl eq_refl) E).
    + cbn [map] in Hd. inversion Hd as [| t l Ht Hl]; subst t l.
      destruct (IH (text x :: seen) Hl) as [more Hm].
      * intros c Hc [H | H].
        -- apply Ht. rewrite H. apply in_map. exact Hc.
        -- exact (Hs c (or_intror Hc) H).
      * exists more. rewrite Hm. reflexivity.
Qed.

(** X18: the retrieval step of the [/generate] handler of app.py with
    [use_expansion].  When it produces chunks, [retrieve] returned for the
    topic and for each of its at most five expansions; no two chunks have
    the same text and there are at most 15; each chunk is the first result,
    in visiting order, that has its text (so it carries the scores of the
    first query that found the text, not the best ones); and when the
    results for the topic itself have distinct texts, the list starts with
    the first 15 of them: expansion only adds to what plain retrieval
    finds. *)
Theorem generate_quiz_chunks_spec (query_expander : SemanticQueryExpander)
    (retriever : Retriever) (topic : pystr) (chunk_list : list RetrievalResult) :
  generate_quiz_chunks query_expander retriever topic true = Ok chunk_list ->
  let expanded_queries := expand_query query_expander topic 5 in
  all_retrieved retriever 10 expanded_queries
  /\ len expanded_queries <= 6
  /\ NoDup (map text chunk_list)
  /\ len chunk_list <= 15
  /\ (forall c, In c chunk_list ->
                first_with_text (occurrences retriever 10 expanded_queries) c)
  /\ (forall plain,
        retriever topic 10 = Ok plain -> NoDup (map text plain) ->
        exists more, chunk_list = py_prefix plain 15 ++ more).
Proof.
  unfold generate_quiz_chunks. cbv zeta. intros E.
  destruct (extend_all retriever (expand_query query_expander topic 5) [])
    as [all_chunks | e] eqn:Ea; [| discriminate].
  inversion E; subst chunk_list. clear E.
  destruct (extend_all_spec _ _ _ _ Ea) as [Hall Hocc]. cbn [app] in Hocc.
  subst all_chunks.
  set (occs := occurrences retriever 10 (expand_query query_expander topic 5))
    in *.
  rewrite (py_prefix_firstn _ 15) by lia.
  split; [exact Hall |]. split.
  { pose proof (expand_query_length query_expander topic 5). lia. }
  split; [| split; [| split]].
  - rewrite <- firstn_map. apply NoDup_firstn, unique_by_text_distinct.
  - unfold len. rewrite length_firstn. lia.
  - intros c Hc. apply In_firstn in Hc.
    exact (proj2 (unique_by_text_first _ _ _ Hc)).
  - intros plain Hplain Hd.
    assert (Ho : exists rest, occs = plain ++ rest).
    { unfold occs, occurrences, expand_query.
      destruct (client query_expander topic 5); cbn [flat_map];
        rewrite Hplain; eexists; reflexivity. }
    destruct Ho as [rest Ho]. rewrite Ho.
    destruct (unique_by_text_keeps_distinct plain rest [] Hd) as [more Hm];
      [intros c _ [] |].
    rewrite Hm, firstn_app, (py_prefix_firstn _ 15) by lia.
    eexists. reflexivity.
Qed.

Lemma generate_quiz_chunks_spec_witness :
  generate_quiz_chunks ab_expander two_hits_retriever qa true
  = Ok [hit 0 (1 # 2)]
  /\ NoDup (map text [hit 0 (1 # 2)])
  /\ len [hit 0 (1 # 2)] <= 15.
Proof.
  assert (H : generate_quiz_chunks ab_expander two_hits_retriever qa true
              = Ok [hit 0 (1 # 2)]) by (vm_compute; reflexivity).
  split; [exact H |].
  destruct (generate_quiz_chunks_spec ab_expander two_hits_retriever qa
              [hit 0 (1 # 2)] H) as (_ & _ & Hd & Hl & _).
  split; [exact Hd | exact Hl].
Defined.

(* ================================================================== *)
(** * main.py: expansion against plain retrieval *)
(* ================================================================== *)

Lemma fan_out_all_retrieved (retriever : Retriever) (k : Z) (qs : list pystr) :
  forall d d', fan_out retriever k qs d = Ok d' -> all_retrieved retriever k qs.
Proof.
  induction qs as [| q qs IH]; intros d d' E; cbn [fan_out] in E.
  - intros q [].
  - destruct (retriever q k) as [rs | e] eqn:Eq; [| discriminate].
    intros q' [<- | Hq']; [exists rs; exact Eq |].
    exact (IH _ _ E q' Hq').
Qed.

Lemma expand_query_head (self : SemanticQueryExpander) (query : pystr)
    (num_expansions : Z) :
  In query (expand_query self query num_expansions).
Proof.
  unfold expand_query. destruct (client self query num_expansions); now left.
Qed.

(** X19: the two retrieval paths of [RAGQuizSystem.generate_quiz] of
    main.py, over a loaded document and an index that answers the topic.
    Whenever the expansion path produces a list, the plain path produces
    one too, of at most 10 results, and none of its first five results is
    lost or scored lower by expansion: each of them has an entry with the
    same chunk id and at least its hybrid score in the merged list. *)
Theorem generate_quiz_expansion_keeps_top_results (self : RAGQuizSystem)
    (topic : pystr) (num_expansions : Z)
    (cosine_of : pystr -> Result (list Q)) (bm25_of : pystr -> list Q)
    (cosine_scores : list Q) (merged : list RetrievalResult) :
  indexed_for (rag_retriever self) topic cosine_of bm25_of cosine_scores ->
  retrieved_chunks self topic true num_expansions = inr merged ->
  exists plain,
    retrieved_chunks self topic false num_expansions = inr plain
    /\ len plain <= 10
    /\ forall r, In r (py_prefix plain 5) ->
         exists v, In v merged
                   /\ result_id v = result_id r
                   /\ (hybrid_score r <= hybrid_score v)%Q.
Proof.
  intros Hidx E. unfold retrieved_chunks in *.
  destruct (rag_chunks self) as [loaded |]; [| discriminate].
  pose proof (retrieve_indexed _ _ _ _ _ 10 Hidx) as E10.
  pose proof (retrieve_indexed _ _ _ _ _ 5 Hidx) as E5.
  rewrite E10. eexists. split; [reflexivity |].
  split; [apply len_py_prefix; lia |].
  destruct (retrieve_with_expansion (rag_query_expander self) topic
              (retrieve (rag_retriever self)) num_expansions 5)
    as [out | e] eqn:Eexp; [| discriminate].
  inversion E; subst out. clear E.
  unfold retrieve_with_expansion in Eexp.
  set (qs := expand_query (rag_query_expander self) topic num_expansions) in *.
  assert (Hall : all_retrieved (retrieve (rag_retriever self)) 5 qs).
  { unfold merge_expanded in Eexp.
    destruct (fan_out (retrieve (rag_retriever self)) 5 qs []) as [d |] eqn:Ef;
      [| discriminate].
    exact (fan_out_all_retrieved _ _ _ _ _ Ef). }
  destruct (merge_expanded_spec _ _ _ Hall) as (out & Eo & _ & Hbest & Hkept & _).
  rewrite Eo in Eexp. inversion Eexp; subst out. clear Eexp.
  intros r Hr.
  assert (Hr5 : In r (py_prefix
                        (sort_desc hybrid_score
                           (filter (clears (threshold (rag_retriever self)))
                              (candidates_of (rag_retriever self) bm25_of topic
                                 cosine_scores))) 5)).
  { rewrite !py_prefix_firstn in * by lia.
    rewrite firstn_firstn in Hr. exact Hr. }
  assert (Ht : In (tag topic r)
                 (tagged_occurrences (retrieve (rag_retriever self)) 5 qs)).
  { apply tagged_occurrences_In. eexists topic, _, r.
    split; [apply expand_query_head |]. split; [exact E5 |].
    split; [exact Hr5 | reflexivity]. }
  destruct (Hkept _ Ht) as (v & Hv & Hid).
  exists v. split; [exact Hv |]. split; [exact Hid |].
  exact (first_best_bound _ _ _ (Hbest v Hv) Ht (eq_sym Hid)).
Qed.

(* ================================================================== *)
(** * _tokenize *)
(* ================================================================== *)

Section Tokens.

Variable word : N -> bool.

Lemma word_runs_concat (s : pystr) : forall cur,
  List.concat (word_runs word s cur) = rev cur ++ filter word s.
Proof.
  induction s as [| c s IH]; intros cur; cbn [word_runs filter].
  - destruct cur as [| d cur]; cbn [truthy List.concat]; [reflexivity |].
    rewrite !app_nil_r. reflexivity.
  - destruct (word c).
    + rewrite IH. cbn [rev]. rewrite <- app_assoc. reflexivity.
    + destruct cur as [| d cur]; cbn [truthy List.concat]; rewrite IH; reflexivity.
Qed.

Lemma word_runs_tokens (s : pystr) : forall cur,
  (forall c, In c cur -> word c = true) ->
  Forall (is_token word) (word_runs word s cur).
Proof.
  assert (Hrev : forall d cur,
            (forall c, In c (d :: cur) -> word c = true) ->
            is_token word (rev (d :: cur))).
  { intros d cur Hcur. split.
    - cbn [rev]. intros H. apply app_eq_nil in H. destruct H. discriminate.
    - intros c Hc. apply Hcur, in_rev. exact Hc. }
  induction s as [| c s IH]; intros cur Hcur; cbn [word_runs].
  - destruct cur as [| d cur]; cbn [truthy]; constructor; [| constructor].
    apply Hrev. exact Hcur.
  - destruct (word c) eqn:Ec.
    + apply IH. intros x [<- | Hx]; [exact Ec | apply Hcur; exact Hx].
    + destruct cur as [| d cur]; cbn [truthy].
      * apply IH. intros x [].
      * constructor; [apply Hrev; exact Hcur | apply IH; intros x []].
Qed.

Lemma word_runs_through_token (t : pystr) : forall rest cur,
  (forall c, In c t -> word c = true) ->
  word_runs word (t ++ rest) cur = word_runs word rest (rev t ++ cur).
Proof.
  induction t as [| c t IH]; intros rest cur Ht; [reflexivity |].
  cbn [app word_runs]. rewrite (Ht c (or_introl eq_refl)).
  rewrite IH by (intros x Hx; apply Ht; now right).
  cbn [rev]. rewrite <- app_assoc. reflexivity.
Qed.

Lemma word_runs_join (sep : N) (ts : list pystr) :
  word sep = false -> Forall (is_token word) ts ->
  word_runs word (join sep ts) [] = ts.
Proof.
  intros Hsep. induction 1 as [| t ts [Hne Hw] Hts IH]; [reflexivity |].
  destruct ts as [| t' ts'].
  - cbn [join]. rewrite <- (app_nil_r t) at 1.
    rewrite word_runs_through_token by exact Hw.
    cbn [word_runs]. rewrite app_nil_r.
    destruct (rev t) as [| d l] eqn:Er.
    + apply (f_equal (@rev N)) in Er. rewrite rev_involutive in Er.
      contradiction.
    + cbn [truthy]. rewrite <- Er, rev_involutive. reflexivity.
  - change (join sep (t :: t' :: ts')) with (t ++ sep :: join sep (t' :: ts')).
    rewrite word_runs_through_token by exact Hw.
    cbn [word_runs]. rewrite Hsep, app_nil_r.
    destruct (rev t) as [| d l] eqn:Er.
    + apply (f_equal (@rev N)) in Er. rewrite rev_involutive in Er.
      contradiction.
    + cbn [truthy]. rewrite <- Er, rev_involutive, IH. reflexivity.
Qed.

End Tokens.

(** X20: [_tokenize] splits the lowered text into its words.  Every token
    is a non-empty string of word characters; the tokens, concatenated, are
    the word characters of the lowered text in order, so nothing is
    dropped but separators; there is no token exactly when the lowered text
    has no word character; and a lowered text that is a sequence of tokens
    joined by one separator character is split back into those tokens. *)
Theorem tokenize_spec (word : N -> bool) (lower : pystr -> pystr)
    (text : pystr) :
  Forall (is_token word) (_tokenize word lower text)
  /\ List.concat (_tokenize word lower text) = filter word (lower text)
  /\ (_tokenize word lower text = []
      <-> forall c, In c (lower text) -> word c = false)
  /\ forall sep ts,
       word sep = false -> Forall (is_token word) ts ->
       lower text = join sep ts -> _tokenize word lower text = ts.
Proof.
  unfold _tokenize.
  assert (Ht : Forall (is_token word) (word_runs word (lower text) []))
    by (apply word_runs_tokens; intros c []).
  pose proof (word_runs_concat word (lower text) []) as Hc. cbn [rev app] in Hc.
  split; [exact Ht |]. split; [exact Hc |]. split.
  - split.
    + intros E c Hin. rewrite E in Hc. cbn [List.concat] in Hc.
      destruct (word c) eqn:Ec; [| reflexivity].
      assert (Hf : In c (filter word (lower text)))
        by (apply filter_In; split; assumption).
      rewrite <- Hc in Hf. destruct Hf.
    + intros Hnone.
      destruct (word_runs word (lower text) []) as [| t ts]; [reflexivity |].
      inversion Ht as [| t0 ts0 [Hne Hw] _]; subst t0 ts0.
      destruct t as [| c t]; [contradiction |].
      assert (Hin : In c (filter word (lower text))).
      { rewrite <- Hc. cbn [List.concat app]. now left. }
      apply filter_In in Hin as [Hin Hwc]. rewrite (Hnone c Hin) in Hwc.
      discriminate.
  - intros sep ts Hsep Hts E. rewrite E. apply word_runs_join; assumption.
Qed.

Lemma tokenize_spec_witness :
  (fun c => (97 <=? c) && (c <=? 122))%N 32%N = false
  /\ Forall (is_token (fun c => (97 <=? c) && (c <=? 122))%N)
       [of_string "ab"; of_string "cd"]
  /\ of_string "ab cd" = join 32%N [of_string "ab"; of_string "cd"]
  /\ _tokenize (fun c => (97 <=? c) && (c <=? 122))%N (fun s => s)
       (of_string "ab cd")
     = [of_string "ab"; of_string "cd"].
Proof.
  assert (H1 : (fun c => (97 <=? c) && (c <=? 122))%N 32%N = false)
    by reflexivity.
  assert (H2 : Forall (is_token (fun c => (97 <=? c) && (c <=? 122))%N)
                 [of_string "ab"; of_string "cd"]).
  { repeat constructor; try discriminate;
      intros c H; cbn in H; repeat destruct H as [<- | H]; try reflexivity;
      destruct H. }
  assert (H3 : of_string "ab cd" = join 32%N [of_string "ab"; of_string "cd"])
    by reflexivity.
  split; [exact H1 |]. split; [exact H2 |]. split; [exact H3 |].
  exact (proj2 (proj2 (proj2
           (tokenize_spec (fun c => (97 <=? c) && (c <=? 122))%N (fun s => s)
              (of_string "ab cd"))))
           32%N [of_string "ab"; of_string "cd"] H1 H2 H3).
Defined.

Lemma generate_quiz_expansion_keeps_top_results_witness :
  indexed_for sample_retriever sample_query sample_cosine sample_bm25
    [1 # 2; 9 # 10; 1 # 2]%Q
  /\ exists merged plain,
       retrieved_chunks
         (mkRAGQuizSystem sample_retriever ab_expander (Some sample_chunks))
         sample_query true 5 = inr merged
       /\ retrieved_chunks
            (mkRAGQuizSystem sample_retriever ab_expander (Some sample_chunks))
            sample_query false 5 = inr plain
       /\ len plain <= 10.
Proof.
  split; [exact sample_indexed |].
  assert (E : exists merged,
            retrieved_chunks
              (mkRAGQuizSystem sample_retriever ab_expander (Some sample_chunks))
              sample_query true 5 = inr merged)
    by (vm_compute; eexists; reflexivity).
  destruct E as [merged E]. exists merged.
  destruct (generate_quiz_expansion_keeps_top_results
              (mkRAGQuizSystem sample_retriever ab_expander (Some sample_chunks))
              sample_query 5 sample_cosine sample_bm25 _ merged
              sample_indexed E) as (plain & Ep & Hl & _).
  exists plain. split; [exact E |]. split; [exact Ep | exact Hl].
Defined.
